(** * linkoping-parking-finder: snapshot diff, message composer and
      UTF-8 smart splitter of [parking_finder/main.py]

    The development embeds the pure core of [main.py] and proves the
    properties its design document states about it.

    Python values are modelled as follows.
    - A [str] is a list of code points ([Z]); Python's [str] may hold lone
      surrogates, on which [str.encode("utf-8")] raises.
    - [bytes] is a list of byte values ([Z], each below 256).
    - A function that can raise returns a [result]; the exceptions that the
      modelled code can meet are listed in [exn].
    - [len] yields a [nat]; [max_bytes] is a Python [int], hence a [Z]. *)

From Stdlib Require Import ZArith Lia.
From stdpp Require Import base option list strings gmap sorting lexico.

(** * The program *)

(** ** Exceptions and the [result] monad *)

Inductive exn : Type :=
  | UnicodeEncodeError
  | UnicodeDecodeError
  | IndexError
  | FileNotFoundError
  | OSError
  | ValidationError
  | JSONDecodeError
  | KeyError.

Inductive result (A : Type) : Type :=
  | Ok (a : A)
  | Raise (e : exn).

Arguments Ok {A} a.

Arguments Raise {A} e.

#[global] Instance result_ret : MRet result := fun A a => Ok a.

#[global] Instance result_bind : MBind result := fun A B f m =>
  match m with
  | Ok a => f a
  | Raise e => Raise e
  end.

#[global] Instance result_fmap : FMap result := fun A B f m =>
  match m with
  | Ok a => Ok (f a)
  | Raise e => Raise e
  end.

(** A [for] loop whose body may raise: the first exception leaves the loop. *)
Fixpoint for_each {S A : Type} (body : S → A → result S) (xs : list A) (st : S)
  : result S :=
  match xs with
  | [] => Ok st
  | x :: xs' => st' ← body st x; for_each body xs' st'
  end.

(** ** Strings and UTF-8 *)

Definition str : Type := list Z.

Definition bytes : Type := list Z.

(** The code points [str.encode("utf-8")] accepts: Unicode scalar values. *)
Definition scalar (c : Z) : Prop :=
  (0 ≤ c < 0xD800 ∨ 0xE000 ≤ c < 0x110000)%Z.

Definition encodable (s : str) : Prop := Forall scalar s.

(** Number of bytes of the UTF-8 form of a code point. *)
Definition char_width (c : Z) : nat :=
  if (c <? 0x80)%Z then 1
  else if (c <? 0x800)%Z then 2
  else if (c <? 0x10000)%Z then 3
  else 4.

Definition encode_char (c : Z) : result bytes :=
  if (c <? 0)%Z then Raise UnicodeEncodeError
  else if (c <? 0x80)%Z then Ok [c]
  else if (c <? 0x800)%Z then
    Ok [0xC0 + c / 64; 0x80 + c mod 64]%Z
  else if (c <? 0x10000)%Z then
    if ((0xD800 <=? c) && (c <=? 0xDFFF))%Z then Raise UnicodeEncodeError
    else Ok [0xE0 + c / 4096; 0x80 + (c / 64) mod 64; 0x80 + c mod 64]%Z
  else if (c <? 0x110000)%Z then
    Ok [0xF0 + c / 262144; 0x80 + (c / 4096) mod 64;
        0x80 + (c / 64) mod 64; 0x80 + c mod 64]%Z
  else Raise UnicodeEncodeError.

(** [s.encode("utf-8")] *)
Fixpoint encode (s : str) : result bytes :=
  match s with
  | [] => Ok []
  | c :: s' => bc ← encode_char c; bs ← encode s'; mret (bc ++ bs)
  end.

Definition is_cont (b : Z) : bool := ((0x80 <=? b) && (b <=? 0xBF))%Z.

(** [b.decode("utf-8", errors="strict")]: shortest forms only, no surrogate,
    nothing above U+10FFFF. *)
Fixpoint decode (b : bytes) : result str :=
  match b with
  | [] => Ok []
  | b0 :: r0 =>
    if ((0 <=? b0) && (b0 <? 0x80))%Z then (b0 ::.) <$> decode r0
    else
      match r0 with
      | [] => Raise UnicodeDecodeError
      | b1 :: r1 =>
        if ((0xC2 <=? b0) && (b0 <=? 0xDF))%Z then
          if is_cont b1
          then (((b0 - 0xC0) * 64 + (b1 - 0x80))%Z ::.) <$> decode r1
          else Raise UnicodeDecodeError
        else
          match r1 with
          | [] => Raise UnicodeDecodeError
          | b2 :: r2 =>
            if ((0xE0 <=? b0) && (b0 <=? 0xEF))%Z then
              let c := ((b0 - 0xE0) * 4096 + (b1 - 0x80) * 64 + (b2 - 0x80))%Z in
              if is_cont b1 && is_cont b2 && (0x800 <=? c)%Z
                 && negb ((0xD800 <=? c) && (c <=? 0xDFFF))%Z
              then (c ::.) <$> decode r2
              else Raise UnicodeDecodeError
            else
              match r2 with
              | [] => Raise UnicodeDecodeError
              | b3 :: r3 =>
                if ((0xF0 <=? b0) && (b0 <=? 0xF4))%Z then
                  let c := ((b0 - 0xF0) * 262144 + (b1 - 0x80) * 4096
                            + (b2 - 0x80) * 64 + (b3 - 0x80))%Z in
                  if is_cont b1 && is_cont b2 && is_cont b3
                     && (0x10000 <=? c)%Z && (c <? 0x110000)%Z
                  then (c ::.) <$> decode r3
                  else Raise UnicodeDecodeError
                else Raise UnicodeDecodeError
              end
          end
      end
  end.

(** [utf8len]: [len(s.encode("utf-8"))] *)
Definition utf8len (s : str) : result nat := length <$> encode s.

(** Byte length of the UTF-8 form, as a total function. *)
Definition byte_len (s : str) : nat := sum_list_with char_width s.

(** ** The [str] methods the splitter uses *)

(** Line boundaries of [str.splitlines]. *)
Definition is_linebreak (c : Z) : bool :=
  ((c =? 0x0A) || (c =? 0x0B) || (c =? 0x0C) || (c =? 0x0D) || (c =? 0x1C)
   || (c =? 0x1D) || (c =? 0x1E) || (c =? 0x85) || (c =? 0x2028)
   || (c =? 0x2029))%Z.

(** [s.splitlines(keepends=True)], with [cur] the line being collected;
    a carriage return followed by a line feed is one boundary. *)
Fixpoint splitlines_from (cur : str) (s : str) : list str :=
  match s with
  | [] => if cur is [] then [] else [cur]
  | c :: rest =>
    if (c =? 0x0D)%Z then
      match rest with
      | c' :: rest' =>
        if (c' =? 0x0A)%Z then (cur ++ [c; c']) :: splitlines_from [] rest'
        else (cur ++ [c]) :: splitlines_from [] rest
      | [] => (cur ++ [c]) :: splitlines_from [] rest
      end
    else if is_linebreak c then (cur ++ [c]) :: splitlines_from [] rest
    else splitlines_from (cur ++ [c]) rest
  end.

Definition splitlines (s : str) : list str := splitlines_from [] s.

(** White space of [str.strip]. *)
Definition is_space (c : Z) : bool :=
  (((0x09 <=? c) && (c <=? 0x0D)) || ((0x1C <=? c) && (c <=? 0x20))
   || (c =? 0x85) || (c =? 0xA0) || (c =? 0x1680)
   || ((0x2000 <=? c) && (c <=? 0x200A)) || (c =? 0x2028) || (c =? 0x2029)
   || (c =? 0x202F) || (c =? 0x205F) || (c =? 0x3000))%Z.

Fixpoint lstrip (s : str) : str :=
  match s with
  | [] => []
  | c :: s' => if is_space c then lstrip s' else s
  end.

Definition strip (s : str) : str := reverse (lstrip (reverse (lstrip s))).

(** [s.replace(old, "")] for a one-character [old]. *)
Definition remove_char (old : Z) (s : str) : str :=
  filter (λ c, c ≠ old) s.

Fixpoint starts_with (s t : str) : bool :=
  match t, s with
  | [], _ => true
  | _ :: _, [] => false
  | a :: t', b :: s' => bool_decide (a = b) && starts_with s' t'
  end.

(** [t in s] *)
Fixpoint contains (s t : str) : bool :=
  starts_with s t || (if s is _ :: s' then contains s' t else false).

Definition star : Z := 0x2A.

Definition underscore : Z := 0x5F.

Definition dashes : str := [0x2D; 0x2D]%Z.

(** ** List indexing as Python has it *)

(** [l[i]] for [0 <= i] *)
Definition py_index {A} (l : list A) (i : nat) : result A :=
  match l !! i with
  | Some x => Ok x
  | None => Raise IndexError
  end.

(** [l[-1]] *)
Definition py_last {A} (l : list A) : result A :=
  match last l with
  | Some x => Ok x
  | None => Raise IndexError
  end.

(** [enumerate(l)] *)
Definition enumerate {A} (l : list A) : list (nat * A) := imap pair l.

(** ** The smart splitter *)

(** [split_line_hard]: the loop state is [(chunks, cur, cur_b)]. *)
Definition split_line_hard_body (max_bytes : Z)
    (st : list str * str * nat) (ch : Z) : result (list str * str * nat) :=
  let '(chunks, cur, cur_b) := st in
  cb ← utf8len [ch];
  if (Z.of_nat (cur_b + cb) >? max_bytes)%Z
  then Ok (chunks ++ [cur], [ch], cb)
  else Ok (chunks, cur ++ [ch], cur_b + cb).

Definition split_line_hard (line : str) (max_bytes : Z) : result (list str) :=
  '(chunks, cur, _) ← for_each (split_line_hard_body max_bytes) line ([], [], 0);
  Ok (if cur is [] then chunks else chunks ++ [cur]).

Section splitter.
(** [str.casefold] applies the full case folding table of the Unicode
    database, which is not part of the program. *)
Variable casefold : str → str.

Definition _is_completion_line (line token : str) : bool :=
  let normalized := casefold (remove_char underscore (remove_char star line)) in
  contains normalized (casefold token).

(** The first loop of [last_preferred_boundary_bytes]: cumulative UTF-8
    byte offsets at line ends. *)
Definition offsets_body (offsets : list nat) (ln : str) : result (list nat) :=
  prev ← py_last offsets;
  n ← utf8len ln;
  Ok (offsets ++ [prev + n]).

(** Its second loop; the state is [(candidates, prev_non_empty)]. *)
Definition scan_body (offsets : list nat) (completion_token : str)
    (st : list nat * str) (iln : nat * str) : result (list nat * str) :=
  let '(candidates, prev_non_empty) := st in
  let '(i, ln) := iln in
  let stripped := strip ln in
  candidates ←
    (if bool_decide (stripped = dashes)
     then off ← py_index offsets (i + 1); Ok (candidates ++ [off])
     else Ok candidates);
  if bool_decide (stripped ≠ []) then Ok (candidates, ln)
  else if bool_decide (prev_non_empty ≠ [])
          && _is_completion_line prev_non_empty completion_token
  then off ← py_index offsets (i + 1); Ok (candidates ++ [off], prev_non_empty)
  else Ok (candidates, prev_non_empty).

Definition last_preferred_boundary_bytes (cur_text completion_token : str)
  : result (option nat) :=
  let lines := splitlines cur_text in
  offsets ← for_each offsets_body lines [0];
  '(candidates, _) ←
    for_each (scan_body offsets completion_token) (enumerate lines) ([], []);
  Ok (last candidates).

(** [flush_chunk] empties [buf] into [out]; it returns the two lists. *)
Definition flush_chunk (buf out : list str) : list str * list str :=
  if buf is [] then (buf, out) else ([], out ++ [concat buf]).

Record split_state : Type := SplitState {
  chunks : list str;
  buf : list str;
  buf_b : nat;
}.

(** The branch of [split_utf8_smart] taken when a preferred cut exists. *)
Definition apply_cut (st : split_state) (cut : nat) : result split_state :=
  let cur_text := concat (buf st) in
  b ← encode cur_text;
  head ← decode (take cut b);
  remainder ← decode (drop cut b);
  rb ← (if remainder is [] then Ok 0 else utf8len remainder);
  Ok {| chunks := chunks st ++ [head];
        buf := if remainder is [] then [] else [remainder];
        buf_b := rb |}.

(** The body of the loop over the lines of the text. *)
Definition split_body (max_bytes : Z) (completion_token : str)
    (st : split_state) (line : str) : result split_state :=
  lb ← utf8len line;
  if (Z.of_nat lb >? max_bytes)%Z then
    let '(buf', chunks') := flush_chunk (buf st) (chunks st) in
    hard ← split_line_hard line max_bytes;
    Ok {| chunks := chunks' ++ hard; buf := buf'; buf_b := 0 |}
  else
    st ←
      (if (Z.of_nat (buf_b st + lb) >? max_bytes)%Z then
         cut ← last_preferred_boundary_bytes (concat (buf st)) completion_token;
         st ← (match cut with
               | Some cut => apply_cut st cut
               | None => Ok st
               end);
         if (Z.of_nat (buf_b st + lb) >? max_bytes)%Z then
           let '(buf', chunks') := flush_chunk (buf st) (chunks st) in
           Ok {| chunks := chunks'; buf := buf'; buf_b := 0 |}
         else Ok st
       else Ok st);
    Ok {| chunks := chunks st; buf := buf st ++ [line];
          buf_b := buf_b st + lb |}.

Definition split_utf8_smart (text : str) (max_bytes : Z) (completion_token : str)
  : result (list str) :=
  st ← for_each (split_body max_bytes completion_token) (splitlines text)
         {| chunks := []; buf := []; buf_b := 0 |};
  Ok (flush_chunk (buf st) (chunks st)).2.

End splitter.

(** A folding of the ASCII letters, to run the splitter on examples. *)
Definition ascii_casefold (s : str) : str :=
  (λ c, if ((0x41 <=? c) && (c <=? 0x5A))%Z then (c + 0x20)%Z else c) <$> s.

(** Code points of an ASCII literal. *)
Definition lit (s : string) : str :=
  (λ a, Z.of_N (Ascii.N_of_ascii a)) <$> String.list_ascii_of_string s.

Definition nl : str := [0x0A]%Z.

(** ** Specification of the splitter *)

(** *** Sizes *)

Definition fits (max_bytes : Z) (s : str) : Prop :=
  (Z.of_nat (byte_len s) ≤ max_bytes)%Z.

(** Every code point of [s] alone fits in [max_bytes] bytes. *)
Definition chars_fit (max_bytes : Z) (s : str) : Prop :=
  Forall (λ c, (Z.of_nat (char_width c) ≤ max_bytes)%Z) s.

(** Invariant of the loop of [split_line_hard]; [done] is the part of the
    line read so far. *)
Definition hard_inv (max_bytes : Z) (line : str)
    (done : str) (st : list str * str * nat) : Prop :=
  let '(chunks, cur, cur_b) := st in
  encodable done ∧ concat chunks ++ cur = done ∧ cur_b = byte_len cur
  ∧ (chars_fit max_bytes line →
     (cur ≠ [] → fits max_bytes cur) ∧ Forall (fits max_bytes) chunks
     ∧ Forall (λ c, c ≠ []) chunks).

(** *** Preferred boundaries *)

(** Byte offset at the end of the first [k] lines. *)
Definition line_end_offset (lines : list str) (k : nat) : nat :=
  byte_len (concat (take k lines)).

(** The most recent line before position [i] whose stripped content is
    not empty. *)
Definition prev_non_empty_before (lines : list str) (i : nat) : option str :=
  last (filter (λ ln, strip ln ≠ []) (take i lines)).

Section boundary.
Variable casefold : str → str.
Variable completion_token : str.

(** Rule A: a blank line whose most recent preceding non-empty line
    contains the completion token. *)
Definition rule_A (lines : list str) (i : nat) : Prop :=
  ∃ ln p, lines !! i = Some ln ∧ strip ln = []
          ∧ prev_non_empty_before lines i = Some p
          ∧ _is_completion_line casefold p completion_token = true.

(** Rule B: a line whose stripped content is exactly two dashes. *)
Definition rule_B (lines : list str) (i : nat) : Prop :=
  ∃ ln, lines !! i = Some ln ∧ strip ln = dashes.

Definition qualifies (lines : list str) (i : nat) : Prop :=
  rule_A lines i ∨ rule_B lines i.

Definition qualifiesb (lines : list str) (i : nat) : bool :=
  match lines !! i with
  | Some ln =>
      bool_decide (strip ln = dashes)
      || (bool_decide (strip ln = [])
          && match prev_non_empty_before lines i with
             | Some p => _is_completion_line casefold p completion_token
             | None => false
             end)
  | None => false
  end.

(** The offsets computed by the first loop. *)
Definition offsets_inv (done : list str) (offsets : list nat) : Prop :=
  encodable (concat done)
  ∧ length offsets = S (length done)
  ∧ ∀ k, k ≤ length done → offsets !! k = Some (line_end_offset done k).

(** The candidates collected by the second loop. *)
Definition scan_inv (lines : list str) (done : list (nat * str))
    (st : list nat * str) : Prop :=
  let k := length done in
  st.1 = (λ i, line_end_offset lines (S i)) <$> filter (qualifiesb lines) (seq 0 k)
  ∧ st.2 = default [] (prev_non_empty_before lines k).

End boundary.

(** *** Invariants of the loops *)

(** Invariant of the loop of [split_utf8_smart]. [W] stands for: every
    code point of the text fits in [max_bytes]; [acc] is the text read so
    far. *)
Definition split_inv (max_bytes : Z) (W : Prop) (acc : str) (st : split_state)
  : Prop :=
  encodable acc
  ∧ concat (chunks st) ++ concat (buf st) = acc
  ∧ buf_b st = byte_len (concat (buf st))
  ∧ Forall (λ ln, ln ≠ []) (buf st)
  ∧ (buf st ≠ [] → fits max_bytes (concat (buf st)))
  ∧ (W → Forall (fits max_bytes) (chunks st) ∧ Forall (λ c, c ≠ []) (chunks st)).

(** The completion token of [construct_and_send_notification]. *)
Definition token0 : str := lit "Antal intresserad".

(** ** Records and their identity *)

(** [Parking]: six text attributes. *)
Record Parking : Type := mkParking {
  access : str;
  address : str;
  area : str;
  interest : str;
  rent : str;
  kind : str;
}.

#[global] Instance Parking_eq_dec : EqDecision Parking.
Proof. solve_decision. Defined.

(** [p.model_dump()]: the attributes as a dict keyed by attribute name. *)
Definition model_dump (p : Parking) : gmap string str :=
  <["access" := access p]> (<["address" := address p]> (<["area" := area p]>
  (<["interest" := interest p]> (<["rent" := rent p]> (<["kind" := kind p]> ∅))))).

(** [sep.join(parts)] *)
Fixpoint join (sep : str) (parts : list str) : str :=
  match parts with
  | [] => []
  | [x] => x
  | x :: rest => x ++ sep ++ join sep rest
  end.

Definition pipe : str := [0x7C%Z].

(** The [name]s of the labels, in the order [parking_key_identifier]
    lists them. *)
Definition key_labels : list string :=
  ["area"; "address"; "kind"; "rent"; "access"; "interest"].

Definition parking_key_identifier (parking : gmap string str) : str :=
  join pipe ((λ name, default [] (parking !! name)) <$> key_labels).

(** [compare_parkings]; the two key sets are Python sets. *)
Definition compare_parkings (previous_parkings current_parkings : list Parking)
  : gmap string (list Parking) :=
  let previous_parking_keys : gset str :=
    list_to_set ((λ p, parking_key_identifier (model_dump p)) <$> previous_parkings) in
  let current_parking_keys : gset str :=
    list_to_set ((λ p, parking_key_identifier (model_dump p)) <$> current_parkings) in
  let added_parkings :=
    filter (λ p, parking_key_identifier (model_dump p) ∉ previous_parking_keys)
           current_parkings in
  let removed_parkings :=
    filter (λ p, parking_key_identifier (model_dump p) ∉ current_parking_keys)
           previous_parkings in
  <["added" := added_parkings]> (<["removed" := removed_parkings]> ∅).

(** The identity key as the design document words it: the six attributes
    area, address, kind, rent, access, interest joined with a pipe. *)
Definition identity_key (p : Parking) : str :=
  area p ++ pipe ++ address p ++ pipe ++ kind p ++ pipe ++ rent p ++ pipe
  ++ access p ++ pipe ++ interest p.

(** *** The entries of the result, and sample records *)

Definition added_by (previous current : list Parking) : list Parking :=
  default [] (compare_parkings previous current !! "added").

Definition removed_by (previous current : list Parking) : list Parking :=
  default [] (compare_parkings previous current !! "removed").

(** Two records that differ and still share their identity key: the pipe
    inside an attribute moves the limit between area and address. *)
Definition r_pipe_in_area : Parking :=
  {| access := lit "2024-01-01"; address := lit "C"; area := lit "A|B";
     interest := lit "2"; rent := lit "500"; kind := lit "Garage" |}.

Definition r_pipe_in_address : Parking :=
  {| access := lit "2024-01-01"; address := lit "B|C"; area := lit "A";
     interest := lit "2"; rent := lit "500"; kind := lit "Garage" |}.

(** ** [sorted] *)

(** Python compares strings code point by code point and tuples component
    by component: [lexico] on [str] and on tuples of [str]. *)
#[global] Instance lexico_dec `{Lexico K, !StrictOrder (@lexico K _),
    !TrichotomyT (@lexico K _)} (x y : K) : Decision (lexico x y).
Proof.
  destruct (trichotomyT lexico x y) as [[Hlt|Heq]|Hgt].
  - left. exact Hlt.
  - right. abstract (rewrite Heq; apply irreflexivity, _).
  - right. abstract (intros Hlt; apply (irreflexivity lexico x); by trans y).
Defined.

Section sorted.
Context {A K : Type} `{Lexico K, !StrictOrder (@lexico K _),
                       !TrichotomyT (@lexico K _)}.
Variable key : A → K.

(** [x] goes after the elements with a smaller key and before the
    others: elements with equal keys keep their order. *)
Fixpoint insert_sorted (x : A) (l : list A) : list A :=
  match l with
  | [] => [x]
  | y :: l' =>
    if decide (lexico (key y) (key x)) then y :: insert_sorted x l' else x :: l
  end.

(** [sorted(l, key=key)] *)
Definition sorted (l : list A) : list A := foldr insert_sorted [] l.

(** [a] is not after [b]. *)
Definition key_le (a b : A) : Prop :=
  lexico (key a) (key b) ∨ key a = key b.

End sorted.

(** ** The message composer *)

(** [d[k]] on a dict *)
Definition py_getitem {V} (d : gmap str V) (k : str) : result V :=
  match d !! k with
  | Some v => Ok v
  | None => Raise KeyError
  end.

Section composer.
(** [str.lower] applies the lower-casing table of the Unicode database.
    The glyph table [EMOJI_MAP] of [main.py] is left open: what follows
    holds for every table. *)
Variable lower : str → str.
Variable EMOJI_MAP : gmap str str.

Definition _get_kind_emoji (kind : str) : str :=
  default [] (EMOJI_MAP !! lower kind).

Definition _format_single_parking_item (parking : Parking)
    (is_last_in_area : bool) : list str :=
  let item_parts :=
    [ lit "  *Address:* _" ++ address parking ++ lit "_ ";
      lit "  *Typ:* _" ++ kind parking ++ lit "_ "
        ++ _get_kind_emoji (kind parking);
      lit "  *Hyra:* _" ++ rent parking ++ lit "_ ";
      lit "  *Tilltr" ++ [0xE4%Z] ++ lit "de:* _" ++ access parking ++ lit "_ ";
      lit "  *Antal intresserade:* _" ++ interest parking ++ lit "_ " ] in
  if negb is_last_in_area then item_parts ++ [lit "  -- "] else item_parts.

(** The key of the sort inside an area. *)
Definition sort_key (p : Parking) : str * str * str * str * str :=
  (lower (address p), lower (kind p), lower (rent p), lower (access p),
   lower (interest p)).

Definition area_header (area_name : str) : str :=
  nl ++ [star] ++ area_name ++ [star] ++ nl.

(** The lines of the records of one area, already sorted. *)
Definition format_items (sorted_parkings_in_area : list Parking) : list str :=
  mjoin (imap (λ i parking,
           let is_last :=
             bool_decide (Z.of_nat i
                          = (Z.of_nat (length sorted_parkings_in_area) - 1)%Z) in
           _format_single_parking_item parking is_last)
         sorted_parkings_in_area).

(** The body of the loop over the sorted area names. *)
Definition format_area_body (parking_group : gmap str (list Parking))
    (parts : list str) (area_name : str) : result (list str) :=
  let parts := parts ++ [area_header area_name] in
  parkings ← py_getitem parking_group area_name;
  let sorted_parkings_in_area := sorted sort_key parkings in
  let parts := parts ++ format_items sorted_parkings_in_area in
  Ok (parts ++ [[]]).

Definition format_parking_grp_msg (title : str)
    (parking_group : gmap str (list Parking)) : result (list str) :=
  if decide (parking_group = ∅) then Ok []
  else for_each (format_area_body parking_group)
         (sorted id (map_to_list parking_group).*1) [title].

(** What one area contributes to the message. *)
Definition render_section (s : str * list Parking) : list str :=
  area_header s.1 :: format_items s.2 ++ [[]].

(** The areas in the order of their headers, each with its records in
    the order of their blocks. *)
Definition sections_of (parking_group : gmap str (list Parking))
  : list (str * list Parking) :=
  (λ area_name, (area_name, sorted sort_key (parking_group !!! area_name)))
    <$> sorted id (map_to_list parking_group).*1.

End composer.

(** A lower-casing of the ASCII letters, to run the composer on examples. *)
Definition ascii_lower (s : str) : str :=
  (λ c, if ((0x41 <=? c) && (c <=? 0x5A))%Z then (c + 0x20)%Z else c) <$> s.

Definition r_area_a : Parking :=
  {| access := lit "2024-01-01"; address := lit "Gatan 1"; area := lit "a";
     interest := lit "2"; rent := lit "500"; kind := lit "Garage" |}.

Definition r_area_B : Parking :=
  {| access := lit "2024-02-01"; address := lit "Gatan 2"; area := lit "B";
     interest := lit "3"; rent := lit "600"; kind := lit "Carport" |}.

Definition group_a_B : gmap str (list Parking) :=
  <[lit "a" := [r_area_a]]> (<[lit "B" := [r_area_B]]> ∅).

(** ** The snapshot store *)

(** What the path of the state file holds. *)
Inductive file_state : Type :=
  | NoFile
  | NoAccess
  | File (content : bytes).

(** The disk, as far as the store sees it; [unlink_denied] tells whether
    removing the state file fails with an [OSError]. *)
Record disk : Type := Disk {
  state_file : file_state;
  unlink_denied : bool;
}.

(** Text mode reads a carriage return, alone or before a line feed, as a
    line feed. *)
Fixpoint universal_newlines (s : str) : str :=
  match s with
  | [] => []
  | c :: rest =>
    if (c =? 0x0D)%Z then
      match rest with
      | c' :: rest' =>
        if (c' =? 0x0A)%Z then 0x0A%Z :: universal_newlines rest'
        else 0x0A%Z :: universal_newlines rest
      | [] => [0x0A%Z]
      end
    else c :: universal_newlines rest
  end.

(** [STATE_FILE_PATH.read_text(encoding="utf-8")] *)
Definition read_text (d : disk) : result str :=
  match state_file d with
  | NoFile => Raise FileNotFoundError
  | NoAccess => Raise OSError
  | File content => text ← decode content; Ok (universal_newlines text)
  end.

(** [STATE_FILE_PATH.unlink(missing_ok=True)] *)
Definition unlink_missing_ok (d : disk) : result unit * disk :=
  match state_file d with
  | NoFile => (Ok (), d)
  | _ =>
    if unlink_denied d then (Raise OSError, d)
    else (Ok (), {| state_file := NoFile; unlink_denied := unlink_denied d |})
  end.

Section snapshot_store.
(** [TypeAdapter(list[Parking]).validate_json]: the JSON parser and the
    validation come from a library; a text that is not JSON or not a list
    of records makes it raise. *)
Variable validate_json : str → result (list Parking).

(** [parking_state_load]: the [try] block, then the [except] clauses in
    their order. [FileNotFoundError] is an [OSError], listed first;
    [UnicodeDecodeError] is a [ValueError], which no clause names. *)
Definition parking_state_load (d : disk) : result (list Parking) * disk :=
  match text ← read_text d; validate_json text with
  | Ok previous_parking_data => (Ok previous_parking_data, d)
  | Raise FileNotFoundError => (Ok [], d)
  | Raise JSONDecodeError | Raise ValidationError =>
      let '(_, d') := unlink_missing_ok d in (Ok [], d')
  | Raise OSError => (Ok [], d)
  | Raise e => (Raise e, d)
  end.

End snapshot_store.

(** ** Further notions for the diff engine *)

(** No attribute among the first five of the key holds a pipe. *)
Definition pipe_free (p : Parking) : Prop :=
  (0x7C%Z ∉ area p) ∧ (0x7C%Z ∉ address p) ∧ (0x7C%Z ∉ kind p)
  ∧ (0x7C%Z ∉ rent p) ∧ (0x7C%Z ∉ access p).

(** ** Further notions for the splitter *)

(** Pieces cut greedily: a piece followed by another one cannot take the
    first code point of its successor without exceeding [max_bytes]. *)
Definition greedy (max_bytes : Z) (pieces : list str) : Prop :=
  ∀ i a b, pieces !! i = Some a → pieces !! S i = Some b →
    ∃ c b', b = c :: b' ∧ (max_bytes < Z.of_nat (byte_len a + char_width c))%Z.

(** Invariant of the loop of [split_line_hard] for greediness. *)
Definition greedy_inv (max_bytes : Z) (done : str)
    (st : list str * str * nat) : Prop :=
  let '(chunks, cur, cur_b) := st in
  encodable done ∧ cur_b = byte_len cur ∧ greedy max_bytes (chunks ++ [cur])
  ∧ (cur = [] → chunks = []).

(** Invariant of the loop of [split_utf8_smart] on a text that fits in
    one chunk: nothing is emitted before the end. *)
Definition single_inv (done : list str) (st : split_state) : Prop :=
  chunks st = [] ∧ buf st = done ∧ buf_b st = byte_len (concat done).

(** A line of one-byte code points. *)
Definition one_byte (s : str) : Prop := Forall (λ c, (0 ≤ c < 0x80)%Z) s.

(** Pieces of exactly [m] code points, the last one of 1 to [m]. *)
Fixpoint full_pieces (m : Z) (pieces : list str) : Prop :=
  match pieces with
  | [] => True
  | a :: rest =>
    match rest with
    | [] => (1 ≤ Z.of_nat (length a) ≤ m)%Z
    | _ :: _ => Z.of_nat (length a) = m ∧ full_pieces m rest
    end
  end.

(** A line with its terminator: code points that are no line boundary,
    then a carriage return and a line feed, or one line boundary. *)
Definition complete (l : str) : Prop :=
  ∃ body term, l = body ++ term
    ∧ Forall (λ c, is_linebreak c = false) body
    ∧ (term = [0x0D; 0x0A]%Z ∨ ∃ c, term = [c] ∧ is_linebreak c = true).

(** [l] ends with a carriage return that the head of [s] would complete. *)
Definition glues (l s : str) : Prop :=
  last l = Some 0x0D%Z ∧ head s = Some 0x0A%Z.

(** Every line followed by another one is complete and does not glue to
    what follows. *)
Definition well_split (lines : list str) : Prop :=
  ∀ pre l post, lines = pre ++ l :: post → post ≠ [] →
    complete l ∧ ¬ glues l (concat post).

(** Invariant of the loop of [split_utf8_smart] on a text none of whose
    lines is hard-split: the chunks are groups of whole lines, the buffer
    holds the lines [seg] read since the last chunk. *)
Definition whole_lines_inv (done : list str) (st : split_state) : Prop :=
  ∃ groups seg,
    done = concat groups ++ seg
    ∧ chunks st = (λ g, concat g) <$> groups
    ∧ Forall (λ g, g ≠ []) groups
    ∧ concat (buf st) = concat seg
    ∧ buf_b st = byte_len (concat seg)
    ∧ (buf st = [] ↔ seg = []).

(** ** Grouping, composing and sending the notification *)

(** The loops of [construct_and_send_notification] that group the records
    by area: a new area gets an empty list, then the record is appended to
    the list of its area. *)
Definition group_step (by_area : gmap str (list Parking)) (parking : Parking)
  : gmap str (list Parking) :=
  let area_name := area parking in
  let by_area :=
    if decide (by_area !! area_name = None) then <[area_name := []]> by_area
    else by_area in
  <[area_name := (by_area !!! area_name) ++ [parking]]> by_area.

Definition group_by_area (parkings : list Parking) : gmap str (list Parking) :=
  foldl group_step ∅ parkings.

Definition title_added : str := lit "Nya parkeringsplatser hittade:".

Definition title_removed : str :=
  lit "Parkeringsplatser ej l" ++ [0xE4%Z] ++ lit "ngre tillg" ++ [0xE4%Z]
  ++ lit "ngliga:".

(** The byte budget of a message, fixed in [construct_and_send_notification]. *)
Definition max_bytes_twilio : Z := 1599.

Section notification.
Variable casefold : str → str.
Variable lower : str → str.
Variable EMOJI_MAP : gmap str str.
(** The settings read from the environment when the module is loaded. *)
Variable TWILIO_ACCOUNT_SID : str.
Variable TWILIO_AUTH_TOKEN : str.
Variable WHATSAPP_FROM : str.
Variable WHATSAPP_TO : str.

(** [notify_via_twilio], as the list of the bodies handed to
    [notify_whatsapp]; that function catches the errors of the service. *)
Definition notify_via_twilio (message : str) : list str :=
  if decide (WHATSAPP_FROM ≠ [] ∧ WHATSAPP_TO ≠ []) then [message] else [].

(** The parts of the message, both sections. *)
Definition message_parts (parking_differences : gmap string (list Parking))
  : result (list str) :=
  let added_parkings := default [] (parking_differences !! "added") in
  let removed_parkings := default [] (parking_differences !! "removed") in
  added ← format_parking_grp_msg lower EMOJI_MAP title_added
             (group_by_area added_parkings);
  removed ← format_parking_grp_msg lower EMOJI_MAP title_removed
               (group_by_area removed_parkings);
  Ok (added ++ removed).

(** The composed message: the non-empty parts joined with line feeds,
    stripped. *)
Definition compose_message (parts : list str) : str :=
  strip (join nl (filter (λ part, part ≠ []) parts)).

(** [construct_and_send_notification]; the result lists the bodies sent,
    in order. *)
Definition construct_and_send_notification
    (parking_differences : gmap string (list Parking)) : result (list str) :=
  let added_parkings := default [] (parking_differences !! "added") in
  let removed_parkings := default [] (parking_differences !! "removed") in
  parts ← message_parts parking_differences;
  if decide (group_by_area added_parkings = ∅
             ∧ group_by_area removed_parkings = ∅) then Ok []
  else
    let message := compose_message parts in
    if decide (TWILIO_ACCOUNT_SID ≠ [] ∧ TWILIO_AUTH_TOKEN ≠ []) then
      parts ← split_utf8_smart casefold message max_bytes_twilio token0;
      Ok (parts ≫= notify_via_twilio)
    else Ok [].

End notification.

(** [print_results]: the list after its in-place sort, and the rows handed
    to [tabulate]. *)
Section print_results.
Variable lower : str → str.

Definition table_key (p : Parking) : str * str * str * str * str * str :=
  (lower (area p), lower (address p), lower (kind p), lower (rent p),
   lower (interest p), lower (access p)).

Definition table_row (p : Parking) : list str :=
  [area p; address p; kind p; rent p; access p; interest p].

Definition print_results (parking_all : list Parking)
  : list Parking * list (list str) :=
  if decide (parking_all ≠ []) then
    let parking_all := sorted table_key parking_all in
    (parking_all, table_row <$> parking_all)
  else (parking_all, []).

End print_results.

(** ** Area codes and the search URL *)

(** [AREA_MAP]: area codes and their display names, in the order of the
    literal. *)
Definition AREA_MAP : list (str * str) :=
  [ (lit "ABYGOT", lit "Gottfridsberg / " ++ [0xC5%Z] ++ lit "bylund");
    (lit "INNER", lit "Innerstaden");
    (lit "JOHA", lit "Johannelund");
    (lit "LAMBO", lit "Lambohov / Vallastaden");
    (lit "MAJBER", lit "Berga / Majelden");
    (lit "RYD", lit "Ryd");
    (lit "SKATTE", lit "Skatteg" ++ [0xE5%Z] ++ lit "rden");
    (lit "55TRY", lit "Senior / Senior+");
    (lit "T1VAFR", lit "Ebbepark / T1 / Valla");
    (lit "VASA", lit "Vasastaden");
    (lit "VIDULL",
     lit "Vidingsj" ++ [0xF6%Z] ++ lit " / Ullst" ++ [0xE4%Z] ++ lit "mma");
    (lit "YTTER", lit "Ytteromr" ++ [0xE5%Z] ++ lit "de") ].

Definition BASE_URL : str :=
  lit "https://www.stangastaden.se/sokledigt/bilplats/".

Definition comma : Z := 0x2C.

Definition ampersand : Z := 0x26.

(** [s.split(sep)] for a one-character [sep], with [cur] the piece being
    collected: one piece more than there are separators. *)
Fixpoint split_from (sep : Z) (cur s : str) : list str :=
  match s with
  | [] => [cur]
  | c :: rest =>
    if (c =? sep)%Z then cur :: split_from sep [] rest
    else split_from sep (cur ++ [c]) rest
  end.

Definition split (sep : Z) (s : str) : list str := split_from sep [] s.

(** A call that returns, or ends the program through [sys.exit]. *)
Inductive outcome (A : Type) : Type :=
  | Returns (a : A)
  | SystemExit (exit_code : Z).
Arguments Returns {A} a.
Arguments SystemExit {A} exit_code.

(** [exit_with_status] *)
Definition exit_with_status {A} (exit_code : Z) : outcome A :=
  SystemExit exit_code.

(** [print_valid_codes]: the lines it prints, and the exit. *)
Definition print_valid_codes {A} (exit_code : Z) : list str * outcome A :=
  (lit "valid area codes:"
     :: ((λ '(area_short, area),
            lit " " ++ [0xBB%Z] ++ lit " " ++ area
              ++ lit " (" ++ area_short ++ lit ")") <$> AREA_MAP),
   exit_with_status exit_code).

(** The two loops of [validate_and_display_areas] over the arguments and
    their comma-separated parts. *)
Definition parse_code_part (parsed_codes : list str) (code_part : str)
    : list str :=
  let stripped_code := strip code_part in
  if decide (stripped_code ≠ []) then parsed_codes ++ [stripped_code]
  else parsed_codes.

Definition parse_codes (input_args : list str) : list str :=
  foldl (λ parsed_codes arg_string,
           foldl parse_code_part parsed_codes (split comma arg_string))
        [] input_args.

(** [validate_and_display_areas]: the lines printed and the outcome. *)
Definition validate_and_display_areas (input_args : list str)
    : list str * outcome (list str) :=
  let parsed_codes := parse_codes input_args in
  if decide (parsed_codes ≠ []) then
    let failed_codes :=
      filter (λ code, code ∉ AREA_MAP.*1) parsed_codes in
    if decide (failed_codes ≠ []) then
      let '(printed, out) := print_valid_codes 1 in
      ((lit "invalid area code '" ++ join (lit ", ") failed_codes ++ lit "'")
         :: printed, out)
    else ([], Returns parsed_codes)
  else ([], Returns parsed_codes).

(** [build_url] *)
Definition build_url (areas_parsed : list str) : str :=
  let params :=
    concat ((λ c, lit "&omraden%5B%5D=" ++ c) <$> areas_parsed) in
  BASE_URL ++ lit "?actionId=" ++ params.

(** [AREA_MAP[area]] *)
Definition AREA_MAP_getitem (area : str) : result str :=
  match list_find (λ kv : str * str, kv.1 = area) AREA_MAP with
  | Some (_, (_, name)) => Ok name
  | None => Raise KeyError
  end.

Definition area_line (name area : str) : str :=
  lit " " ++ [0xBB%Z] ++ lit " " ++ name ++ lit " (" ++ area ++ lit ")".

(** The lines [main] prints about the areas it will search. *)
Definition main_areas (areas_parsed : list str) : result (list str) :=
  lines ←
    (if decide (length areas_parsed = 0)
     then Ok ((λ '(area, name), area_line name area) <$> AREA_MAP)
     else mapM (λ area, name ← AREA_MAP_getitem area;
                        Ok (area_line name area)) areas_parsed);
  Ok (lit "Will search for parking spaces in the following areas:" :: lines).

(** ** Reading the listing *)

(** The values of [ParkingLabel]. *)
Definition label_access : str := lit "Tilltr" ++ [0xE4%Z] ++ lit "de:".

Definition label_address : str := lit "Adress:".

Definition label_area : str := lit "Omr" ++ [0xE5%Z] ++ lit "de:".

Definition label_interest : str := lit "Antal intresse:".

Definition label_rent : str := lit "Hyra:".

Definition label_kind : str := lit "Type:".

(** [ParkingLabel], in the order of the enumeration. *)
Definition ParkingLabel : list str :=
  [label_access; label_address; label_area; label_interest; label_rent;
   label_kind].

(** The class [[^\n\r]]. *)
Definition not_newline (c : Z) : bool :=
  negb ((c =? 0x0A) || (c =? 0x0D))%Z.

Fixpoint take_while (P : Z → bool) (s : str) : str :=
  match s with
  | c :: rest => if P c then c :: take_while P rest else []
  | [] => []
  end.

(** [([^\n\r]+)] at the start of [s], where the pattern ends: the longest
    run, of one character at least. *)
Definition match_group (s : str) : option str :=
  match take_while not_newline s with
  | [] => None
  | g => Some g
  end.

(** [\s*([^\n\r]+)] at the start of [s]: the star is greedy, it takes a
    white-space character when there is one and gives it back when the
    rest of the pattern then fails. *)
Fixpoint match_value (s : str) : option str :=
  match s with
  | c :: rest =>
    if is_space c then
      match match_value rest with
      | Some g => Some g
      | None => match_group s
      end
    else match_group s
  | [] => match_group s
  end.

(** [re.search(re.escape(label) + r"\s*([^\n\r]+)", s)]: the group of the
    match at the first position where the pattern matches. *)
Fixpoint re_search (label s : str) : option str :=
  match (if starts_with s label then match_value (drop (length label) s)
         else None) with
  | Some g => Some g
  | None =>
    match s with
    | [] => None
    | _ :: rest => re_search label rest
    end
  end.

(** [extract_field] *)
Definition extract_field (block_text label : str) : str :=
  match re_search label block_text with
  | Some g => strip g
  | None => []
  end.

(** What follows the first occurrence of [label] in [s]. *)
Fixpoint after_first (label s : str) : option str :=
  if starts_with s label then Some (drop (length label) s)
  else match s with
       | [] => None
       | _ :: rest => after_first label rest
       end.

(** [s.replace(old, new)] for a non-empty [old]: occurrences are replaced
    from the left and do not overlap; [skip] counts the characters of an
    occurrence still to pass. *)
Fixpoint replace_from (old new : str) (skip : nat) (s : str) : str :=
  match s with
  | [] => []
  | c :: rest =>
    match skip with
    | S k => replace_from old new k rest
    | 0 =>
      if starts_with s old
      then new ++ replace_from old new (length old - 1) rest
      else c :: replace_from old new 0 rest
    end
  end.

Definition replace (old new s : str) : str := replace_from old new 0 s.

(** [s.splitlines()], the lines without their ends. *)
Fixpoint splitlines_plain_from (cur : str) (s : str) : list str :=
  match s with
  | [] => if cur is [] then [] else [cur]
  | c :: rest =>
    if (c =? 0x0D)%Z then
      match rest with
      | c' :: rest' =>
        if (c' =? 0x0A)%Z then cur :: splitlines_plain_from [] rest'
        else cur :: splitlines_plain_from [] rest
      | [] => cur :: splitlines_plain_from [] rest
      end
    else if is_linebreak c then cur :: splitlines_plain_from [] rest
    else splitlines_plain_from (cur ++ [c]) rest
  end.

Definition splitlines_plain (s : str) : list str := splitlines_plain_from [] s.

(** The argument of [replace] in [extract_parking_spaces_from_div]: the
    literal escapes its backslash, so the text replaced is a backslash
    followed by u00a0, six characters. *)
Definition backslash_u00a0 : str := [0x5C%Z] ++ lit "u00a0".

(** The text block of a row: its lines stripped, the blank ones left out,
    joined by line feeds. *)
Definition normalized_block (txt : str) : str :=
  join nl (strip <$> filter (λ line, strip line ≠ []) (splitlines_plain txt)).

(** The six fields read from a block. *)
Definition extract_fields (block : str) : Parking :=
  {| access := extract_field block label_access;
     address := extract_field block label_address;
     area := extract_field block label_area;
     interest := extract_field block label_interest;
     rent := extract_field block label_rent;
     kind := extract_field block label_kind |}.

(** [parking.values()] *)
Definition values (p : Parking) : list str :=
  [access p; address p; area p; interest p; rent p; kind p].

Section scrape.
(** [Parking.model_validate] is the library's. *)
Variable model_validate : Parking → result Parking.

(** The body of the loop of [extract_parking_spaces_from_div]; a row is the
    text [row.inner_text()] returns, or [None] when that call raises
    [PlaywrightError]. The state is [(parking_all, parkings_found)]. *)
Definition row_body (st : list Parking * nat) (row : option str)
    : result (list Parking * nat) :=
  let '(parking_all, parkings_found) := st in
  match row with
  | None => Ok st
  | Some inner_text =>
    let txt := replace backslash_u00a0 (lit " ") inner_text in
    if decide (txt = []) then Ok st
    else
      let missing_labels :=
        filter (λ label, contains txt label = false) ParkingLabel in
      if decide (missing_labels ≠ []) then Ok st
      else
        let block := normalized_block txt in
        let parking := extract_fields block in
        if decide (Exists (λ v, v ≠ []) (values parking)) then
          match model_validate parking with
          | Ok parking_obj => Ok (parking_all ++ [parking_obj], S parkings_found)
          | Raise ValidationError => Ok st
          | Raise e => Raise e
          end
        else Ok st
  end.

(** [extract_parking_spaces_from_div]: the list it appends to, and the
    count it returns. *)
Definition extract_parking_spaces_from_div (rows : list (option str))
    (parking_all : list Parking) : result (list Parking * nat) :=
  for_each row_body rows (parking_all, 0).

End scrape.

(** * Its properties *)

(** ** The codec *)

Lemma encode_char_scalar c bc : encode_char c = Ok bc → scalar c.
Proof.
  unfold encode_char, scalar.
  repeat (case_match; try discriminate); intros _;
    repeat match goal with
           | H : (_ <? _)%Z = _ |- _ => apply Z.ltb_ge in H || apply Z.ltb_lt in H
           | H : (_ && _) = false |- _ => apply andb_false_iff in H
           | H : (_ <=? _)%Z = _ |- _ => apply Z.leb_gt in H || apply Z.leb_le in H
           end; lia.
Qed.

Lemma scalar_encode_char c :
  scalar c → ∃ bc, encode_char c = Ok bc ∧ length bc = char_width c.
Proof.
  unfold scalar, encode_char, char_width. intros Hc.
  repeat (case_match; eauto);
    repeat match goal with
           | H : (_ <? _)%Z = _ |- _ => apply Z.ltb_ge in H || apply Z.ltb_lt in H
           | H : (_ && _) = true |- _ => apply andb_true_iff in H as [? ?]
           | H : (_ <=? _)%Z = _ |- _ => apply Z.leb_gt in H || apply Z.leb_le in H
           end; lia.
Qed.

Lemma char_width_bounds c : 1 ≤ char_width c ≤ 4.
Proof. unfold char_width. repeat case_match; lia. Qed.

Ltac bool_to_Z :=
  repeat match goal with
         | H : (_ && _) = true |- _ => apply andb_true_iff in H as [? ?]
         | H : (_ && _) = false |- _ => apply andb_false_iff in H
         | H : negb _ = true |- _ => apply negb_true_iff in H
         | H : negb _ = false |- _ => apply negb_false_iff in H
         | H : (_ <? _)%Z = true |- _ => apply Z.ltb_lt in H
         | H : (_ <? _)%Z = false |- _ => apply Z.ltb_ge in H
         | H : (_ <=? _)%Z = true |- _ => apply Z.leb_le in H
         | H : (_ <=? _)%Z = false |- _ => apply Z.leb_gt in H
         | H : (_ =? _)%Z = true |- _ => apply Z.eqb_eq in H
         | H : (_ =? _)%Z = false |- _ => apply Z.eqb_neq in H
         | H : _ ∨ _ |- _ => destruct H
         end.

Lemma decode_encode_char c bc rest :
  encode_char c = Ok bc → decode (bc ++ rest) = (c ::.) <$> decode rest.
Proof.
  unfold encode_char.
  repeat (case_match; try discriminate); intros [= <-]; cbn [app decode];
    unfold is_cont; bool_to_Z.
  all: repeat (case_match; bool_to_Z; try (exfalso; Z.div_mod_to_equations; lia)).
  all: try reflexivity.
  all: try (f_equal; f_equal; Z.div_mod_to_equations; lia).
Qed.

Lemma byte_len_app s1 s2 : byte_len (s1 ++ s2) = byte_len s1 + byte_len s2.
Proof. apply sum_list_with_app. Qed.

Lemma byte_len_cons c s : byte_len (c :: s) = char_width c + byte_len s.
Proof. reflexivity. Qed.

Lemma byte_len_nil_inv s : byte_len s = 0 → s = [].
Proof.
  destruct s as [|c s]; [done|]. rewrite byte_len_cons.
  pose proof (char_width_bounds c). lia.
Qed.

Lemma byte_len_pos s : s ≠ [] → 0 < byte_len s.
Proof.
  intros Hs. destruct (decide (byte_len s = 0)) as [H0|]; [|lia].
  by apply byte_len_nil_inv in H0.
Qed.

Lemma encodable_app s1 s2 : encodable (s1 ++ s2) ↔ encodable s1 ∧ encodable s2.
Proof. apply Forall_app. Qed.

Lemma encodable_concat ls : encodable (concat ls) ↔ Forall encodable ls.
Proof.
  induction ls as [|l ls IH]; cbn.
  - split; constructor.
  - rewrite encodable_app, Forall_cons. tauto.
Qed.

Lemma encode_encodable s : encodable s → ∃ b, encode s = Ok b ∧ length b = byte_len s.
Proof.
  induction 1 as [|c s Hc _ (b & Hb & Hl)]; [by exists []|].
  destruct (scalar_encode_char c Hc) as (bc & Hbc & Hlc).
  exists (bc ++ b). split.
  - cbn. rewrite Hbc; cbn. by rewrite Hb.
  - rewrite length_app, byte_len_cons. lia.
Qed.

Lemma encode_Ok_encodable s b : encode s = Ok b → encodable s.
Proof.
  revert b. induction s as [|c s IH]; intros b; [constructor|].
  cbn. destruct (encode_char c) as [bc|] eqn:Hc; [|done]. cbn.
  destruct (encode s) as [bs|]; [|done]. intros _.
  constructor; [eauto using encode_char_scalar | by apply (IH bs)].
Qed.

Lemma encode_char_Raise c e : encode_char c = Raise e → e = UnicodeEncodeError.
Proof. unfold encode_char. repeat case_match; congruence. Qed.

Lemma encode_Raise s e : encode s = Raise e → e = UnicodeEncodeError ∧ ¬ encodable s.
Proof.
  intros He. split.
  - induction s as [|c s IH]; [done|]. cbn in He.
    destruct (encode_char c) eqn:Hc; cbn in He.
    + destruct (encode s); cbn in He; [done|]. injection He as ->. by apply IH.
    + injection He as ->. eauto using encode_char_Raise.
  - intros (b & Hb & _)%encode_encodable. congruence.
Qed.

Lemma encode_app s1 s2 b1 b2 :
  encode s1 = Ok b1 → encode s2 = Ok b2 → encode (s1 ++ s2) = Ok (b1 ++ b2).
Proof.
  revert b1. induction s1 as [|c s1 IH]; intros b1; cbn.
  - by intros [= <-].
  - destruct (encode_char c) as [bc|]; [|done]. cbn.
    destruct (encode s1) as [bs|]; [|done]. cbn. intros [= <-] H2.
    rewrite (IH bs eq_refl H2). cbn. by rewrite <-(assoc_L (++)).
Qed.

(** Strict decoding inverts encoding, also in front of further bytes. *)
Lemma decode_encode_app s b rest :
  encode s = Ok b → decode (b ++ rest) = (s ++.) <$> decode rest.
Proof.
  revert b. induction s as [|c s IH]; intros b; cbn.
  - intros [= <-]. cbn. by destruct (decode rest).
  - destruct (encode_char c) as [bc|] eqn:Hc; [|done]. cbn.
    destruct (encode s) as [bs|]; [|done]. cbn. intros [= <-].
    rewrite <-(assoc_L (++)), (decode_encode_char _ _ _ Hc), (IH bs eq_refl).
    by destruct (decode rest).
Qed.

Lemma decode_encode s b : encode s = Ok b → decode b = Ok s.
Proof.
  intros H. rewrite <-(app_nil_r b), (decode_encode_app _ _ _ H). cbn.
  by rewrite app_nil_r.
Qed.

Lemma utf8len_encodable s : encodable s → utf8len s = Ok (byte_len s).
Proof.
  intros (b & Hb & Hl)%encode_encodable. unfold utf8len. rewrite Hb. cbn.
  by rewrite Hl.
Qed.

Lemma utf8len_Ok s n : utf8len s = Ok n → encodable s ∧ n = byte_len s.
Proof.
  unfold utf8len. destruct (encode s) as [b|] eqn:Hb; [|done]. intros [= <-].
  pose proof (encode_Ok_encodable _ _ Hb) as Hs. split; [done|].
  destruct (encode_encodable _ Hs) as (b' & Hb' & Hl). congruence.
Qed.

Lemma utf8len_Raise s e : utf8len s = Raise e → e = UnicodeEncodeError ∧ ¬ encodable s.
Proof.
  unfold utf8len. destruct (encode s) eqn:Hb; [done|]. intros [= <-].
  eauto using encode_Raise.
Qed.

(** ** The [str] methods the splitter uses *)

Lemma splitlines_from_spec n : ∀ s cur, length s ≤ n →
  concat (splitlines_from cur s) = cur ++ s
  ∧ Forall (λ ln, ln ≠ []) (splitlines_from cur s).
Proof.
  induction n as [|n IH]; intros s cur Hn.
  { destruct s; [|cbn in Hn; lia]. cbn. destruct cur; cbn.
    - split; [done|constructor].
    - rewrite !app_nil_r. split; [done|]. by repeat constructor. }
  destruct s as [|c rest]; cbn [splitlines_from].
  { destruct cur; cbn.
    - split; [done|constructor].
    - rewrite !app_nil_r. split; [done|]. by repeat constructor. }
  cbn in Hn.
  assert (∀ l : str, l ++ [c] ≠ []) as Hne by (by intros []).
  destruct (c =? 0x0D)%Z.
  - destruct rest as [|c' rest'].
    + cbn. rewrite app_nil_r. split; [done|]. repeat constructor. apply Hne.
    + destruct (c' =? 0x0A)%Z.
      * destruct (IH rest' [] ltac:(cbn in Hn; lia)) as [Hc HF]. cbn [concat].
        rewrite Hc. split; [by rewrite <-(assoc_L (++))|].
        constructor; [by destruct cur|done].
      * destruct (IH (c' :: rest') [] ltac:(lia)) as [Hc HF]. cbn [concat].
        rewrite Hc. split; [by rewrite <-(assoc_L (++))|]. constructor; auto.
  - destruct (is_linebreak c).
    + destruct (IH rest [] ltac:(lia)) as [Hc HF]. cbn [concat].
      rewrite Hc. split; [by rewrite <-(assoc_L (++))|]. constructor; auto.
    + destruct (IH rest (cur ++ [c]) ltac:(lia)) as [Hc HF].
      rewrite Hc. split; [by rewrite <-(assoc_L (++))|done].
Qed.

(** The lines of a text, joined, are the text, and no line is empty. *)
Lemma concat_splitlines s : concat (splitlines s) = s.
Proof. apply (splitlines_from_spec (length s) s []). lia. Qed.

Lemma splitlines_nonempty s : Forall (λ ln, ln ≠ []) (splitlines s).
Proof. apply (splitlines_from_spec (length s) s []). lia. Qed.

(** ** Reasoning about loops *)

(** Invariant rule for [for_each]: [I done st] relates the state to the
    elements already visited, [E] holds of any exception that escapes. *)
Lemma for_each_inv {S A} (body : S → A → result S)
    (I : list A → S → Prop) (E : exn → Prop) (xs : list A) (st0 : S) :
  I [] st0 →
  (∀ done x rest st, xs = done ++ x :: rest → I done st →
     match body st x with
     | Ok st' => I (done ++ [x]) st'
     | Raise e => E e
     end) →
  match for_each body xs st0 with
  | Ok st => I xs st
  | Raise e => E e
  end.
Proof.
  intros H0 Hstep.
  cut (∀ rest done st, xs = done ++ rest → I done st →
         match for_each body rest st with
         | Ok st' => I xs st'
         | Raise e => E e
         end).
  { intros H. by apply (H xs [] st0). }
  induction rest as [|x rest IH]; intros done st Hxs HI; cbn.
  - by rewrite Hxs, app_nil_r.
  - specialize (Hstep done x rest st Hxs HI).
    destruct (body st x) as [st'|e]; cbn; [|done].
    apply (IH (done ++ [x])); [|done]. by rewrite <-(assoc_L (++)).
Qed.

(** ** [split_line_hard] *)

Lemma chars_fit_app m s1 s2 : chars_fit m (s1 ++ s2) ↔ chars_fit m s1 ∧ chars_fit m s2.
Proof. apply Forall_app. Qed.

Lemma chars_fit_concat m ls : chars_fit m (concat ls) ↔ Forall (chars_fit m) ls.
Proof.
  induction ls as [|l ls IH]; cbn.
  - split; constructor.
  - rewrite chars_fit_app, Forall_cons. tauto.
Qed.

Lemma fits_chars_fit m s : fits m s → chars_fit m s.
Proof.
  unfold fits, chars_fit. induction s as [|c s IH]; [constructor|].
  rewrite byte_len_cons. intros H. constructor; [lia|]. apply IH. lia.
Qed.

Lemma encodable_chars_fit m s : encodable s → (4 ≤ m)%Z → chars_fit m s.
Proof.
  intros Hs Hm. eapply Forall_impl; [exact Hs|]. intros c _. cbn.
  pose proof (char_width_bounds c). lia.
Qed.

Lemma split_line_hard_body_inv max_bytes line done ch rest st :
  line = done ++ ch :: rest → hard_inv max_bytes line done st →
  match split_line_hard_body max_bytes st ch with
  | Ok st' => hard_inv max_bytes line (done ++ [ch]) st'
  | Raise e => e = UnicodeEncodeError ∧ ¬ encodable line
  end.
Proof.
  destruct st as [[chunks cur] cur_b]. intros Hline (Henc & Hcat & Hb & Hfit).
  unfold split_line_hard_body.
  destruct (utf8len [ch]) as [cb|e] eqn:Hcb; cbn.
  - apply utf8len_Ok in Hcb as [Hch ->].
    assert (byte_len [ch] = char_width ch) as Hw by (cbn; lia).
    assert (encodable (done ++ [ch])) by (by apply encodable_app).
    destruct (Z.gtb_spec (Z.of_nat (cur_b + byte_len [ch])) max_bytes) as [Hgt|Hle].
    + split_and!; [done|by rewrite concat_app; cbn [concat]; rewrite app_nil_r, Hcat|done|].
      intros Hall. destruct (Hfit Hall) as (Hcur & Hchunks & Hne).
      assert (Z.of_nat (char_width ch) ≤ max_bytes)%Z as Hchw.
      { rewrite Hline in Hall. apply chars_fit_app in Hall as [_ Hall].
        by inversion Hall. }
      assert (cur ≠ []) as Hcne by (intros ->; cbn in Hb; lia).
      split_and!.
      * intros _. unfold fits. lia.
      * apply Forall_app. split; [done|]. constructor; [by apply Hcur|done].
      * apply Forall_app. split; [done|]. by constructor.
    + split_and!; [done|by rewrite (assoc_L (++)), Hcat|by rewrite byte_len_app, Hb|].
      intros Hall. destruct (Hfit Hall) as (Hcur & Hchunks & Hne).
      split_and!; [|done..]. intros _. unfold fits. rewrite byte_len_app. lia.
  - apply utf8len_Raise in Hcb as [-> Hch]. split; [done|].
    rewrite Hline. intros [_ H]%encodable_app. apply Hch.
    apply Forall_cons in H as [H _]. by constructor.
Qed.

Lemma split_line_hard_spec line max_bytes :
  match split_line_hard line max_bytes with
  | Ok hard =>
      encodable line ∧ concat hard = line
      ∧ (chars_fit max_bytes line →
         Forall (fits max_bytes) hard ∧ Forall (λ c, c ≠ []) hard)
  | Raise e => e = UnicodeEncodeError ∧ ¬ encodable line
  end.
Proof.
  unfold split_line_hard.
  pose proof (for_each_inv (split_line_hard_body max_bytes)
    (hard_inv max_bytes line)
    (λ e, e = UnicodeEncodeError ∧ ¬ encodable line) line ([], [], 0)) as Hloop.
  lapply Hloop; [clear Hloop; intros Hloop|].
  2:{ split_and!; [constructor|done|done|]. intros _.
      split_and!; [done|constructor..]. }
  specialize (Hloop (split_line_hard_body_inv max_bytes line)).
  destruct (for_each _ line _) as [[[chunks cur] cur_b]|e]; cbn; [|done].
  destruct Hloop as (Henc & Hcat & _ & Hfit). split_and!; [done| |].
  - destruct cur; [by rewrite app_nil_r in Hcat|].
    by rewrite concat_app; cbn; rewrite app_nil_r.
  - intros Hall. destruct (Hfit Hall) as (Hcur & Hchunks & Hne).
    destruct cur as [|c cur]; [done|].
    split; apply Forall_app; split; try done; constructor; try done.
    by apply Hcur.
Qed.

(** ** [last_preferred_boundary_bytes] *)

Lemma line_end_offset_snoc done ln k :
  k ≤ length done → line_end_offset (done ++ [ln]) k = line_end_offset done k.
Proof. intros Hk. unfold line_end_offset. by rewrite take_app_le. Qed.

Lemma line_end_offset_all lines : line_end_offset lines (length lines) = byte_len (concat lines).
Proof. unfold line_end_offset. by rewrite firstn_all. Qed.

Lemma prev_non_empty_before_Some lines i p :
  prev_non_empty_before lines i = Some p → strip p ≠ [] ∧ p ≠ [].
Proof.
  unfold prev_non_empty_before. intros H.
  apply last_Some_elem_of, list_elem_of_filter in H as [Hp _]. split; [done|].
  intros ->. by apply Hp.
Qed.

Lemma prev_non_empty_before_S lines i ln :
  lines !! i = Some ln →
  prev_non_empty_before lines (S i) =
    if decide (strip ln ≠ []) then Some ln else prev_non_empty_before lines i.
Proof.
  intros Hi. unfold prev_non_empty_before.
  rewrite (take_S_r _ _ _ Hi), filter_app, filter_cons, filter_nil.
  destruct (decide (strip ln ≠ [])); [by rewrite last_snoc|by rewrite app_nil_r].
Qed.

Lemma last_filter_seq (q : nat → Prop) `{!∀ i, Decision (q i)} n i :
  last (filter q (seq 0 n)) = Some i ↔ i < n ∧ q i ∧ ∀ j, i < j < n → ¬ q j.
Proof.
  induction n as [|n IH].
  - cbn. split; [done|lia].
  - rewrite seq_S, filter_app, filter_cons, filter_nil. cbn [Nat.add].
    destruct (decide (q n)) as [Hq|Hq].
    + rewrite last_snoc. split.
      * intros [= <-]. split_and!; [lia|done|intros; lia].
      * intros (Hi & Hqi & Hlast). f_equal.
        destruct (decide (i = n)) as [|Hne]; [done|].
        exfalso. apply (Hlast n); [lia|done].
    + rewrite app_nil_r, IH. split.
      * intros (Hi & Hqi & Hlast). split_and!; [lia|done|].
        intros j Hj. destruct (decide (j = n)) as [->|]; [done|].
        apply Hlast. lia.
      * intros (Hi & Hqi & Hlast). split_and!; [|done|intros; apply Hlast; lia].
        destruct (decide (i = n)) as [->|]; [done|lia].
Qed.

Lemma filter_seq_nil (q : nat → Prop) `{!∀ i, Decision (q i)} n :
  filter q (seq 0 n) = [] ↔ ∀ i, i < n → ¬ q i.
Proof.
  split.
  - intros Hnil i Hi Hq.
    assert (i ∈ filter q (seq 0 n)) as Hin.
    { apply list_elem_of_filter. split; [done|]. apply elem_of_seq. lia. }
    rewrite Hnil in Hin. by apply elem_of_nil in Hin.
  - intros Hall. destruct (filter q (seq 0 n)) as [|i l] eqn:Hf; [done|].
    assert (i ∈ filter q (seq 0 n)) as Hin by (rewrite Hf; left).
    apply list_elem_of_filter in Hin as [Hq Hi%elem_of_seq].
    exfalso. apply (Hall i); [lia|done].
Qed.

Lemma enumerate_split {A} (l : list A) done i x rest :
  enumerate l = done ++ (i, x) :: rest → i = length done ∧ l !! i = Some x.
Proof.
  intros Hl.
  assert (enumerate l !! length done = Some (i, x)) as Hlook.
  { rewrite Hl. by rewrite list_lookup_middle. }
  unfold enumerate in Hlook. rewrite list_lookup_imap in Hlook.
  destruct (l !! length done) as [y|] eqn:Hy; [|done].
  injection Hlook as <- ->. done.
Qed.

Section boundary_facts.
Variable casefold : str → str.
Variable completion_token : str.

Lemma qualifiesb_spec lines i : qualifiesb casefold completion_token lines i ↔ qualifies casefold completion_token lines i.
Proof.
  unfold qualifiesb, qualifies, rule_A, rule_B. split.
  - destruct (lines !! i) as [ln|]; [|done].
    intros [Hb%bool_decide_unpack|[Hs%bool_decide_unpack Hp]%andb_True]%orb_True.
    + right. eauto.
    + left. destruct (prev_non_empty_before lines i) as [p|]; [|done].
      exists ln, p. split_and!; try done. by apply Is_true_true.
  - intros [(ln & p & -> & Hs & -> & Hc)|(ln & -> & Hs)]; apply orb_True.
    + right. apply andb_True. split; [by apply bool_decide_pack|].
      by apply Is_true_true.
    + left. by apply bool_decide_pack.
Qed.

Lemma qualifies_lt lines i : qualifies casefold completion_token lines i → i < length lines.
Proof.
  intros [(ln & p & Hi & _)|(ln & Hi & _)]; by apply lookup_lt_Some in Hi.
Qed.

Lemma offsets_body_inv lines done ln rest offsets :
  lines = done ++ ln :: rest → offsets_inv done offsets →
  match offsets_body offsets ln with
  | Ok offsets' => offsets_inv (done ++ [ln]) offsets'
  | Raise e => e = UnicodeEncodeError ∧ ¬ encodable (concat lines)
  end.
Proof.
  intros Hlines (Henc & Hlen & Hoff). unfold offsets_body, py_last.
  assert (last offsets = Some (byte_len (concat done))) as ->.
  { rewrite last_lookup, Hlen. cbn. rewrite Hoff by lia.
    by rewrite line_end_offset_all. }
  cbn. destruct (utf8len ln) as [n|e] eqn:Hn; cbn.
  - apply utf8len_Ok in Hn as [Hln ->]. split_and!.
    + rewrite concat_app. apply encodable_app. split; [done|].
      cbn. by rewrite app_nil_r.
    + rewrite !length_app. cbn. lia.
    + intros k Hk. rewrite length_app in Hk. cbn in Hk.
      destruct (decide (k ≤ length done)) as [Hle|Hgt].
      * rewrite lookup_app_l by lia. rewrite Hoff by done.
        by rewrite line_end_offset_snoc.
      * assert (k = length (done ++ [ln])) as -> by (rewrite length_app; cbn; lia).
        rewrite line_end_offset_all, lookup_app_r by (rewrite length_app; cbn; lia).
        rewrite length_app, Hlen. cbn.
        replace (length done + 1 - S (length done)) with 0 by lia. cbn.
        rewrite concat_app, byte_len_app. cbn. by rewrite app_nil_r.
  - apply utf8len_Raise in Hn as [-> Hln]. split; [done|].
    rewrite Hlines, concat_app. intros [_ H]%encodable_app. cbn in H.
    by apply encodable_app in H as [H _].
Qed.

Lemma scan_body_inv lines offsets done iln rest st :
  (∀ k, k ≤ length lines → offsets !! k = Some (line_end_offset lines k)) →
  enumerate lines = done ++ iln :: rest → scan_inv casefold completion_token lines done st →
  match scan_body casefold offsets completion_token st iln with
  | Ok st' => scan_inv casefold completion_token lines (done ++ [iln]) st'
  | Raise e => False
  end.
Proof.
  destruct st as [candidates prev], iln as [i ln].
  intros Hoff [-> Hi]%enumerate_split [Hcand Hprev]. cbn in Hcand, Hprev.
  pose proof (lookup_lt_Some _ _ _ Hi) as Hlt.
  unfold scan_body, scan_inv, py_index.
  rewrite length_app. cbn [length]. rewrite !Nat.add_1_r.
  rewrite seq_S, filter_app, filter_cons, filter_nil.
  rewrite fmap_app, (prev_non_empty_before_S _ _ _ Hi), Hoff by lia.
  cbn [Nat.add fst snd].
  assert (qualifiesb casefold completion_token lines (length done)
          = bool_decide (strip ln = dashes)
            || (bool_decide (strip ln = [])
                && match prev_non_empty_before lines (length done) with
                   | Some p => _is_completion_line casefold p completion_token
                   | None => false
                   end)) as -> by (unfold qualifiesb; by rewrite Hi).
  subst candidates.
  destruct (decide (strip ln = dashes)) as [Hd|Hd].
  - rewrite (bool_decide_eq_true_2 _ Hd). cbn.
    assert (strip ln ≠ []) as Hne by (by rewrite Hd).
    rewrite (bool_decide_eq_true_2 _ Hne). cbn.
    repeat case_decide; naive_solver.
  - rewrite (bool_decide_eq_false_2 _ Hd). cbn.
    destruct (decide (strip ln ≠ [])) as [Hne|He].
    + rewrite (bool_decide_eq_true_2 _ Hne). cbn.
      rewrite (bool_decide_eq_false_2 (strip ln = [])) by done. cbn.
      rewrite app_nil_r. repeat case_decide; naive_solver.
    + rewrite (bool_decide_eq_false_2 (strip ln ≠ [])) by done.
      apply dec_stable in He. rewrite (bool_decide_eq_true_2 _ He). cbn.
      destruct (prev_non_empty_before lines (length done)) as [p|] eqn:Hp.
      * apply prev_non_empty_before_Some in Hp as [_ Hp]. cbn in Hprev.
        subst prev. rewrite (bool_decide_eq_true_2 _ Hp). cbn.
        destruct (_is_completion_line casefold p completion_token); cbn;
          rewrite ?app_nil_r; repeat case_decide; naive_solver.
      * cbn in Hprev. subst prev.
        rewrite (bool_decide_eq_false_2 (@nil Z ≠ [])) by (by intros H; apply H).
        cbn. rewrite app_nil_r. repeat case_decide; naive_solver.
Qed.

(** The result of [last_preferred_boundary_bytes]: the offset after the
    last qualifying line, if any. *)
Lemma last_preferred_boundary_bytes_spec cur_text :
  let lines := splitlines cur_text in
  match last_preferred_boundary_bytes casefold cur_text completion_token with
  | Ok r =>
      encodable cur_text
      ∧ r = (λ i, line_end_offset lines (S i))
            <$> last (filter (qualifiesb casefold completion_token lines) (seq 0 (length lines)))
  | Raise e => e = UnicodeEncodeError ∧ ¬ encodable cur_text
  end.
Proof.
  intros lines. unfold last_preferred_boundary_bytes.
  assert (concat lines = cur_text) as Hcat by apply concat_splitlines.
  change (splitlines cur_text) with lines. clearbody lines.
  pose proof (for_each_inv offsets_body offsets_inv
    (λ e, e = UnicodeEncodeError ∧ ¬ encodable (concat lines)) lines [0])
    as Hoffs.
  lapply Hoffs; [clear Hoffs; intros Hoffs|].
  2:{ split_and!; [constructor|done|]. intros k Hk. cbn in Hk.
      by replace k with 0 by lia. }
  specialize (Hoffs (offsets_body_inv lines)). rewrite Hcat in Hoffs.
  destruct (for_each offsets_body lines [0]) as [offsets|e]; cbn; [|done].
  destruct Hoffs as (Henc & Hlen & Hoff). rewrite Hcat in Henc.
  pose proof (for_each_inv (scan_body casefold offsets completion_token)
    (scan_inv casefold completion_token lines) (λ _, False) (enumerate lines) ([], [])) as Hscan.
  lapply Hscan; [clear Hscan; intros Hscan|by split].
  specialize (Hscan (λ done iln rest st,
    scan_body_inv lines offsets done iln rest st Hoff)).
  destruct (for_each _ (enumerate lines) _) as [[candidates prev]|e]; cbn;
    [|done].
  destruct Hscan as [Hcand _]. cbn in Hcand. split; [done|].
  unfold enumerate in Hcand. rewrite length_imap in Hcand.
  by rewrite Hcand, fmap_last.
Qed.

(** Where the cut lies: at the end of the last line that qualifies. *)
Lemma last_preferred_boundary_bytes_Some cur_text cut :
  let lines := splitlines cur_text in
  last_preferred_boundary_bytes casefold cur_text completion_token = Ok (Some cut) ↔
  encodable cur_text
  ∧ ∃ i, qualifies casefold completion_token lines i ∧ (∀ j, i < j → ¬ qualifies casefold completion_token lines j)
         ∧ cut = line_end_offset lines (S i).
Proof.
  intros lines. pose proof (last_preferred_boundary_bytes_spec cur_text) as Hs.
  cbn zeta in Hs. change (splitlines cur_text) with lines in Hs.
  clearbody lines.
  destruct (last_preferred_boundary_bytes _ _ _) as [r|e].
  - destruct Hs as [Henc ->]. split.
    + destruct (last _) as [i|] eqn:Hl; [|done]. intros [= <-].
      apply last_filter_seq in Hl as (Hi & Hq & Hlast). split; [done|].
      exists i. split_and!; [by apply qualifiesb_spec| |done].
      intros j Hj Hqj. pose proof (qualifies_lt _ _ Hqj).
      apply (Hlast j); [lia|by apply qualifiesb_spec].
    + intros (_ & i & Hq & Hlast & ->).
      assert (last (filter (qualifiesb casefold completion_token lines) (seq 0 (length lines))) = Some i)
        as ->; [|done].
      apply last_filter_seq. split_and!.
      * by apply qualifies_lt.
      * by apply qualifiesb_spec.
      * intros j Hj Hqj%qualifiesb_spec. by apply (Hlast j); [lia|].
  - destruct Hs as [-> Hne]. split; [done|]. by intros [? _].
Qed.

Lemma last_preferred_boundary_bytes_None cur_text :
  let lines := splitlines cur_text in
  last_preferred_boundary_bytes casefold cur_text completion_token = Ok None ↔
  encodable cur_text ∧ ∀ i, ¬ qualifies casefold completion_token lines i.
Proof.
  intros lines. pose proof (last_preferred_boundary_bytes_spec cur_text) as Hs.
  cbn zeta in Hs. change (splitlines cur_text) with lines in Hs.
  clearbody lines.
  destruct (last_preferred_boundary_bytes _ _ _) as [r|e].
  - destruct Hs as [Henc ->]. split.
    + destruct (last _) as [i|] eqn:Hl; [done|]. intros _.
      apply last_None in Hl.
      pose proof (proj1 (filter_seq_nil (λ i, qualifiesb casefold completion_token lines i) _) Hl) as Hn.
      split; [done|]. intros i Hq. pose proof (qualifies_lt _ _ Hq).
      apply (Hn i); [done|by apply qualifiesb_spec].
    + intros [_ Hnone].
      assert (last (filter (qualifiesb casefold completion_token lines) (seq 0 (length lines))) = None)
        as ->; [|done].
      apply last_None.
      apply (proj2 (filter_seq_nil (λ i, qualifiesb casefold completion_token lines i) _)).
      intros i _ Hq%qualifiesb_spec. by apply (Hnone i).
  - destruct Hs as [-> Hne]. split; [done|]. by intros [? _].
Qed.

End boundary_facts.

(** ** The loop of [split_utf8_smart] *)

Section splitter_invariant_facts.
Variable casefold : str → str.
Variable max_bytes : Z.
Variable completion_token : str.

Lemma concat_nonempty (ls : list str) :
  ls ≠ [] → Forall (λ ln, ln ≠ []) ls → concat ls ≠ [].
Proof.
  destruct ls as [|l ls]; [done|]. intros _ [Hl _]%Forall_cons. cbn.
  by destruct l.
Qed.

Lemma split_inv_buf_encodable W acc st : split_inv max_bytes W acc st → encodable (concat (buf st)).
Proof. intros (Henc & Hcat & _). rewrite <-Hcat in Henc. by apply encodable_app in Henc as [_ ?]. Qed.

Lemma flush_chunk_inv W acc st buf' chunks' :
  split_inv max_bytes W acc st → flush_chunk (buf st) (chunks st) = (buf', chunks') →
  buf' = [] ∧ split_inv max_bytes W acc {| chunks := chunks'; buf := buf'; buf_b := 0 |}.
Proof.
  intros (Henc & Hcat & Hb & Hne & Hfit & Hgood). unfold flush_chunk.
  destruct (buf st) as [|ln lns] eqn:Hbuf; intros [= <- <-].
  - split; [done|]. split_and!; try done.
  - split; [done|]. split_and!; cbn [chunks buf buf_b]; try done.
    + rewrite concat_app. cbn [concat]. by rewrite !app_nil_r.
    + intros HW. destruct (Hgood HW) as [Hf Hn].
      split; apply Forall_app; split; try done; constructor; try done.
      * by apply Hfit.
      * by apply (concat_nonempty (ln :: lns)).
Qed.

Lemma apply_cut_spec st k :
  let lines := splitlines (concat (buf st)) in
  encodable (concat (buf st)) →
  apply_cut st (line_end_offset lines k)
  = Ok {| chunks := chunks st ++ [concat (take k lines)];
          buf := if concat (drop k lines) is [] then []
                 else [concat (drop k lines)];
          buf_b := byte_len (concat (drop k lines)) |}.
Proof.
  intros lines Henc. unfold apply_cut.
  assert (concat (buf st) = concat (take k lines) ++ concat (drop k lines)) as Hsplit.
  { by rewrite <-concat_app, take_drop; unfold lines; rewrite concat_splitlines. }
  rewrite Hsplit in Henc |- *. apply encodable_app in Henc as [H1 H2].
  destruct (encode_encodable _ H1) as (b1 & Hb1 & Hl1).
  destruct (encode_encodable _ H2) as (b2 & Hb2 & Hl2).
  rewrite (encode_app _ _ _ _ Hb1 Hb2). cbn.
  rewrite take_app_length', drop_app_length' by done.
  rewrite (decode_encode _ _ Hb1), (decode_encode _ _ Hb2).
  pose proof (utf8len_encodable _ H2) as Hu.
  destruct (concat (drop k lines)) as [|c r]; [done|].
  cbn -[utf8len byte_len]. by rewrite Hu.
Qed.

Lemma apply_cut_inv W acc st i :
  let lines := splitlines (concat (buf st)) in
  split_inv max_bytes W acc st → buf st ≠ [] → i < length lines →
  ∃ st', apply_cut st (line_end_offset lines (S i)) = Ok st'
         ∧ split_inv max_bytes W acc st' ∧ buf_b st' ≤ buf_b st.
Proof.
  intros lines Hinv Hbne Hi.
  pose proof (split_inv_buf_encodable _ _ _ Hinv) as Hbenc.
  destruct Hinv as (Henc & Hcat & Hb & Hne & Hfit & Hgood).
  pose proof (apply_cut_spec st (S i) Hbenc) as Hcut. cbn zeta in Hcut.
  change (splitlines (concat (buf st))) with lines in Hcut.
  rewrite Hcut. clear Hcut. eexists. split; [done|].
  assert (concat (take (S i) lines) ≠ []) as Hhd.
  { pose proof (splitlines_nonempty (concat (buf st))) as Hlne.
    fold lines in Hlne. destruct lines as [|l ls]; [cbn in Hi; lia|].
    apply Forall_cons in Hlne as [Hl _]. cbn. by destruct l. }
  assert (concat (buf st) = concat (take (S i) lines) ++ concat (drop (S i) lines)) as Hsplit.
  { by rewrite <-concat_app, take_drop; unfold lines; rewrite concat_splitlines. }
  clearbody lines.
  generalize dependent (concat (take (S i) lines)).
  generalize dependent (concat (drop (S i) lines)). intros rem hd Hhd Hsplit.
  specialize (Hfit Hbne). unfold fits in Hfit.
  rewrite Hsplit in Hcat, Hb, Hfit. rewrite byte_len_app in Hb, Hfit.
  cbn [chunks buf buf_b].
  split; [|lia]. split_and!; cbn [chunks buf buf_b]; try done.
  - rewrite concat_app. cbn [concat]. rewrite app_nil_r, <-(assoc_L (++)).
    rewrite <-Hcat. f_equal. f_equal.
    destruct rem; cbn; [done|by rewrite app_nil_r].
  - destruct rem; cbn [concat]; [done|by rewrite app_nil_r].
  - destruct rem; by repeat constructor.
  - intros Hrne. unfold fits. destruct rem; [done|].
    cbn [concat]. rewrite app_nil_r. lia.
  - intros HW. destruct (Hgood HW) as [Hf Hn].
    split; apply Forall_app; split; try done; constructor; try done.
    unfold fits. lia.
Qed.

Lemma append_line_inv W acc st line :
  split_inv max_bytes W acc st → encodable line → line ≠ [] →
  (Z.of_nat (buf_b st + byte_len line) ≤ max_bytes)%Z →
  split_inv max_bytes W (acc ++ line)
    {| chunks := chunks st; buf := buf st ++ [line];
       buf_b := buf_b st + byte_len line |}.
Proof.
  intros (Henc & Hcat & Hb & Hne & Hfit & Hgood) Hline Hlne Hle.
  assert (concat (buf st ++ [line]) = concat (buf st) ++ line) as Hc.
  { rewrite concat_app. cbn [concat]. by rewrite app_nil_r. }
  split_and!; cbn [chunks buf buf_b]; try done.
  - by apply encodable_app.
  - by rewrite Hc, (assoc_L (++)), Hcat.
  - by rewrite Hc, byte_len_app, Hb.
  - apply Forall_app. split; [done|by constructor].
  - intros _. unfold fits. rewrite Hc, byte_len_app, <-Hb. lia.
Qed.

(** The overflow branch: after it, the line fits behind the buffer. *)
Lemma make_room_inv W acc st lb :
  split_inv max_bytes W acc st → (Z.of_nat lb ≤ max_bytes)%Z →
  ∃ st1,
    (if (Z.of_nat (buf_b st + lb) >? max_bytes)%Z then
       cut ← last_preferred_boundary_bytes casefold (concat (buf st)) completion_token;
       st ← (match cut with
             | Some cut => apply_cut st cut
             | None => Ok st
             end);
       if (Z.of_nat (buf_b st + lb) >? max_bytes)%Z then
         let '(buf', chunks') := flush_chunk (buf st) (chunks st) in
         Ok {| chunks := chunks'; buf := buf'; buf_b := 0 |}
       else Ok st
     else Ok st) = Ok st1
    ∧ split_inv max_bytes W acc st1 ∧ (Z.of_nat (buf_b st1 + lb) ≤ max_bytes)%Z.
Proof.
  intros Hinv Hlb.
  destruct (Z.gtb_spec (Z.of_nat (buf_b st + lb)) max_bytes) as [Hgt|Hle];
    [|by exists st].
  pose proof (split_inv_buf_encodable _ _ _ Hinv) as Hbenc.
  pose proof (last_preferred_boundary_bytes_spec casefold completion_token
                (concat (buf st))) as Hs. cbn zeta in Hs.
  destruct (last_preferred_boundary_bytes _ _ _) as [r|e]; [|by destruct Hs].
  destruct Hs as [_ ->]. cbn [mbind result_bind].
  assert (∃ st2,
            match (λ i, line_end_offset (splitlines (concat (buf st))) (S i))
                  <$> last (filter (qualifiesb casefold completion_token
                                      (splitlines (concat (buf st))))
                              (seq 0 (length (splitlines (concat (buf st))))))
            with
            | Some cut => apply_cut st cut
            | None => Ok st
            end = Ok st2
            ∧ split_inv max_bytes W acc st2 ∧ buf_b st2 ≤ buf_b st)
    as (st2 & -> & Hinv2 & Hle2).
  { destruct (last _) as [i|] eqn:Hl; cbn; [|by exists st].
    apply last_filter_seq in Hl as (Hi & _).
    apply (apply_cut_inv W acc st i); [done| |done].
    destruct Hinv as (_ & _ & Hb & _). intros Hnil.
    rewrite Hnil in Hb. cbn in Hb. lia. }
  cbn. destruct (Z.gtb_spec (Z.of_nat (buf_b st2 + lb)) max_bytes) as [Hgt2|Hle2'].
  - destruct (flush_chunk (buf st2) (chunks st2)) as [buf' chunks'] eqn:Hf.
    destruct (flush_chunk_inv _ _ _ _ _ Hinv2 Hf) as [-> Hinv3].
    eexists. split; [done|]. split; [done|]. cbn. lia.
  - exists st2. split; [done|]. split; [done|lia].
Qed.

Lemma split_body_inv text done line rest st :
  splitlines text = done ++ line :: rest →
  split_inv max_bytes (chars_fit max_bytes text) (concat done) st →
  match split_body casefold max_bytes completion_token st line with
  | Ok st' => split_inv max_bytes (chars_fit max_bytes text) (concat (done ++ [line])) st'
  | Raise e => e = UnicodeEncodeError ∧ ¬ encodable text
  end.
Proof.
  intros Hlines Hinv.
  assert (text = concat done ++ line ++ concat rest) as Htext.
  { by rewrite <-(concat_splitlines text), Hlines, concat_app. }
  assert (line ≠ []) as Hlne.
  { pose proof (splitlines_nonempty text) as H. rewrite Hlines in H.
    apply Forall_app in H as [_ H]. by apply Forall_cons in H as [H _]. }
  assert (concat (done ++ [line]) = concat done ++ line) as Hc.
  { rewrite concat_app. cbn [concat]. by rewrite app_nil_r. }
  rewrite Hc. unfold split_body.
  destruct (utf8len line) as [lb|e] eqn:Hlb; cbn.
  2:{ apply utf8len_Raise in Hlb as [-> Hl]. split; [done|].
      rewrite Htext. intros [_ [H _]%encodable_app]%encodable_app. done. }
  apply utf8len_Ok in Hlb as [Hlenc ->].
  destruct (Z.gtb_spec (Z.of_nat (byte_len line)) max_bytes) as [Hgt|Hle].
  - destruct (flush_chunk (buf st) (chunks st)) as [buf' chunks'] eqn:Hf.
    destruct (flush_chunk_inv _ _ _ _ _ Hinv Hf) as [-> Hinv1].
    pose proof (split_line_hard_spec line max_bytes) as Hhard.
    destruct (split_line_hard line max_bytes) as [hard|e]; cbn.
    2:{ by destruct Hhard as [-> []]. }
    destruct Hhard as (_ & Hhcat & Hhfit).
    destruct Hinv1 as (Henc & Hcat & _ & _ & _ & Hgood).
    cbn [chunks buf buf_b] in *.
    split_and!; cbn [chunks buf buf_b]; try done.
    + by apply encodable_app.
    + rewrite concat_app, Hhcat. cbn [concat] in *.
      rewrite app_nil_r in *. by rewrite Hcat.
    + intros HW. destruct (Hgood HW) as [Hf1 Hn1].
      destruct Hhfit as [Hf2 Hn2].
      { rewrite Htext in HW. by apply chars_fit_app in HW as [_ [? _]%chars_fit_app]. }
      split; by apply Forall_app.
  - destruct (make_room_inv _ _ _ _ Hinv Hle) as (st1 & Hst1 & Hinv1 & Hle1).
    rewrite Hst1. cbn. by apply append_line_inv.
Qed.

(** The result of [split_utf8_smart], for every text. *)
Lemma split_utf8_smart_spec text :
  match split_utf8_smart casefold text max_bytes completion_token with
  | Ok result =>
      encodable text ∧ concat result = text
      ∧ (chars_fit max_bytes text →
         Forall (fits max_bytes) result ∧ Forall (λ c, c ≠ []) result)
  | Raise e => e = UnicodeEncodeError ∧ ¬ encodable text
  end.
Proof.
  unfold split_utf8_smart.
  pose proof (for_each_inv (split_body casefold max_bytes completion_token)
    (λ done, split_inv max_bytes (chars_fit max_bytes text) (concat done))
    (λ e, e = UnicodeEncodeError ∧ ¬ encodable text) (splitlines text)
    {| chunks := []; buf := []; buf_b := 0 |}) as Hloop.
  lapply Hloop; [clear Hloop; intros Hloop|].
  2:{ split_and!; cbn; try done; constructor. }
  specialize (Hloop (split_body_inv text)).
  destruct (for_each _ (splitlines text) _) as [st|e]; cbn; [|done].
  rewrite concat_splitlines in Hloop.
  destruct (flush_chunk (buf st) (chunks st)) as [buf' chunks'] eqn:Hf.
  destruct (flush_chunk_inv _ _ _ _ _ Hloop Hf) as [-> (Henc & Hcat & _ & _ & _ & Hgood)].
  cbn in *. rewrite app_nil_r in Hcat. done.
Qed.

End splitter_invariant_facts.

(** ** Properties of the smart splitter *)

Lemma mapM_encode_concat (chunks : list str) :
  encodable (concat chunks) →
  ∃ b bs, encode (concat chunks) = Ok b ∧ mapM encode chunks = Ok bs
          ∧ concat bs = b.
Proof.
  induction chunks as [|c chunks IH]; cbn [concat].
  - intros _. by exists [], [].
  - intros [Hc Hrest]%encodable_app.
    destruct (IH Hrest) as (b & bs & Hb & Hbs & Hcat).
    destruct (encode_encodable _ Hc) as (bc & Hbc & _).
    exists (bc ++ b), (bc :: bs). split_and!.
    + by apply encode_app.
    + cbn. rewrite Hbc. cbn. by rewrite Hbs.
    + cbn. by rewrite Hcat.
Qed.

(** C1, as the specification words it, fails: with [max_bytes = 1] the
    text "é" (U+00E9, two bytes in UTF-8) comes back as an empty chunk
    followed by a two-byte chunk. *)
Lemma split_utf8_smart_exceeds_max_bytes :
  (1 ≤ 1)%Z
  ∧ split_utf8_smart ascii_casefold [0xE9%Z] 1 token0 = Ok [[]; [0xE9%Z]]
  ∧ utf8len [0xE9%Z] = Ok 2
  ∧ ¬ Forall (λ c, ∃ n, utf8len c = Ok n ∧ (Z.of_nat n ≤ 1)%Z) [[]; [0xE9%Z]].
Proof.
  split_and!; [lia|reflexivity|reflexivity|].
  intros H. apply Forall_cons in H as [_ H]. apply Forall_cons in H as [H _].
  destruct H as (n & Hn & Hle). vm_compute in Hn. injection Hn as <-. lia.
Qed.

(** C1 (amended): for every text each of whose code points encodes to at
    most [max_bytes] bytes (every text, once [max_bytes] is at least 4),
    [split_utf8_smart] returns, and each chunk it returns has UTF-8 byte
    length at most [max_bytes], hard-split pieces included. On a text that
    holds a lone surrogate the call raises [UnicodeEncodeError]. *)
Theorem split_utf8_smart_byte_bound casefold text max_bytes completion_token :
  chars_fit max_bytes text →
  match split_utf8_smart casefold text max_bytes completion_token with
  | Ok result =>
      Forall (λ c, ∃ n, utf8len c = Ok n ∧ (Z.of_nat n ≤ max_bytes)%Z) result
  | Raise e => e = UnicodeEncodeError ∧ ¬ encodable text
  end.
Proof.
  intros HW.
  pose proof (split_utf8_smart_spec casefold max_bytes completion_token text) as Hs.
  destruct (split_utf8_smart _ _ _ _) as [result|e]; [|done].
  destruct Hs as (Henc & Hcat & Hgood). destruct (Hgood HW) as [Hfit _].
  rewrite <-Hcat in Henc. apply encodable_concat in Henc.
  apply Forall_forall. intros c Hc.
  exists (byte_len c). split.
  - apply utf8len_encodable. by eapply Forall_forall in Henc.
  - by eapply Forall_forall in Hfit.
Qed.

Lemma split_utf8_smart_byte_bound_witness :
  chars_fit 4 (lit "ab" ++ [0xE9%Z] ++ nl ++ lit "cdefg")
  ∧ match split_utf8_smart ascii_casefold
            (lit "ab" ++ [0xE9%Z] ++ nl ++ lit "cdefg") 4 token0 with
    | Ok result =>
        Forall (λ c, ∃ n, utf8len c = Ok n ∧ (Z.of_nat n ≤ 4)%Z) result
    | Raise e =>
        e = UnicodeEncodeError
        ∧ ¬ encodable (lit "ab" ++ [0xE9%Z] ++ nl ++ lit "cdefg")
    end.
Proof.
  assert (chars_fit 4 (lit "ab" ++ [0xE9%Z] ++ nl ++ lit "cdefg")) as H.
  { repeat constructor; vm_compute; discriminate. }
  split; [exact H|].
  exact (split_utf8_smart_byte_bound ascii_casefold _ 4 token0 H).
Defined.

(** In particular the bound holds for every text once [max_bytes] is at
    least 4, the largest width of a code point. *)
Lemma split_utf8_smart_byte_bound_4 casefold text max_bytes completion_token :
  (4 ≤ max_bytes)%Z →
  match split_utf8_smart casefold text max_bytes completion_token with
  | Ok result => Forall (fits max_bytes) result
  | Raise e => e = UnicodeEncodeError ∧ ¬ encodable text
  end.
Proof.
  intros Hmax.
  pose proof (split_utf8_smart_spec casefold max_bytes completion_token text) as Hs.
  destruct (split_utf8_smart _ _ _ _) as [result|e]; [|done].
  destruct Hs as (Henc & _ & Hgood).
  by destruct (Hgood (encodable_chars_fit _ _ Henc Hmax)).
Qed.

(** The bound holds only under that condition on the code points. *)
Lemma split_utf8_smart_byte_bound_only_if casefold text max_bytes completion_token result :
  split_utf8_smart casefold text max_bytes completion_token = Ok result →
  Forall (λ c, ∃ n, utf8len c = Ok n ∧ (Z.of_nat n ≤ max_bytes)%Z) result →
  chars_fit max_bytes text.
Proof.
  intros Hr Hall.
  pose proof (split_utf8_smart_spec casefold max_bytes completion_token text) as Hs.
  rewrite Hr in Hs. destruct Hs as (_ & <- & _).
  apply chars_fit_concat. eapply Forall_impl; [exact Hall|].
  intros c (n & [_ ->]%utf8len_Ok & Hle). by apply fits_chars_fit.
Qed.

(** C2: for every text, every [max_bytes] (so every [max_bytes >= 1]) and
    every completion token, the chunks returned by [split_utf8_smart],
    concatenated in order, are the text; the call returns unless the text
    holds a lone surrogate, on which encoding raises. *)
Theorem split_utf8_smart_concat casefold text max_bytes completion_token :
  match split_utf8_smart casefold text max_bytes completion_token with
  | Ok result => concat result = text
  | Raise e => e = UnicodeEncodeError ∧ ¬ encodable text
  end.
Proof.
  pose proof (split_utf8_smart_spec casefold max_bytes completion_token text) as Hs.
  destruct (split_utf8_smart _ _ _ _) as [result|e]; [|done]. by destruct Hs as (_ & ? & _).
Qed.

(** C3: a cut returned by [last_preferred_boundary_bytes] is the byte
    offset at the end of some number of lines of the buffer, both strict
    decodes at it succeed and yield those lines and the remaining ones;
    [split_utf8_smart] never raises [UnicodeDecodeError], and the encoded
    chunks it returns, byte string after byte string, make up the encoded
    text: every boundary lies between two code points. *)
Theorem split_utf8_smart_cuts_between_code_points casefold text max_bytes completion_token :
  (∀ cur_text cut,
     last_preferred_boundary_bytes casefold cur_text completion_token = Ok (Some cut) →
     ∃ k b, k ≤ length (splitlines cur_text)
            ∧ cut = line_end_offset (splitlines cur_text) k
            ∧ encode cur_text = Ok b
            ∧ decode (take cut b) = Ok (concat (take k (splitlines cur_text)))
            ∧ decode (drop cut b) = Ok (concat (drop k (splitlines cur_text))))
  ∧ match split_utf8_smart casefold text max_bytes completion_token with
    | Ok result =>
        ∃ b bs, encode text = Ok b ∧ mapM encode result = Ok bs ∧ concat bs = b
                ∧ Forall2 (λ c bc, decode bc = Ok c) result bs
    | Raise e => e ≠ UnicodeDecodeError ∧ ¬ encodable text
    end.
Proof.
  split.
  - intros cur_text cut Hcut.
    apply last_preferred_boundary_bytes_Some in Hcut as (Henc & i & Hq & _ & ->).
    apply qualifies_lt in Hq.
    set (lines := splitlines cur_text) in *.
    assert (cur_text = concat (take (S i) lines) ++ concat (drop (S i) lines)) as Hsplit.
    { by rewrite <-concat_app, take_drop; unfold lines; rewrite concat_splitlines. }
    rewrite Hsplit in Henc. apply encodable_app in Henc as [H1 H2].
    destruct (encode_encodable _ H1) as (b1 & Hb1 & Hl1).
    destruct (encode_encodable _ H2) as (b2 & Hb2 & Hl2).
    exists (S i), (b1 ++ b2). split_and!; [lia|done| | |].
    + rewrite Hsplit at 1. by apply encode_app.
    + rewrite take_app_length' by done. by apply decode_encode.
    + rewrite drop_app_length' by done. by apply decode_encode.
  - pose proof (split_utf8_smart_spec casefold max_bytes completion_token text) as Hs.
    destruct (split_utf8_smart _ _ _ _) as [result|e].
    + destruct Hs as (Henc & Hcat & _). rewrite <-Hcat in Henc |- *.
      destruct (mapM_encode_concat _ Henc) as (b & bs & Hb & Hbs & Hbcat).
      exists b, bs. split_and!; try done.
      clear Hb Hbcat Hcat Henc. revert bs Hbs.
      induction result as [|c result IH]; intros bs; cbn.
      * intros [= <-]. constructor.
      * destruct (encode c) as [bc|] eqn:Hc; [|done]. cbn.
        destruct (mapM encode result) as [bs'|]; [|done]. cbn. intros [= <-].
        constructor; [by apply decode_encode|by apply IH].
    + destruct Hs as [-> Hne]. done.
Qed.

(** C4: [last_preferred_boundary_bytes] returns the byte offset after the
    last line of the buffer that qualifies under Rule A or Rule B, whichever
    rule that line qualifies under, and [None] exactly when no line
    qualifies; on a buffer that cannot be encoded it raises. *)
Theorem last_preferred_boundary_bytes_last_qualifying casefold cur_text completion_token :
  match last_preferred_boundary_bytes casefold cur_text completion_token with
  | Ok r =>
      (∀ cut, r = Some cut ↔
         ∃ i, qualifies casefold completion_token (splitlines cur_text) i
              ∧ (∀ j, i < j →
                   ¬ qualifies casefold completion_token (splitlines cur_text) j)
              ∧ cut = line_end_offset (splitlines cur_text) (S i))
      ∧ (r = None ↔
         ∀ i, ¬ qualifies casefold completion_token (splitlines cur_text) i)
  | Raise e => e = UnicodeEncodeError ∧ ¬ encodable cur_text
  end.
Proof.
  pose proof (last_preferred_boundary_bytes_Some casefold completion_token cur_text) as HS.
  pose proof (last_preferred_boundary_bytes_None casefold completion_token cur_text) as HN.
  pose proof (last_preferred_boundary_bytes_spec casefold completion_token cur_text) as Hs.
  cbn zeta in *.
  destruct (last_preferred_boundary_bytes _ _ _) as [r|e]; [|done].
  destruct Hs as [Henc _]. split.
  - intros cut. split.
    + intros ->. by apply (proj1 (HS cut)).
    + intros H. by injection (proj2 (HS cut) (conj Henc H)).
  - split.
    + intros ->. by apply (proj1 HN).
    + intros H. by injection (proj2 HN (conj Henc H)).
Qed.

(** C10: whenever [max_bytes >= 4], every chunk returned by
    [split_utf8_smart] is a non-empty string, and the list of chunks is
    empty if and only if the text is. *)
Theorem split_utf8_smart_chunks_nonempty casefold text max_bytes completion_token :
  (4 ≤ max_bytes)%Z →
  match split_utf8_smart casefold text max_bytes completion_token with
  | Ok result => Forall (λ c, c ≠ []) result ∧ (result = [] ↔ text = [])
  | Raise e => e = UnicodeEncodeError ∧ ¬ encodable text
  end.
Proof.
  intros Hmax.
  pose proof (split_utf8_smart_spec casefold max_bytes completion_token text) as Hs.
  destruct (split_utf8_smart _ _ _ _) as [result|e]; [|done].
  destruct Hs as (Henc & Hcat & Hgood).
  destruct (Hgood (encodable_chars_fit _ _ Henc Hmax)) as [_ Hne].
  split; [done|]. rewrite <-Hcat. split; [by intros ->|].
  destruct result as [|c result]; [done|]. apply Forall_cons in Hne as [Hc _].
  cbn. by destruct c.
Qed.

Lemma split_utf8_smart_chunks_nonempty_witness :
  (4 ≤ 4)%Z
  ∧ match split_utf8_smart ascii_casefold (lit "abcdefg") 4 token0 with
    | Ok result => Forall (λ c, c ≠ []) result ∧ (result = [] ↔ lit "abcdefg" = [])
    | Raise e => e = UnicodeEncodeError ∧ ¬ encodable (lit "abcdefg")
    end.
Proof.
  split; [lia|].
  apply (split_utf8_smart_chunks_nonempty ascii_casefold (lit "abcdefg") 4 token0).
  lia.
Defined.

(** ** Records and their identity *)

Lemma parking_key_identifier_model_dump p :
  parking_key_identifier (model_dump p) = identity_key p.
Proof. reflexivity. Qed.

(** ** Properties of the diff engine *)

Lemma added_by_filter previous current :
  added_by previous current
  = filter (λ p, identity_key p ∉ identity_key <$> previous) current.
Proof.
  unfold added_by, compare_parkings. cbn zeta. rewrite lookup_insert_eq. cbn.
  apply list_filter_iff. intros p.
  change (parking_key_identifier (model_dump p)) with (identity_key p).
  apply not_elem_of_list_to_set.
Qed.

Lemma removed_by_filter previous current :
  removed_by previous current
  = filter (λ p, identity_key p ∉ identity_key <$> current) previous.
Proof.
  unfold removed_by, compare_parkings. cbn zeta.
  rewrite lookup_insert_ne by done. rewrite lookup_insert_eq. cbn.
  apply list_filter_iff. intros p.
  change (parking_key_identifier (model_dump p)) with (identity_key p).
  apply not_elem_of_list_to_set.
Qed.

Lemma compare_parkings_dict previous current :
  compare_parkings previous current
  = <["added" := added_by previous current]>
      (<["removed" := removed_by previous current]> ∅).
Proof.
  unfold added_by, removed_by, compare_parkings. cbn zeta.
  rewrite lookup_insert_eq, lookup_insert_ne, lookup_insert_eq by done. done.
Qed.

Lemma filter_all {A} (P : A → Prop) `{!∀ x, Decision (P x)} (l : list A) :
  (∀ x, x ∈ l → P x) → filter P l = l.
Proof.
  induction l as [|x l IH]; [done|]. intros Hall.
  rewrite filter_cons, decide_True by (apply Hall; left).
  f_equal. apply IH. intros y Hy. apply Hall. by right.
Qed.

Lemma count_occ_filter (P : Parking → Prop) `{!∀ x, Decision (P x)} l p :
  count_occ Parking_eq_dec (filter P l) p
  = if decide (P p) then count_occ Parking_eq_dec l p else 0.
Proof.
  induction l as [|x l IH]; [by destruct (decide (P p))|].
  rewrite filter_cons. destruct (decide (P x)) as [Hx|Hx]; cbn;
    destruct (Parking_eq_dec x p) as [->|Hne]; rewrite IH;
    destruct (decide (P p)); try done.
Qed.

(** C5: [added] holds exactly the records of [current] whose identity key
    is not a key of [previous], [removed] exactly those of [previous] whose
    key is not a key of [current]; with an empty [previous], [removed] is
    empty and [added] is all of [current]. *)
Theorem compare_parkings_added_removed previous current :
  ∃ added removed,
    compare_parkings previous current
    = <["added" := added]> (<["removed" := removed]> ∅)
    ∧ (∀ p, p ∈ added ↔ p ∈ current ∧ identity_key p ∉ identity_key <$> previous)
    ∧ (∀ p, p ∈ removed ↔ p ∈ previous ∧ identity_key p ∉ identity_key <$> current)
    ∧ (previous = [] → added = current ∧ removed = []).
Proof.
  exists (added_by previous current), (removed_by previous current).
  split_and!.
  - apply compare_parkings_dict.
  - intros p. rewrite added_by_filter, list_elem_of_filter. tauto.
  - intros p. rewrite removed_by_filter, list_elem_of_filter. tauto.
  - intros ->. split.
    + rewrite added_by_filter. apply filter_all. intros p _. cbn. apply not_elem_of_nil.
    + by rewrite removed_by_filter.
Qed.

(** C8, as the specification words it, fails: both records of [current]
    share one identity key, neither is in [previous], and [added] holds
    both. *)
Lemma compare_parkings_no_dedup :
  r_pipe_in_area ≠ r_pipe_in_address
  ∧ identity_key r_pipe_in_area = identity_key r_pipe_in_address
  ∧ added_by [] [r_pipe_in_area; r_pipe_in_address]
    = [r_pipe_in_area; r_pipe_in_address]
  ∧ ¬ NoDup (identity_key <$> added_by [] [r_pipe_in_area; r_pipe_in_address]).
Proof.
  assert (added_by [] [r_pipe_in_area; r_pipe_in_address]
          = [r_pipe_in_area; r_pipe_in_address]) as Hadded.
  { rewrite added_by_filter. apply filter_all. intros p _. cbn. apply not_elem_of_nil. }
  split_and!; [done|reflexivity|exact Hadded|].
  rewrite Hadded. intros Hnd. apply NoDup_cons in Hnd as [Hnotin _].
  apply Hnotin. left.
Qed.

(** C8 (amended): [compare_parkings] removes no duplicate: for every
    identity key, [added] holds no record with that key when the key is a
    key of [previous], and otherwise as many records with that key as
    [current] does. *)
Theorem compare_parkings_added_per_key previous current (k : str) :
  length (filter (λ p, identity_key p = k) (added_by previous current))
  = if decide (k ∈ identity_key <$> previous) then 0
    else length (filter (λ p, identity_key p = k) current).
Proof.
  rewrite added_by_filter.
  induction current as [|p current IH]; [by destruct (decide _)|].
  rewrite !filter_cons.
  destruct (decide (identity_key p ∉ identity_key <$> previous)) as [Hp|Hp];
    [rewrite filter_cons|]; destruct (decide (identity_key p = k)) as [<-|Hk];
    cbn [length]; rewrite IH; destruct (decide (_ ∈ _)); done.
Qed.

(** C9: [added] is an order-preserving sublist of [current] and [removed]
    one of [previous]; a record whose key is not a key of the other
    snapshot occurs in the result as often as in its source. *)
Theorem compare_parkings_order_preserved previous current :
  added_by previous current `sublist_of` current
  ∧ removed_by previous current `sublist_of` previous
  ∧ (∀ p, count_occ Parking_eq_dec (added_by previous current) p
          = if decide (identity_key p ∉ identity_key <$> previous)
            then count_occ Parking_eq_dec current p else 0)
  ∧ (∀ p, count_occ Parking_eq_dec (removed_by previous current) p
          = if decide (identity_key p ∉ identity_key <$> current)
            then count_occ Parking_eq_dec previous p else 0).
Proof.
  rewrite added_by_filter, removed_by_filter.
  split_and!; try apply sublist_filter; intros p; apply count_occ_filter.
Qed.

(** ** [sorted] *)

Section sorted_facts.
Context {A K : Type} `{Lexico K, !StrictOrder (@lexico K _),
                       !TrichotomyT (@lexico K _)}.
Variable key : A → K.

Lemma key_le_not_gt a b : (key_le key) a b ↔ ¬ lexico (key b) (key a).
Proof.
  unfold key_le. split.
  - intros [Hlt|Heq] Hgt.
    + apply (irreflexivity lexico (key a)). by trans (key b).
    + rewrite Heq in Hgt. by apply (irreflexivity lexico (key b)).
  - intros Hn. destruct (trichotomyT lexico (key a) (key b)) as [[?|?]|?]; auto.
    done.
Qed.

Lemma key_le_trans a b c : (key_le key) a b → (key_le key) b c → (key_le key) a c.
Proof.
  unfold key_le. intros [Hab|Hab] [Hbc|Hbc].
  - left. by trans (key b).
  - left. by rewrite <-Hbc.
  - left. by rewrite Hab.
  - right. by rewrite Hab.
Qed.

Lemma insert_sorted_Permutation x l : insert_sorted key x l ≡ₚ x :: l.
Proof.
  induction l as [|y l IH]; cbn; [done|].
  destruct (decide _); [|done]. rewrite IH. apply perm_swap.
Qed.

Lemma sorted_Permutation l : sorted key l ≡ₚ l.
Proof.
  induction l as [|x l IH]; cbn; [done|].
  by rewrite insert_sorted_Permutation, IH.
Qed.

Lemma insert_sorted_StronglySorted x l :
  StronglySorted (key_le key) l → StronglySorted (key_le key) (insert_sorted key x l).
Proof.
  induction l as [|y l IH]; cbn; intros Hs.
  - repeat constructor.
  - apply StronglySorted_inv in Hs as [Hl Hy].
    destruct (decide (lexico (key y) (key x))) as [Hlt|Hge].
    + constructor; [by apply IH|].
      rewrite insert_sorted_Permutation. constructor; [by left|done].
    + apply key_le_not_gt in Hge. constructor; [by constructor|].
      constructor; [done|].
      eapply Forall_impl; [exact Hy|]. intros z Hz. by eapply key_le_trans.
Qed.

Lemma sorted_StronglySorted l : StronglySorted (key_le key) (sorted key l).
Proof.
  induction l as [|x l IH]; cbn; [constructor|].
  by apply insert_sorted_StronglySorted.
Qed.

(** With pairwise distinct keys the order is strict. *)
Lemma sorted_StronglySorted_strict l :
  NoDup (key <$> l) → StronglySorted (λ a b, lexico (key a) (key b)) (sorted key l).
Proof.
  intros Hnd.
  assert (NoDup (key <$> sorted key l)) as Hnd' by (by rewrite sorted_Permutation).
  pose proof (sorted_StronglySorted l) as Hs.
  induction Hs as [|a l' Hs IH Ha]; [constructor|].
  cbn in Hnd'. apply NoDup_cons in Hnd' as [Hnotin Hnd'].
  constructor; [by apply IH|].
  apply Forall_forall. intros b Hb.
  destruct (proj1 (Forall_forall _ _) Ha b Hb) as [Hlt|Heq]; [done|].
  exfalso. apply Hnotin. rewrite Heq. by apply list_elem_of_fmap_2.
Qed.

End sorted_facts.

(** ** The message composer *)

Section composer_facts.
Variable lower : str → str.
Variable EMOJI_MAP : gmap str str.

Lemma for_each_extend {A B} (body : list B → A → result (list B))
    (f : A → list B) (xs : list A) (parts : list B) :
  (∀ x parts, x ∈ xs → body parts x = Ok (parts ++ f x)) →
  for_each body xs parts = Ok (parts ++ mjoin (f <$> xs)).
Proof.
  revert parts. induction xs as [|x xs IH]; intros parts Hbody; cbn.
  - by rewrite app_nil_r.
  - rewrite Hbody by left. cbn. rewrite IH.
    + by rewrite <-(assoc_L (++)).
    + intros y parts' Hy. apply Hbody. by right.
Qed.

Lemma format_parking_grp_msg_sections title parking_group :
  parking_group ≠ ∅ →
  format_parking_grp_msg lower EMOJI_MAP title parking_group
  = Ok (title :: mjoin ((render_section lower EMOJI_MAP) <$> sections_of lower parking_group)).
Proof.
  intros Hne. unfold format_parking_grp_msg, sections_of.
  rewrite decide_False by done.
  rewrite (for_each_extend _
    (λ area_name, render_section lower EMOJI_MAP
       (area_name, sorted (sort_key lower) (parking_group !!! area_name)))).
  - by rewrite <-list_fmap_compose.
  - intros area_name parts Hin. unfold format_area_body, py_getitem.
    rewrite sorted_Permutation in Hin.
    apply list_elem_of_fmap in Hin as ([k v] & -> & Hkv).
    apply elem_of_map_to_list in Hkv. cbn.
    rewrite (lookup_total_correct _ _ _ Hkv), Hkv. cbn.
    unfold render_section. cbn. by rewrite <-!(assoc_L (++)).
Qed.

End composer_facts.

(** C6, as the specification words it, fails: the header of area "B" comes
    before the header of area "a", although "a" precedes "B" once case is
    ignored. *)
Lemma format_parking_grp_msg_areas_case_sensitive :
  format_parking_grp_msg ascii_lower ∅ (lit "T") group_a_B
  = Ok (lit "T" :: render_section ascii_lower ∅ (lit "B", [r_area_B])
                ++ render_section ascii_lower ∅ (lit "a", [r_area_a]))
  ∧ lexico (ascii_lower (lit "a")) (ascii_lower (lit "B")).
Proof. split; [by vm_compute|]. vm_compute. left. reflexivity. Qed.

(** C6 (amended): the area headers appear in ascending code-point order
    of the area names (upper case before lower case, no case folding), and
    within each area the records appear sorted by the tuple (address, kind,
    rent, access, interest) of lower-cased attributes, compared in that
    priority order. *)
Theorem format_parking_grp_msg_sorted (lower : str → str)
    (EMOJI_MAP : gmap str str) (title : str)
    (parking_group : gmap str (list Parking)) :
  parking_group ≠ ∅ →
  ∃ sections : list (str * list Parking),
    format_parking_grp_msg lower EMOJI_MAP title parking_group
    = Ok (title :: mjoin (render_section lower EMOJI_MAP <$> sections))
    ∧ sections.*1 ≡ₚ (map_to_list parking_group).*1
    ∧ StronglySorted lexico (sections.*1)
    ∧ Forall (λ s, ∃ parkings, parking_group !! s.1 = Some parkings
                               ∧ s.2 ≡ₚ parkings
                               ∧ StronglySorted (key_le (sort_key lower)) s.2)
             sections.
Proof.
  intros Hne. exists (sections_of lower parking_group).
  assert ((sections_of lower parking_group).*1
          = sorted id (map_to_list parking_group).*1) as Hfst.
  { unfold sections_of. rewrite <-list_fmap_compose. apply list_fmap_id. }
  split_and!.
  - by apply format_parking_grp_msg_sections.
  - rewrite Hfst. apply sorted_Permutation.
  - rewrite Hfst.
    apply (sorted_StronglySorted_strict (K:=str) id).
    rewrite list_fmap_id. apply NoDup_fst_map_to_list.
  - unfold sections_of. apply Forall_fmap, Forall_forall.
    intros area_name Hin. cbn.
    rewrite sorted_Permutation in Hin.
    apply list_elem_of_fmap in Hin as ([k v] & -> & Hkv).
    apply elem_of_map_to_list in Hkv. cbn.
    exists v. rewrite (lookup_total_correct _ _ _ Hkv).
    split_and!; [done|apply sorted_Permutation|apply sorted_StronglySorted].
Qed.

Lemma format_parking_grp_msg_sorted_witness :
  group_a_B ≠ ∅
  ∧ ∃ sections : list (str * list Parking),
      format_parking_grp_msg ascii_lower ∅ (lit "T") group_a_B
      = Ok (lit "T" :: mjoin (render_section ascii_lower ∅ <$> sections))
      ∧ sections.*1 ≡ₚ (map_to_list group_a_B).*1
      ∧ StronglySorted lexico (sections.*1)
      ∧ Forall (λ s, ∃ parkings, group_a_B !! s.1 = Some parkings
                                 ∧ s.2 ≡ₚ parkings
                                 ∧ StronglySorted (key_le (sort_key ascii_lower)) s.2)
               sections.
Proof.
  assert (group_a_B ≠ ∅) as H by apply insert_non_empty.
  split; [exact H|].
  exact (format_parking_grp_msg_sorted ascii_lower ∅ (lit "T") group_a_B H).
Defined.

(** ** The snapshot store *)

Section snapshot_store_facts.
Variable validate_json : str → result (list Parking).

(** C7, where it holds: an absent file, a file that cannot be read and a
    file whose text is rejected all give an empty snapshot; the rejected
    file is removed unless the removal is denied. *)
Lemma parking_state_load_recovers d :
  (state_file d = NoFile → parking_state_load validate_json d = (Ok [], d))
  ∧ (state_file d = NoAccess → parking_state_load validate_json d = (Ok [], d))
  ∧ (∀ text e, read_text d = Ok text → validate_json text = Raise e →
       e = JSONDecodeError ∨ e = ValidationError →
       ∃ d', parking_state_load validate_json d = (Ok [], d')
             ∧ (if unlink_denied d then d' = d else state_file d' = NoFile)).
Proof.
  unfold parking_state_load. split_and!.
  - intros H. unfold read_text. by rewrite H.
  - intros H. unfold read_text. by rewrite H.
  - intros text e Hr Hv He. rewrite Hr. cbn. rewrite Hv.
    assert (∃ c, state_file d = File c) as [c Hc].
    { unfold read_text in Hr. destruct (state_file d); try done. eauto. }
    unfold unlink_missing_ok. rewrite Hc.
    destruct He as [-> | ->]; destruct (unlink_denied d); eauto.
Qed.

(** C7 at a state file that holds the single byte 0xFF: reading raises
    [UnicodeDecodeError], the exception leaves [parking_state_load], and
    the file stays. *)
Lemma parking_state_load_invalid_utf8 :
  parking_state_load validate_json {| state_file := File [0xFF%Z]; unlink_denied := false |}
  = (Raise UnicodeDecodeError,
     {| state_file := File [0xFF%Z]; unlink_denied := false |}).
Proof. reflexivity. Qed.

End snapshot_store_facts.

(** ** Further properties of the diff engine *)

Lemma split_at_sep (sep : Z) (a a' r r' : str) :
  sep ∉ a → sep ∉ a' → a ++ sep :: r = a' ++ sep :: r' → a = a' ∧ r = r'.
Proof.
  revert a'. induction a as [|x a IH]; intros [|x' a'] Ha Ha' Heq; cbn in Heq.
  - by injection Heq.
  - injection Heq as <- _. exfalso. apply Ha'. left.
  - injection Heq as -> _. exfalso. apply Ha. left.
  - injection Heq as -> Heq.
    destruct (IH a') as [-> ->]; [|by intros ?; apply Ha'; right|done|done].
    intros ?. apply Ha. by right.
Qed.

(** X1: two records whose attributes area, address, kind, rent and access
    hold no pipe and whose identity keys are equal are the same record. *)
Theorem parking_key_identifier_inj (p q : Parking) :
  pipe_free p → pipe_free q →
  parking_key_identifier (model_dump p) = parking_key_identifier (model_dump q) →
  p = q.
Proof.
  intros (Hp1 & Hp2 & Hp3 & Hp4 & Hp5) (Hq1 & Hq2 & Hq3 & Hq4 & Hq5).
  rewrite !parking_key_identifier_model_dump. unfold identity_key, pipe. cbn [app].
  destruct p as [pa pb pc pd pe pf], q as [qa qb qc qd qe qf]. cbn in *.
  intros H.
  apply split_at_sep in H as [-> H]; [|done..].
  apply split_at_sep in H as [-> H]; [|done..].
  apply split_at_sep in H as [-> H]; [|done..].
  apply split_at_sep in H as [-> H]; [|done..].
  apply split_at_sep in H as [-> ->]; [|done..].
  done.
Qed.

Lemma parking_key_identifier_inj_witness :
  pipe_free r_area_a ∧ pipe_free r_area_a
  ∧ parking_key_identifier (model_dump r_area_a)
    = parking_key_identifier (model_dump r_area_a)
  ∧ r_area_a = r_area_a.
Proof.
  assert (pipe_free r_area_a) as H.
  { repeat split; apply (bool_decide_unpack _); by vm_compute. }
  split_and!; [exact H|exact H|reflexivity|].
  exact (parking_key_identifier_inj r_area_a r_area_a H H eq_refl).
Defined.

Lemma filter_none {A} (P : A → Prop) `{!∀ x, Decision (P x)} (l : list A) :
  (∀ x, x ∈ l → ¬ P x) → filter P l = [].
Proof.
  induction l as [|x l IH]; [done|]. intros Hall.
  rewrite filter_cons, decide_False by (apply Hall; left).
  apply IH. intros y Hy. apply Hall. by right.
Qed.

Lemma added_by_same (snapshot : list Parking) : added_by snapshot snapshot = [].
Proof.
  rewrite added_by_filter. apply filter_none.
  intros p Hp Hn. apply Hn. by apply list_elem_of_fmap_2.
Qed.

Lemma removed_by_same (snapshot : list Parking) : removed_by snapshot snapshot = [].
Proof.
  rewrite removed_by_filter. apply filter_none.
  intros p Hp Hn. apply Hn. by apply list_elem_of_fmap_2.
Qed.

(** X2: comparing a snapshot with itself gives an empty [added] and an
    empty [removed]. *)
Theorem compare_parkings_same (snapshot : list Parking) :
  compare_parkings snapshot snapshot
  = <["added" := []]> (<["removed" := []]> ∅).
Proof.
  by rewrite compare_parkings_dict, added_by_same, removed_by_same.
Qed.

(** X3: the diff accounts for every change of the key set: a key is a key
    of [current] exactly when it is a key of [added], or a key of
    [previous] that is not a key of [removed]. *)
Theorem compare_parkings_reconstructs previous current (k : str) :
  k ∈ identity_key <$> current ↔
  k ∈ identity_key <$> added_by previous current
  ∨ (k ∈ identity_key <$> previous
     ∧ k ∉ identity_key <$> removed_by previous current).
Proof.
  rewrite added_by_filter, removed_by_filter. split.
  - intros (p & -> & Hp)%list_elem_of_fmap.
    destruct (decide (identity_key p ∈ identity_key <$> previous)) as [Hin|Hnin].
    + right. split; [done|].
      intros (q & Hq & [Hqn _]%list_elem_of_filter)%list_elem_of_fmap.
      apply Hqn. rewrite <-Hq. by apply list_elem_of_fmap_2.
    + left. apply list_elem_of_fmap. exists p. split; [done|].
      by apply list_elem_of_filter.
  - intros [(p & -> & [_ Hp]%list_elem_of_filter)%list_elem_of_fmap|[Hin Hnr]].
    + by apply list_elem_of_fmap_2.
    + apply list_elem_of_fmap in Hin as (q & -> & Hq).
      destruct (decide (identity_key q ∈ identity_key <$> current)); [done|].
      exfalso. apply Hnr. apply list_elem_of_fmap_2.
      by apply list_elem_of_filter.
Qed.

(** X4: only the set of keys of the other snapshot matters: repeating or
    reordering the records of [previous] leaves [added] as it is. *)
Theorem compare_parkings_added_keyset previous previous' current :
  (∀ k, k ∈ identity_key <$> previous ↔ k ∈ identity_key <$> previous') →
  added_by previous current = added_by previous' current.
Proof.
  intros Hk. rewrite !added_by_filter. apply list_filter_iff.
  intros p. by rewrite Hk.
Qed.

Lemma compare_parkings_added_keyset_witness :
  (∀ k, k ∈ identity_key <$> [r_area_a; r_area_B; r_area_a]
        ↔ k ∈ identity_key <$> [r_area_B; r_area_a])
  ∧ added_by [r_area_a; r_area_B; r_area_a] [r_pipe_in_area; r_area_a]
    = added_by [r_area_B; r_area_a] [r_pipe_in_area; r_area_a].
Proof.
  assert (∀ k, k ∈ identity_key <$> [r_area_a; r_area_B; r_area_a]
               ↔ k ∈ identity_key <$> [r_area_B; r_area_a]) as H.
  { intros k. cbn [fmap list_fmap]. rewrite !elem_of_cons. tauto. }
  split; [exact H|].
  exact (compare_parkings_added_keyset _ _ [r_pipe_in_area; r_area_a] H).
Defined.

(** ** Further properties of the splitter *)

Section splitter_more.
Variable casefold : str → str.
Variable max_bytes : Z.
Variable completion_token : str.

Lemma single_body_inv text done line rest st :
  encodable text → (Z.of_nat (byte_len text) ≤ max_bytes)%Z →
  splitlines text = done ++ line :: rest → single_inv done st →
  match split_body casefold max_bytes completion_token st line with
  | Ok st' => single_inv (done ++ [line]) st'
  | Raise e => False
  end.
Proof.
  intros Henc Hfit Hlines (Hchunks & Hbuf & Hb).
  assert (text = concat done ++ line ++ concat rest) as Htext.
  { by rewrite <-(concat_splitlines text), Hlines, concat_app. }
  assert (concat (done ++ [line]) = concat done ++ line) as Hc.
  { rewrite concat_app. cbn [concat]. by rewrite app_nil_r. }
  rewrite Htext in Henc, Hfit.
  apply encodable_app in Henc as [_ [Hline _]%encodable_app].
  rewrite !byte_len_app in Hfit.
  unfold split_body. rewrite (utf8len_encodable _ Hline). cbn.
  destruct (Z.gtb_spec (Z.of_nat (byte_len line)) max_bytes) as [Hgt|_]; [lia|].
  destruct (Z.gtb_spec (Z.of_nat (buf_b st + byte_len line)) max_bytes)
    as [Hgt|_]; [lia|].
  cbn. split_and!; cbn [chunks buf buf_b]; [done|by rewrite Hbuf|].
  rewrite Hc, byte_len_app. lia.
Qed.

(** X5: an encodable, non-empty text of at most [max_bytes] bytes comes
    back as one chunk, the text itself. *)
Theorem split_utf8_smart_single_chunk text :
  encodable text → text ≠ [] → (Z.of_nat (byte_len text) ≤ max_bytes)%Z →
  split_utf8_smart casefold text max_bytes completion_token = Ok [text].
Proof.
  intros Henc Hne Hfit. unfold split_utf8_smart.
  pose proof (for_each_inv (split_body casefold max_bytes completion_token)
    single_inv (λ _, False) (splitlines text)
    {| chunks := []; buf := []; buf_b := 0 |}) as Hloop.
  lapply Hloop; [clear Hloop; intros Hloop|done].
  specialize (Hloop (λ done line rest st,
    single_body_inv text done line rest st Henc Hfit)).
  destruct (for_each _ (splitlines text) _) as [st|e]; [|done].
  destruct Hloop as (Hchunks & Hbuf & _). cbn.
  rewrite Hchunks, Hbuf. unfold flush_chunk.
  destruct (splitlines text) as [|l ls] eqn:Hl.
  - exfalso. apply Hne. by rewrite <-(concat_splitlines text), Hl.
  - cbn [snd app]. by rewrite <-Hl, concat_splitlines.
Qed.
End splitter_more.

Lemma split_utf8_smart_single_chunk_witness :
  encodable (lit "ab" ++ nl ++ lit "cd") ∧ lit "ab" ++ nl ++ lit "cd" ≠ []
  ∧ (Z.of_nat (byte_len (lit "ab" ++ nl ++ lit "cd")) ≤ 5)%Z
  ∧ split_utf8_smart ascii_casefold (lit "ab" ++ nl ++ lit "cd") 5 token0
    = Ok [lit "ab" ++ nl ++ lit "cd"].
Proof.
  assert (encodable (lit "ab" ++ nl ++ lit "cd")) as H1.
  { repeat constructor; vm_compute; intuition discriminate. }
  assert (lit "ab" ++ nl ++ lit "cd" ≠ []) as H2 by discriminate.
  assert (Z.of_nat (byte_len (lit "ab" ++ nl ++ lit "cd")) ≤ 5)%Z as H3
    by (vm_compute; discriminate).
  split_and!; [exact H1|exact H2|exact H3|].
  exact (split_utf8_smart_single_chunk ascii_casefold 5 token0 _ H1 H2 H3).
Defined.

(** [str] and its unfolding label the same lengths: make them one for [lia]. *)
Ltac len_lia := change (@length str) with (@length (list Z)) in *; lia.

Lemma greedy_snoc max_bytes l a c :
  greedy max_bytes l → last l = Some a →
  (max_bytes < Z.of_nat (byte_len a + char_width c))%Z →
  greedy max_bytes (l ++ [[c]]).
Proof.
  intros Hg Hlast Hlt i x y Hx Hy.
  destruct (decide (S i < length l)) as [Hi|Hi].
  - rewrite lookup_app_l in Hx, Hy by len_lia. by apply (Hg i).
  - assert (S i = length l) as HSi.
    { apply lookup_lt_Some in Hy. rewrite length_app in Hy. cbn in Hy. len_lia. }
    rewrite lookup_app_l in Hx by len_lia.
    rewrite HSi, list_lookup_middle in Hy by done. injection Hy as <-.
    rewrite last_lookup in Hlast. replace (pred (length l)) with i in Hlast by len_lia.
    rewrite Hx in Hlast. injection Hlast as ->. by exists c, [].
Qed.

Lemma greedy_extend_last max_bytes chunks cur ch :
  greedy max_bytes (chunks ++ [cur]) → (cur = [] → chunks = []) →
  greedy max_bytes (chunks ++ [cur ++ [ch]]).
Proof.
  intros Hg Hnil i x y Hx Hy.
  destruct (decide (S i < length chunks)) as [Hi|Hi].
  - rewrite lookup_app_l in Hx, Hy by len_lia.
    apply (Hg i x y); by rewrite lookup_app_l by len_lia.
  - assert (S i = length chunks) as HSi.
    { apply lookup_lt_Some in Hy. rewrite length_app in Hy. cbn in Hy. len_lia. }
    rewrite lookup_app_l in Hx by len_lia.
    rewrite HSi, list_lookup_middle in Hy by done. injection Hy as <-.
    destruct (Hg i x cur) as (c & b' & -> & Hlt).
    + by rewrite lookup_app_l by len_lia.
    + by rewrite HSi, list_lookup_middle.
    + by exists c, (b' ++ [ch]).
Qed.

Lemma split_line_hard_body_greedy max_bytes line done ch rest st :
  line = done ++ ch :: rest → greedy_inv max_bytes done st →
  match split_line_hard_body max_bytes st ch with
  | Ok st' => greedy_inv max_bytes (done ++ [ch]) st'
  | Raise e => e = UnicodeEncodeError ∧ ¬ encodable line
  end.
Proof.
  destruct st as [[chunks cur] cur_b]. intros Hline (Henc & Hb & Hg & Hnil).
  unfold split_line_hard_body.
  destruct (utf8len [ch]) as [cb|e] eqn:Hcb; cbn.
  - apply utf8len_Ok in Hcb as [Hch ->].
    assert (byte_len [ch] = char_width ch) as Hw by (cbn; lia).
    assert (encodable (done ++ [ch])) by (by apply encodable_app).
    destruct (Z.gtb_spec (Z.of_nat (cur_b + byte_len [ch])) max_bytes) as [Hgt|Hle].
    + split_and!; [done|done| |done].
      apply (greedy_snoc _ _ cur); [done|by rewrite last_snoc|lia].
    + split_and!; [done|by rewrite byte_len_app, Hb| |by destruct cur].
      by apply greedy_extend_last.
  - apply utf8len_Raise in Hcb as [-> Hch]. split; [done|].
    rewrite Hline. intros [_ H]%encodable_app. apply Hch.
    apply Forall_cons in H as [H _]. by constructor.
Qed.

Lemma split_line_hard_greedy_spec line max_bytes :
  match split_line_hard line max_bytes with
  | Ok pieces => greedy max_bytes pieces
  | Raise e => e = UnicodeEncodeError ∧ ¬ encodable line
  end.
Proof.
  unfold split_line_hard.
  pose proof (for_each_inv (split_line_hard_body max_bytes)
    (greedy_inv max_bytes)
    (λ e, e = UnicodeEncodeError ∧ ¬ encodable line) line ([], [], 0)) as Hloop.
  lapply Hloop; [clear Hloop; intros Hloop|].
  2:{ split_and!; [constructor|done| |done]. intros [|i] a b Ha Hb; done. }
  specialize (Hloop (split_line_hard_body_greedy max_bytes line)).
  destruct (for_each _ line _) as [[[chunks cur] cur_b]|e]; cbn; [|done].
  destruct Hloop as (_ & _ & Hg & Hnil).
  destruct cur; [|done]. rewrite Hnil by done. intros i a b Ha; done.
Qed.

(** X6: [split_line_hard] cuts greedily: a piece that is followed by
    another one would exceed [max_bytes] with the first code point of its
    successor. *)
Theorem split_line_hard_greedy line max_bytes :
  match split_line_hard line max_bytes with
  | Ok pieces =>
      ∀ i a b, pieces !! i = Some a → pieces !! S i = Some b →
        ∃ c b', b = c :: b'
                ∧ (max_bytes < Z.of_nat (byte_len a + char_width c))%Z
  | Raise e => e = UnicodeEncodeError ∧ ¬ encodable line
  end.
Proof. apply split_line_hard_greedy_spec. Qed.

Lemma one_byte_byte_len s : one_byte s → byte_len s = length s.
Proof.
  induction 1 as [|c s Hc _ IH]; [done|].
  rewrite byte_len_cons, IH. unfold char_width.
  destruct (Z.ltb_spec c 0x80); [done|lia].
Qed.

Lemma one_byte_encodable s : one_byte s → encodable s.
Proof.
  intros Hs. eapply Forall_impl; [exact Hs|]. intros c Hc. left. cbn in Hc. lia.
Qed.

Lemma one_byte_chars_fit m s : one_byte s → (1 ≤ m)%Z → chars_fit m s.
Proof.
  intros Hs Hm. eapply Forall_impl; [exact Hs|]. intros c Hc. cbn in *.
  unfold char_width. destruct (Z.ltb_spec c 0x80); cbn; lia.
Qed.

Lemma greedy_tail m a pieces : greedy m (a :: pieces) → greedy m pieces.
Proof. intros Hg i x y Hx Hy. by apply (Hg (S i)). Qed.

Lemma full_pieces_count m pieces :
  (1 ≤ m)%Z → full_pieces m pieces →
  ((Z.of_nat (length (concat pieces)) + m - 1) / m)%Z = Z.of_nat (length pieces).
Proof.
  intros Hm. induction pieces as [|a rest IH]; intros Hf.
  - cbn. apply Z.div_small. lia.
  - destruct rest as [|b rest].
    + cbn in *. rewrite app_nil_r. symmetry.
      apply (Z.div_unique _ _ _ (Z.of_nat (length a) - 1)); lia.
    + destruct Hf as [Ha Hf]. specialize (IH Hf).
      change (concat (a :: b :: rest)) with (a ++ concat (b :: rest)).
      rewrite length_app, Nat2Z.inj_add, Ha.
      replace (m + Z.of_nat (length (concat (b :: rest))) + m - 1)%Z
        with (Z.of_nat (length (concat (b :: rest))) + m - 1 + 1 * m)%Z by lia.
      rewrite Z.div_add by lia. rewrite IH. cbn [length]. lia.
Qed.

Lemma greedy_full_pieces m pieces :
  one_byte (concat pieces) → Forall (fits m) pieces →
  Forall (λ c, c ≠ []) pieces → greedy m pieces → full_pieces m pieces.
Proof.
  induction pieces as [|a rest IH]; [done|].
  cbn [concat]. intros [Ha Hrest]%Forall_app [Hfa Hfr]%Forall_cons
    [Hna Hnr]%Forall_cons Hg.
  unfold fits in Hfa. rewrite (one_byte_byte_len _ Ha) in Hfa.
  destruct rest as [|b rest'] eqn:Hr.
  - cbn. destruct a; [done|]. cbn in *. lia.
  - split; [|apply IH; eauto using greedy_tail].
    destruct (Hg 0 a b eq_refl eq_refl) as (c & b' & -> & Hlt).
    rewrite (one_byte_byte_len _ Ha) in Hlt.
    cbn in Hrest. apply Forall_cons in Hrest as [Hc _].
    unfold char_width in Hlt. cbn in Hc.
    destruct (Z.ltb_spec c 0x80); cbn in *; len_lia.
Qed.

(** X7: a line of [n] one-byte code points is cut into [ceil (n / max_bytes)]
    pieces, every piece but the last of exactly [max_bytes] code points,
    and the pieces joined are the line. *)
Theorem split_line_hard_one_byte line max_bytes :
  one_byte line → (1 ≤ max_bytes)%Z →
  ∃ pieces,
    split_line_hard line max_bytes = Ok pieces
    ∧ concat pieces = line
    ∧ Z.of_nat (length pieces)
      = ((Z.of_nat (length line) + max_bytes - 1) / max_bytes)%Z
    ∧ full_pieces max_bytes pieces.
Proof.
  intros Hline Hmax.
  pose proof (split_line_hard_spec line max_bytes) as Hs.
  pose proof (split_line_hard_greedy_spec line max_bytes) as Hg.
  destruct (split_line_hard line max_bytes) as [pieces|e].
  2:{ destruct Hs as [_ []]. by apply one_byte_encodable. }
  destruct Hs as (_ & Hcat & Hfit).
  destruct (Hfit (one_byte_chars_fit _ _ Hline Hmax)) as [Hf Hn].
  assert (full_pieces max_bytes pieces) as Hfull.
  { apply greedy_full_pieces; try done. by rewrite Hcat. }
  exists pieces. split_and!; try done.
  rewrite <-Hcat. symmetry. by apply full_pieces_count.
Qed.

Lemma split_line_hard_one_byte_witness :
  one_byte (lit "abcdefg") ∧ (1 ≤ 3)%Z
  ∧ ∃ pieces,
      split_line_hard (lit "abcdefg") 3 = Ok pieces
      ∧ concat pieces = lit "abcdefg"
      ∧ Z.of_nat (length pieces)
        = ((Z.of_nat (length (lit "abcdefg")) + 3 - 1) / 3)%Z
      ∧ full_pieces 3 pieces.
Proof.
  assert (one_byte (lit "abcdefg")) as H1.
  { repeat constructor; vm_compute; discriminate. }
  assert (1 ≤ 3)%Z as H2 by lia.
  split_and!; [exact H1|exact H2|].
  exact (split_line_hard_one_byte (lit "abcdefg") 3 H1 H2).
Defined.

Lemma line_end_offset_le lines k : line_end_offset lines k ≤ byte_len (concat lines).
Proof.
  unfold line_end_offset. rewrite <-(take_drop k lines) at 2.
  rewrite concat_app, byte_len_app. lia.
Qed.

Lemma line_end_offset_pos lines k :
  Forall (λ ln, ln ≠ []) lines → lines ≠ [] → 0 < line_end_offset lines (S k).
Proof.
  intros Hne Hl. destruct lines as [|ln lines]; [done|].
  apply Forall_cons in Hne as [Hln _]. unfold line_end_offset. cbn [take concat].
  rewrite byte_len_app. pose proof (byte_len_pos ln Hln). lia.
Qed.

(** X8: a cut returned by [last_preferred_boundary_bytes] is never 0 and
    never beyond the UTF-8 length of the buffer: the chunk before it is not
    empty and the slice at it stays inside the bytes. *)
Theorem last_preferred_boundary_bytes_bounds casefold cur_text completion_token cut :
  last_preferred_boundary_bytes casefold cur_text completion_token = Ok (Some cut) →
  0 < cut ≤ byte_len cur_text.
Proof.
  intros (Henc & i & Hq & _ & ->)%last_preferred_boundary_bytes_Some.
  apply qualifies_lt in Hq. split.
  - apply line_end_offset_pos; [apply splitlines_nonempty|].
    intros Hnil. rewrite Hnil in Hq. cbn in Hq. lia.
  - rewrite <-(concat_splitlines cur_text) at 2. apply line_end_offset_le.
Qed.

Lemma last_preferred_boundary_bytes_bounds_witness :
  last_preferred_boundary_bytes ascii_casefold
    (lit "ab" ++ nl ++ lit "--" ++ nl ++ lit "cd") token0 = Ok (Some 6)
  ∧ 0 < 6 ≤ byte_len (lit "ab" ++ nl ++ lit "--" ++ nl ++ lit "cd").
Proof.
  assert (last_preferred_boundary_bytes ascii_casefold
            (lit "ab" ++ nl ++ lit "--" ++ nl ++ lit "cd") token0 = Ok (Some 6))
    as H by reflexivity.
  split; [exact H|].
  exact (last_preferred_boundary_bytes_bounds ascii_casefold _ token0 6 H).
Defined.

(** *** Splitting the joined lines again *)

Lemma is_linebreak_cr : is_linebreak 0x0D = true.
Proof. reflexivity. Qed.

Lemma splitlines_from_body cur body s :
  Forall (λ c, is_linebreak c = false) body →
  splitlines_from cur (body ++ s) = splitlines_from (cur ++ body) s.
Proof.
  intros Hb. revert cur. induction Hb as [|c body Hc _ IH]; intros cur.
  - by rewrite app_nil_r.
  - cbn [app splitlines_from]. rewrite Hc.
    destruct (Z.eqb_spec c 0x0D) as [->|_]; [done|].
    by rewrite IH, <-(assoc_L (++)).
Qed.

Lemma splitlines_from_term cur term s :
  (term = [0x0D; 0x0A]%Z ∨ ∃ c, term = [c] ∧ is_linebreak c = true) →
  ¬ glues term s →
  splitlines_from cur (term ++ s) = (cur ++ term) :: splitlines s.
Proof.
  intros [->|(c & -> & Hc)] Hg; [done|].
  cbn [app splitlines_from]. rewrite Hc.
  destruct (Z.eqb_spec c 0x0D) as [->|_]; [|done].
  destruct s as [|c' s']; [done|].
  destruct (Z.eqb_spec c' 0x0A) as [->|_]; [|done].
  exfalso. by apply Hg.
Qed.

Lemma glues_app body term s :
  term ≠ [] → glues (body ++ term) s ↔ glues term s.
Proof.
  intros Ht. unfold glues.
  destruct term as [|c term] using rev_ind; [done|].
  by rewrite (assoc_L (++)), !last_snoc.
Qed.

(** A complete line in front of a text that it does not glue to is the
    first line of the whole. *)
Lemma splitlines_complete l s :
  complete l → ¬ glues l s → splitlines (l ++ s) = l :: splitlines s.
Proof.
  intros (body & term & -> & Hb & Ht) Hg. unfold splitlines at 1.
  rewrite <-(assoc_L (++)), (splitlines_from_body _ _ _ Hb).
  apply splitlines_from_term; [done|].
  intros H. apply Hg. apply glues_app; [|done].
  destruct Ht as [->|(c & -> & _)]; done.
Qed.

Lemma well_split_cons l lines :
  (lines ≠ [] → complete l ∧ ¬ glues l (concat lines)) →
  well_split lines → well_split (l :: lines).
Proof.
  intros Hl Hw [|x pre] l' post Heq Hpost.
  - injection Heq as <- <-. by apply Hl.
  - injection Heq as _ Heq. by apply (Hw pre).
Qed.

Lemma well_split_short (lines : list str) : length lines ≤ 1 → well_split lines.
Proof.
  intros Hlen pre l post -> Hpost. rewrite length_app in Hlen. cbn in Hlen.
  destruct post; [done|cbn in Hlen; lia].
Qed.

Lemma splitlines_from_well_split n : ∀ s cur, length s ≤ n →
  Forall (λ c, is_linebreak c = false) cur →
  well_split (splitlines_from cur s).
Proof.
  induction n as [|n IH]; intros s cur Hn Hcur.
  { destruct s; [|cbn in Hn; lia]. cbn.
    apply well_split_short. destruct cur; cbn; lia. }
  destruct s as [|c rest]; cbn [splitlines_from].
  { apply well_split_short. destruct cur; cbn; lia. }
  cbn in Hn.
  assert (∀ t, (t = [0x0D; 0x0A]%Z ∨ ∃ c, t = [c] ∧ is_linebreak c = true) →
               complete (cur ++ t)) as Hcomplete.
  { intros t Ht. by exists cur, t. }
  destruct (Z.eqb_spec c 0x0D) as [->|Hcr].
  - destruct rest as [|c' rest'].
    + apply well_split_short. cbn. lia.
    + destruct (Z.eqb_spec c' 0x0A) as [->|Hlf].
      * apply well_split_cons; [|apply (IH rest' []); [cbn in Hn; lia|constructor]].
        intros _. split; [apply Hcomplete; by left|].
        intros [Hlast _]. by rewrite last_app_cons in Hlast.
      * apply well_split_cons; [|apply (IH (c' :: rest') []); [lia|constructor]].
        intros _. split; [apply Hcomplete; right; by exists 0x0D%Z|].
        intros [_ Hhead].
        pose proof (splitlines_from_spec (length (c' :: rest')) (c' :: rest') []
                      ltac:(lia)) as [Hcat _].
        rewrite Hcat in Hhead. cbn in Hhead. by injection Hhead.
  - destruct (is_linebreak c) eqn:Hc.
    + apply well_split_cons; [|apply (IH rest []); [lia|constructor]].
      intros _. split; [apply Hcomplete; right; by exists c|].
      intros [Hlast _]. rewrite last_snoc in Hlast. by injection Hlast.
    + apply (IH rest (cur ++ [c])); [lia|]. apply Forall_app. split; [done|].
      by constructor.
Qed.

Lemma splitlines_well_split s : well_split (splitlines s).
Proof. apply (splitlines_from_well_split (length s) s []); [lia|constructor]. Qed.

(** Lines of a text that are followed by another line, joined and split
    again, are those lines. *)
Lemma splitlines_concat_segment lines pre seg post :
  well_split lines → lines = pre ++ seg ++ post → post ≠ [] →
  splitlines (concat seg) = seg.
Proof.
  intros Hw. revert pre. induction seg as [|l seg IH]; intros pre Hlines Hpost.
  - done.
  - cbn [concat].
    destruct (Hw pre l (seg ++ post)) as [Hc Hg]; [done|by destruct seg|].
    rewrite splitlines_complete; [| done |].
    + f_equal. apply (IH (pre ++ [l])); [|done].
      by rewrite <-(assoc_L (++)).
    + intros [Hlast Hhead]. apply Hg. split; [done|].
      rewrite concat_app. by destruct (concat seg).
Qed.

(** *** Chunks made of whole lines *)

Lemma concat_nil_nonempty (ls : list str) :
  Forall (λ l, l ≠ []) ls → concat ls = [] → ls = [].
Proof.
  destruct ls as [|l ls]; [done|]. intros [Hl _]%Forall_cons. cbn.
  by destruct l.
Qed.

Lemma whole_lines_flush done st buf' chunks' :
  whole_lines_inv done st → flush_chunk (buf st) (chunks st) = (buf', chunks') →
  whole_lines_inv done {| chunks := chunks'; buf := buf'; buf_b := 0 |}.
Proof.
  intros (groups & seg & Hdone & Hchunks & Hg & Hbuf & Hb & Hnil).
  unfold flush_chunk. destruct (buf st) as [|ln lns] eqn:Hst; intros [= <- <-].
  - exists groups, seg. cbn [chunks buf buf_b].
    rewrite (proj1 Hnil eq_refl) in *. by split_and!.
  - exists (groups ++ [seg]), []. cbn [chunks buf buf_b]. split_and!; try done.
    + rewrite concat_app. cbn [concat]. by rewrite !app_nil_r.
    + change (ln ++ concat lns) with (concat (ln :: lns)).
      by rewrite fmap_app, Hchunks, Hbuf.
    + apply Forall_app. split; [done|]. constructor; [|done].
      intros Hs. by apply Hnil in Hs.
Qed.

Lemma whole_lines_cut done st i seg groups :
  Forall (λ l, l ≠ []) seg → i < length seg →
  done = concat groups ++ seg → chunks st = (λ g, concat g) <$> groups →
  Forall (λ g, g ≠ []) groups →
  whole_lines_inv done
    {| chunks := chunks st ++ [concat (take (S i) seg)];
       buf := if concat (drop (S i) seg) is [] then []
              else [concat (drop (S i) seg)];
       buf_b := byte_len (concat (drop (S i) seg)) |}.
Proof.
  intros Hne Hi Hdone Hchunks Hg.
  exists (groups ++ [take (S i) seg]), (drop (S i) seg).
  cbn [chunks buf buf_b]. split_and!.
  - rewrite concat_app. cbn [concat].
    by rewrite app_nil_r, <-(assoc_L (++)), take_drop.
  - by rewrite fmap_app, Hchunks.
  - apply Forall_app. split; [done|]. constructor; [|done].
    destruct seg; [cbn in Hi; lia|done].
  - destruct (concat (drop (S i) seg)); cbn; [done|by rewrite app_nil_r].
  - done.
  - destruct (concat (drop (S i) seg)) eqn:Hd.
    + split; [|done]. intros _.
      apply concat_nil_nonempty; [by apply Forall_drop|done].
    + split; [done|]. intros Hnil. by rewrite Hnil in Hd.
Qed.

Lemma whole_lines_append done st line :
  whole_lines_inv done st →
  whole_lines_inv (done ++ [line])
    {| chunks := chunks st; buf := buf st ++ [line];
       buf_b := buf_b st + byte_len line |}.
Proof.
  intros (groups & seg & Hdone & Hchunks & Hg & Hbuf & Hb & Hnil).
  exists groups, (seg ++ [line]). cbn [chunks buf buf_b]. split_and!; try done.
  - by rewrite Hdone, <-(assoc_L (++)).
  - rewrite !concat_app. cbn [concat]. by rewrite Hbuf.
  - rewrite concat_app, byte_len_app, Hb. cbn [concat]. by rewrite app_nil_r.
  - split; intros H; by destruct (buf st), seg.
Qed.

Section whole_lines.
Variable casefold : str → str.
Variable max_bytes : Z.
Variable completion_token : str.

Lemma whole_lines_body text done line rest st :
  encodable text → Forall (fits max_bytes) (splitlines text) →
  splitlines text = done ++ line :: rest → whole_lines_inv done st →
  match split_body casefold max_bytes completion_token st line with
  | Ok st' => whole_lines_inv (done ++ [line]) st'
  | Raise e => False
  end.
Proof.
  intros Henc Hfits Hlines Hinv.
  pose proof (splitlines_well_split text) as Hws.
  pose proof (splitlines_nonempty text) as Hne.
  assert (Forall encodable (splitlines text)) as Hencs.
  { apply encodable_concat. by rewrite concat_splitlines. }
  rewrite Hlines in Hfits, Hne, Hencs.
  apply Forall_app in Hfits as [_ [Hfit _]%Forall_cons].
  apply Forall_app in Hencs as [Hdenc [Hlenc _]%Forall_cons].
  apply Forall_app in Hne as [Hdne _].
  unfold split_body. rewrite (utf8len_encodable _ Hlenc). cbn.
  destruct (Z.gtb_spec (Z.of_nat (byte_len line)) max_bytes) as [Hgt|_].
  { unfold fits in Hfit. lia. }
  destruct (Z.gtb_spec (Z.of_nat (buf_b st + byte_len line)) max_bytes)
    as [Hgt|_]; [|by apply (whole_lines_append done st line)].
  assert (∃ st1,
    (cut ← last_preferred_boundary_bytes casefold (concat (buf st)) completion_token;
     match cut with
     | Some cut => apply_cut st cut
     | None => Ok st
     end) = Ok st1 ∧ whole_lines_inv done st1) as (st1 & Hst1 & Hinv1).
  { destruct Hinv as (groups & seg & Hdone & Hchunks & Hg & Hbuf & Hb & Hnil).
    assert (Forall (λ l, l ≠ []) seg ∧ Forall encodable seg) as [Hsne Hsenc].
    { rewrite Hdone in Hdne, Hdenc.
      apply Forall_app in Hdne as [_ ?]. by apply Forall_app in Hdenc as [_ ?]. }
    assert (splitlines (concat (buf st)) = seg) as Hresplit.
    { rewrite Hbuf.
      apply (splitlines_concat_segment (splitlines text) (concat groups) seg
               (line :: rest)); [done| |done].
      by rewrite Hlines, Hdone, <-(assoc_L (++)). }
    assert (encodable (concat (buf st))) as Hbenc.
    { rewrite Hbuf. by apply encodable_concat. }
    pose proof (last_preferred_boundary_bytes_spec casefold completion_token
                  (concat (buf st))) as Hs. cbn zeta in Hs.
    destruct (last_preferred_boundary_bytes _ _ _) as [r|e]; [|by destruct Hs].
    destruct Hs as [_ ->]. cbn [mbind result_bind].
    destruct (last _) as [i|] eqn:Hl; cbn [fmap option_fmap option_map].
    - apply last_filter_seq in Hl as (Hi & _).
      pose proof (apply_cut_spec st (S i) Hbenc) as Hcut. cbn zeta in Hcut.
      rewrite Hcut. eexists. split; [done|].
      rewrite Hresplit in Hi |- *. by apply (whole_lines_cut done st i seg groups).
    - exists st. split; [done|]. by exists groups, seg. }
  assert (∀ m : split_state → result split_state,
               (cut ← last_preferred_boundary_bytes casefold (concat (buf st))
                        completion_token;
                st ← (match cut with
                      | Some cut => apply_cut st cut
                      | None => Ok st
                      end); m st)
               = (st' ← (cut ← last_preferred_boundary_bytes casefold
                                 (concat (buf st)) completion_token;
                         match cut with
                         | Some cut => apply_cut st cut
                         | None => Ok st
                         end); m st')) as Hassoc.
  { intros m. by destruct (last_preferred_boundary_bytes _ _ _). }
  rewrite Hassoc, Hst1. cbn.
  destruct (Z.gtb_spec (Z.of_nat (buf_b st1 + byte_len line)) max_bytes) as [Hgt2|_].
  - destruct (flush_chunk (buf st1) (chunks st1)) as [buf' chunks'] eqn:Hf.
    apply (whole_lines_append done
             {| chunks := chunks'; buf := buf'; buf_b := 0 |} line).
    by eapply whole_lines_flush.
  - by apply (whole_lines_append done st1 line).
Qed.

(** X9: when the text is encodable and no line of it is longer than
    [max_bytes], no chunk boundary falls inside a line: the chunks are the
    lines of the text, in order, gathered into non-empty groups. *)
Theorem split_utf8_smart_whole_lines (text : str) :
  encodable text → Forall (fits max_bytes) (splitlines text) →
  ∃ groups : list (list str),
    split_utf8_smart casefold text max_bytes completion_token
    = Ok ((λ g, concat g) <$> groups)
    ∧ concat groups = splitlines text
    ∧ Forall (λ g, g ≠ []) groups.
Proof.
  intros Henc Hfits. unfold split_utf8_smart.
  pose proof (for_each_inv (split_body casefold max_bytes completion_token)
    whole_lines_inv (λ _, False) (splitlines text)
    {| chunks := []; buf := []; buf_b := 0 |}) as Hloop.
  lapply Hloop; [clear Hloop; intros Hloop|].
  2:{ by exists [], []. }
  specialize (Hloop (λ done line rest st,
    whole_lines_body text done line rest st Henc Hfits)).
  destruct (for_each _ (splitlines text) _) as [st|e]; [|done].
  destruct (flush_chunk (buf st) (chunks st)) as [buf' chunks'] eqn:Hf.
  pose proof (whole_lines_flush _ _ _ _ Hloop Hf)
    as (groups & seg & Hdone & Hchunks & Hg & Hbuf & _ & Hnil).
  cbn [chunks buf buf_b] in *.
  assert (buf' = []) as ->.
  { unfold flush_chunk in Hf. destruct (buf st); by injection Hf as <- _. }
  rewrite (proj1 Hnil eq_refl), app_nil_r in Hdone.
  exists groups. cbn. rewrite Hf. cbn. by rewrite Hchunks.
Qed.
End whole_lines.

Lemma split_utf8_smart_whole_lines_witness :
  encodable (lit "ab" ++ nl ++ lit "cd" ++ nl ++ lit "ef")
  ∧ Forall (fits 4) (splitlines (lit "ab" ++ nl ++ lit "cd" ++ nl ++ lit "ef"))
  ∧ ∃ groups : list (list str),
      split_utf8_smart ascii_casefold
        (lit "ab" ++ nl ++ lit "cd" ++ nl ++ lit "ef") 4 token0
      = Ok ((λ g, concat g) <$> groups)
      ∧ concat groups = splitlines (lit "ab" ++ nl ++ lit "cd" ++ nl ++ lit "ef")
      ∧ Forall (λ g, g ≠ []) groups.
Proof.
  assert (encodable (lit "ab" ++ nl ++ lit "cd" ++ nl ++ lit "ef")) as H1.
  { repeat constructor; vm_compute; intuition discriminate. }
  assert (Forall (fits 4)
            (splitlines (lit "ab" ++ nl ++ lit "cd" ++ nl ++ lit "ef"))) as H2.
  { repeat constructor; vm_compute; discriminate. }
  split_and!; [exact H1|exact H2|].
  exact (split_utf8_smart_whole_lines ascii_casefold 4 token0 _ H1 H2).
Defined.

(** ** [str.strip] *)

Lemma lstrip_nil_iff s : lstrip s = [] ↔ Forall (λ c, is_space c = true) s.
Proof.
  induction s as [|c s IH]; cbn.
  - split; [constructor|done].
  - destruct (is_space c) eqn:Hc.
    + rewrite IH. split; [by constructor|by intros [_ ?]%Forall_cons].
    + split; [done|]. intros [H _]%Forall_cons. congruence.
Qed.

Lemma lstrip_head s c t : lstrip s = c :: t → is_space c = false.
Proof.
  induction s as [|x s IH]; cbn; [done|].
  destruct (is_space x) eqn:Hx; [done|]. by intros [= <- _].
Qed.

Lemma lstrip_id c s : is_space c = false → lstrip (c :: s) = c :: s.
Proof. intros Hc. cbn. by rewrite Hc. Qed.

Lemma lstrip_suffix s : lstrip s `suffix_of` s.
Proof.
  induction s as [|c s IH]; cbn; [done|].
  destruct (is_space c); [by apply suffix_cons_r|done].
Qed.

Lemma reverse_eq_nil {A} (l : list A) : reverse l = [] ↔ l = [].
Proof.
  split; [|by intros ->]. intros H. by rewrite <-(reverse_involutive l), H.
Qed.

Lemma lstrip_all_space s : Forall (λ c, is_space c = true) (lstrip s) → lstrip s = [].
Proof.
  destruct (lstrip s) as [|c t] eqn:Hl; [done|].
  intros [Hc _]%Forall_cons. apply lstrip_head in Hl. congruence.
Qed.

Lemma strip_nil_iff s : strip s = [] ↔ Forall (λ c, is_space c = true) s.
Proof.
  unfold strip. split.
  - intros H%reverse_eq_nil%lstrip_nil_iff.
    apply (proj1 (Forall_reverse _ _)) in H.
    apply (proj1 (lstrip_nil_iff s)). by apply lstrip_all_space.
  - intros H. apply lstrip_nil_iff in H. by rewrite H.
Qed.

(** The stripped text neither starts nor ends with white space. *)
Lemma strip_ends s :
  (∀ c t, strip s = c :: t → is_space c = false)
  ∧ (∀ c, last (strip s) = Some c → is_space c = false).
Proof.
  unfold strip. split.
  - intros c r Hr.
    destruct (lstrip_suffix (reverse (lstrip s))) as [k Hk].
    assert (lstrip s = reverse (lstrip (reverse (lstrip s))) ++ reverse k) as Ht.
    { by rewrite <-reverse_app, <-Hk, reverse_involutive. }
    rewrite Hr in Ht. cbn in Ht. by apply (lstrip_head s c (r ++ reverse k)).
  - intros c Hc. rewrite last_reverse in Hc.
    destruct (lstrip (reverse (lstrip s))) as [|x u'] eqn:Hu; [done|].
    cbn in Hc. injection Hc as ->.
    by apply (lstrip_head (reverse (lstrip s)) c u').
Qed.

Lemma strip_fix s :
  (∀ c t, s = c :: t → is_space c = false) →
  (∀ c, last s = Some c → is_space c = false) → strip s = s.
Proof.
  intros Hh Hl. unfold strip.
  assert (lstrip s = s) as ->.
  { destruct s as [|c t]; [done|]. apply lstrip_id. by apply (Hh c t). }
  assert (lstrip (reverse s) = reverse s) as ->; [|apply reverse_involutive].
  destruct (reverse s) as [|c t] eqn:Hr; [done|]. apply lstrip_id.
  apply Hl. by rewrite <-(reverse_involutive s), Hr, last_reverse.
Qed.

Lemma strip_idemp s : strip (strip s) = strip s.
Proof. destruct (strip_ends s). by apply strip_fix. Qed.

(** ** Properties of grouping, composing and sending *)

Lemma group_step_lookup (m : gmap str (list Parking)) p a :
  group_step m p !! a
  = if decide (a = area p) then Some (default [] (m !! a) ++ [p]) else m !! a.
Proof.
  unfold group_step. cbn zeta.
  destruct (decide (a = area p)) as [->|Hne].
  - rewrite lookup_insert_eq. f_equal. f_equal.
    destruct (decide (m !! area p = None)) as [Hn|Hs].
    + by rewrite lookup_total_insert_eq, Hn.
    + destruct (m !! area p) as [v|] eqn:Hv; [|done].
      by rewrite (lookup_total_correct _ _ _ Hv).
  - rewrite lookup_insert_ne by done.
    destruct (decide (m !! area p = None)); [|done].
    by rewrite lookup_insert_ne.
Qed.

(** X10: grouping by area keeps every record, in its order: under an area
    the group holds exactly the records of that area, in the order of the
    input, and an area without record is no key of the group. *)
Theorem group_by_area_lookup (parkings : list Parking) (a : str) :
  group_by_area parkings !! a
  = if decide (filter (λ p, area p = a) parkings = []) then None
    else Some (filter (λ p, area p = a) parkings).
Proof.
  induction parkings as [|p l IH] using rev_ind; [done|].
  unfold group_by_area in *. rewrite foldl_app. cbn [foldl].
  rewrite group_step_lookup, filter_app, filter_cons, filter_nil, IH.
  destruct (decide (a = area p)) as [->|Hne].
  - rewrite (decide_True (P:=area p = area p)) by done.
    rewrite (decide_False (P:=_ ++ [p] = [])) by (by destruct (filter _ l)).
    by destruct (decide (filter _ l = [])) as [->|_].
  - rewrite (decide_False (P:=area p = a)) by done. by rewrite app_nil_r.
Qed.

Lemma group_by_area_empty (parkings : list Parking) :
  group_by_area parkings = ∅ ↔ parkings = [].
Proof.
  split; [|by intros ->].
  destruct parkings as [|p l]; [done|]. intros Hm.
  pose proof (group_by_area_lookup (p :: l) (area p)) as Hl.
  rewrite Hm, lookup_empty, filter_cons in Hl.
  rewrite (decide_True (P:=area p = area p)) in Hl by done.
  by rewrite decide_False in Hl.
Qed.

Section composer_more.
Variable lower : str → str.
Variable EMOJI_MAP : gmap str str.

(** X11: [format_parking_grp_msg] always returns (the look-up of an area
    in the group never fails), and it returns no part exactly for the empty
    group. *)
Theorem format_parking_grp_msg_returns (title : str)
    (parking_group : gmap str (list Parking)) :
  ∃ parts, format_parking_grp_msg lower EMOJI_MAP title parking_group = Ok parts
           ∧ (parts = [] ↔ parking_group = ∅).
Proof.
  destruct (decide (parking_group = ∅)) as [->|Hne].
  - exists []. by unfold format_parking_grp_msg.
  - eexists. split; [by apply format_parking_grp_msg_sections|]. done.
Qed.

(** X12: within an area a separator line follows every record but the
    last: the lines of the records [recs ++ [r]] are the blocks of [recs],
    each with its separator, then the block of [r] without one. *)
Theorem format_items_separators (recs : list Parking) (r : Parking) :
  format_items lower EMOJI_MAP (recs ++ [r])
  = mjoin ((λ p, _format_single_parking_item lower EMOJI_MAP p false) <$> recs)
    ++ _format_single_parking_item lower EMOJI_MAP r true.
Proof.
  unfold format_items. rewrite imap_app, join_app. f_equal.
  - f_equal. rewrite <-imap_const. apply imap_ext. intros i p Hi. cbn.
    apply lookup_lt_Some in Hi. rewrite length_app. cbn.
    by rewrite bool_decide_eq_false_2 by lia.
  - cbn. rewrite app_nil_r, length_app. cbn.
    by rewrite bool_decide_eq_true_2 by lia.
Qed.
End composer_more.

Lemma join_head sep (x : str) (l : list str) : ∃ r, join sep (x :: l) = x ++ r.
Proof.
  destruct l as [|y l]; [exists []; by rewrite app_nil_r|].
  by exists (sep ++ join sep (y :: l)).
Qed.

Lemma strip_nonempty_head c (s : str) : is_space c = false → strip (c :: s) ≠ [].
Proof.
  intros Hc H. apply strip_nil_iff in H. apply Forall_cons in H as [H _].
  congruence.
Qed.

Section notification_facts.
Variable casefold : str → str.
Variable lower : str → str.
Variable EMOJI_MAP : gmap str str.
Variable TWILIO_ACCOUNT_SID : str.
Variable TWILIO_AUTH_TOKEN : str.
Variable WHATSAPP_FROM : str.
Variable WHATSAPP_TO : str.

Lemma message_parts_Ok (d : gmap string (list Parking)) :
  ∃ parts, message_parts lower EMOJI_MAP d = Ok parts
    ∧ (parts = [] ↔ default [] (d !! "added") = []
                    ∧ default [] (d !! "removed") = [])
    ∧ (parts ≠ [] → ∃ c rest, compose_message parts = strip (c :: rest)
                              ∧ is_space c = false).
Proof.
  unfold message_parts. cbn zeta.
  set (a := default [] (d !! "added")). set (r := default [] (d !! "removed")).
  destruct (decide (group_by_area a = ∅)) as [Ha|Ha];
    destruct (decide (group_by_area r = ∅)) as [Hr|Hr].
  - rewrite Ha, Hr. exists []. split; [done|]. split; [|done].
    apply group_by_area_empty in Ha, Hr. by split.
  - rewrite Ha, (format_parking_grp_msg_sections _ _ _ _ Hr).
    cbn [mbind result_bind mret result_ret].
    eexists. split; [done|]. split.
    + split; [done|]. intros [_ ?]. exfalso. by apply Hr, group_by_area_empty.
    + intros _. unfold compose_message. cbn [app].
      rewrite filter_cons, decide_True by done.
      match goal with
      | |- context [join nl (title_removed :: ?l)] =>
          destruct (join_head nl title_removed l) as [x Hx]
      end.
      exists 0x50%Z, (tail title_removed ++ x).
      split; [f_equal; exact Hx|done].
  - rewrite Hr, (format_parking_grp_msg_sections _ _ _ _ Ha).
    cbn [mbind result_bind mret result_ret].
    eexists. split; [done|]. split.
    + split; [done|]. intros [? _]. exfalso. by apply Ha, group_by_area_empty.
    + intros _. unfold compose_message. cbn [app].
      rewrite filter_cons, decide_True by done.
      match goal with
      | |- context [join nl (title_added :: ?l)] =>
          destruct (join_head nl title_added l) as [x Hx]
      end.
      exists 0x4E%Z, (tail title_added ++ x).
      split; [f_equal; exact Hx|done].
  - rewrite (format_parking_grp_msg_sections _ _ _ _ Ha),
      (format_parking_grp_msg_sections _ _ _ _ Hr).
    cbn [mbind result_bind mret result_ret].
    eexists. split; [done|]. split.
    + split; [done|]. intros [? _]. exfalso. by apply Ha, group_by_area_empty.
    + intros _. unfold compose_message. cbn [app].
      rewrite filter_cons, decide_True by done.
      match goal with
      | |- context [join nl (title_added :: ?l)] =>
          destruct (join_head nl title_added l) as [x Hx]
      end.
      exists 0x4E%Z, (tail title_added ++ x).
      split; [f_equal; exact Hx|done].
Qed.

End notification_facts.

(** X13: comparing a snapshot with itself and handing the result to
    [construct_and_send_notification] sends nothing, whatever the settings. *)
Theorem construct_and_send_notification_unchanged
    (casefold lower : str → str)
    (EMOJI_MAP : gmap str str) (sid token from to : str)
    (snapshot : list Parking) :
  construct_and_send_notification casefold lower EMOJI_MAP sid token from to
    (compare_parkings snapshot snapshot) = Ok [].
Proof.
  rewrite compare_parkings_dict, added_by_same, removed_by_same.
  unfold construct_and_send_notification, message_parts. cbn zeta.
  rewrite lookup_insert_eq, lookup_insert_ne, lookup_insert_eq by done.
  cbn [default]. change (group_by_area []) with (∅ : gmap str (list Parking)).
  unfold format_parking_grp_msg. rewrite !decide_True by done.
  cbn [mbind result_bind]. by rewrite decide_True.
Qed.

Lemma contains_app (a t b : str) : contains (a ++ t ++ b) t = true.
Proof.
  assert (starts_with (t ++ b) t = true) as Hs.
  { induction t as [|c t IH]; [by destruct b|]. cbn.
    by rewrite bool_decide_eq_true_2, IH. }
  induction a as [|c a IH]; cbn [app].
  - destruct (t ++ b) eqn:Htb; cbn [contains]; by rewrite Hs.
  - cbn [contains]. by rewrite IH, orb_true_r.
Qed.

Lemma remove_char_app (old : Z) (s t : str) :
  remove_char old (s ++ t) = remove_char old s ++ remove_char old t.
Proof. apply (filter_app (λ c, c ≠ old)). Qed.

(** X15: the lines of a record carry the preferred boundaries of the
    splitter: for a case folding that works code point by code point, the
    line of the number of interested is a completion line for the token the
    notifier passes, and the line after a record that is not the last of its
    area has the stripped content of two dashes. *)
Theorem format_single_parking_item_boundaries
    (casefold lower : str → str)
    (EMOJI_MAP : gmap str str) (p : Parking) :
  (∀ s t, casefold (s ++ t) = casefold s ++ casefold t) →
  (∀ is_last, ∃ l,
     _format_single_parking_item lower EMOJI_MAP p is_last !! 4 = Some l
     ∧ _is_completion_line casefold l token0 = true)
  ∧ (∃ l, _format_single_parking_item lower EMOJI_MAP p false !! 5 = Some l
          ∧ strip l = dashes).
Proof.
  intros Hcf. split.
  - intros is_last.
    exists (lit "  *Antal intresserade:* _" ++ interest p ++ lit "_ ").
    split; [by destruct is_last|].
    unfold _is_completion_line. rewrite !remove_char_app.
    change (remove_char underscore
              (remove_char star (lit "  *Antal intresserade:* _")))
      with (lit "  " ++ token0 ++ lit "e: ").
    rewrite <-!(assoc_L (++)), !Hcf. apply contains_app.
  - exists (lit "  -- "). split; reflexivity.
Qed.

Lemma format_single_parking_item_boundaries_witness :
  (∀ s t, ascii_casefold (s ++ t) = ascii_casefold s ++ ascii_casefold t)
  ∧ (∀ is_last, ∃ l,
       _format_single_parking_item ascii_lower ∅ r_area_a is_last !! 4 = Some l
       ∧ _is_completion_line ascii_casefold l token0 = true)
  ∧ (∃ l, _format_single_parking_item ascii_lower ∅ r_area_a false !! 5 = Some l
          ∧ strip l = dashes).
Proof.
  assert (∀ s t, ascii_casefold (s ++ t) = ascii_casefold s ++ ascii_casefold t)
    as H by (intros s t; apply fmap_app).
  split; [exact H|].
  exact (format_single_parking_item_boundaries ascii_casefold ascii_lower ∅
           r_area_a H).
Defined.

(** X16: [print_results] leaves the list sorted by the lower-cased tuple
    (area, address, kind, rent, interest, access), a rearrangement of what
    it was given, and hands one row per record to the table, in that
    order. *)
Theorem print_results_sorted (lower : str → str) (parking_all : list Parking) :
  (print_results lower parking_all).1 ≡ₚ parking_all
  ∧ StronglySorted (key_le (table_key lower)) (print_results lower parking_all).1
  ∧ (print_results lower parking_all).2
    = table_row <$> (print_results lower parking_all).1.
Proof.
  unfold print_results. destruct (decide (parking_all ≠ [])) as [Hne|He]; cbn.
  - split_and!; [apply sorted_Permutation|apply sorted_StronglySorted|done].
  - apply dec_stable in He as ->. split_and!; [done|constructor|done].
Qed.

Lemma decode_raises (b : bytes) e : decode b = Raise e → e = UnicodeDecodeError.
Proof.
  assert (∀ (c : Z) (m : result str) e0,
            (c ::.) <$> m = Raise e0 → m = Raise e0) as Hmap.
  { intros c m e0. destruct m; cbn; congruence. }
  remember (length b) as n eqn:Hn. revert b Hn.
  induction n as [n IH] using lt_wf_ind. intros b Hn.
  assert (∀ r : bytes, length r < length b → decode r = Raise e →
            e = UnicodeDecodeError) as IH'.
  { intros r Hlt. apply (IH (length r)); [lia|done]. }
  clear IH Hn.
  destruct b as [|b0 r0]; [done|]. cbn [decode].
  repeat case_match; try congruence; subst;
    intros Hm%Hmap; revert Hm; apply IH'; cbn [length]; lia.
Qed.

Lemma read_text_raises (d : disk) e :
  read_text d = Raise e →
  e = FileNotFoundError ∨ e = OSError ∨ e = UnicodeDecodeError.
Proof.
  unfold read_text. destruct (state_file d) as [| |c]; [naive_solver..|].
  destruct (decode c) as [t|e'] eqn:Hd; [done|].
  intros [= <-]. apply decode_raises in Hd. auto.
Qed.

Section snapshot_store_more.
Variable validate_json : str → result (list Parking).

(** X17: [parking_state_load] never writes a state file: afterwards the
    path holds what it held, or nothing (and then the result is the empty
    snapshot). None of the four exceptions its clauses name leaves it, and
    loading again from the disk it leaves gives the same result and the
    same disk. *)
Theorem parking_state_load_disk (d : disk) :
  let '(r, d') := parking_state_load validate_json d in
  (d' = d ∨ (state_file d' = NoFile ∧ unlink_denied d' = unlink_denied d
             ∧ r = Ok []))
  ∧ (∀ e, r = Raise e →
       e ≠ FileNotFoundError ∧ e ≠ JSONDecodeError ∧ e ≠ ValidationError
       ∧ e ≠ OSError)
  ∧ parking_state_load validate_json d' = (r, d').
Proof.
  destruct (parking_state_load validate_json d) as [r d'] eqn:Hl.
  assert (∀ d0, state_file d0 = NoFile →
            parking_state_load validate_json d0 = (Ok [], d0)) as Hgone.
  { intros d0 H0. unfold parking_state_load, read_text. by rewrite H0. }
  unfold parking_state_load in Hl.
  destruct (read_text d) as [text|e] eqn:Hr; cbn [mbind result_bind] in Hl.
  - assert (∃ c, state_file d = File c) as [c Hc].
    { unfold read_text in Hr. destruct (state_file d); try done. eauto. }
    destruct (validate_json text) as [ps|e] eqn:Hv.
    + injection Hl as <- <-. split_and!; [by left|done|].
      unfold parking_state_load. rewrite Hr. cbn [mbind result_bind].
      by rewrite Hv.
    + unfold unlink_missing_ok in Hl. rewrite Hc in Hl.
      destruct (unlink_denied d) eqn:Hden.
      * assert (parking_state_load validate_json d = (r, d')) as Hl'.
        { unfold parking_state_load. rewrite Hr. cbn [mbind result_bind].
          rewrite Hv. unfold unlink_missing_ok. by rewrite Hc, Hden. }
        destruct e; cbn in Hl.
        all: injection Hl as <- <-.
        all: split_and!; [by left|first [done | by intros ? [= <-]]|exact Hl'].
      * assert (parking_state_load validate_json d = (r, d')) as Hl'.
        { unfold parking_state_load. rewrite Hr. cbn [mbind result_bind].
          rewrite Hv. unfold unlink_missing_ok. by rewrite Hc, Hden. }
        destruct e; cbn in Hl.
        all: injection Hl as <- <-.
        all: split_and!;
          [ first [by left | by right]
          | first [done | by intros ? [= <-]]
          | first [exact Hl' | by apply Hgone] ].
  - assert (parking_state_load validate_json d = (r, d')) as Hl'.
    { unfold parking_state_load. by rewrite Hr. }
    destruct (read_text_raises _ _ Hr) as [->|[->| ->]]; cbn in Hl.
    all: injection Hl as <- <-.
    all: split_and!; [by left|first [done | by intros ? [= <-]]|exact Hl'].
Qed.

End snapshot_store_more.

(** ** Area codes and the search URL *)

Lemma split_from_free (sep : Z) (cur a : str) :
  sep ∉ a → split_from sep cur a = [cur ++ a].
Proof.
  revert cur. induction a as [|c a IH]; intros cur Ha; cbn.
  - by rewrite app_nil_r.
  - destruct (Z.eqb_spec c sep) as [->|_]; [exfalso; apply Ha; left|].
    rewrite IH, <-(assoc_L (++)); [done|]. intros ?. apply Ha. by right.
Qed.

Lemma split_from_sep (sep : Z) (cur a r : str) :
  sep ∉ a → split_from sep cur (a ++ sep :: r) = (cur ++ a) :: split_from sep [] r.
Proof.
  revert cur. induction a as [|c a IH]; intros cur Ha; cbn.
  - by rewrite Z.eqb_refl, app_nil_r.
  - destruct (Z.eqb_spec c sep) as [->|_]; [exfalso; apply Ha; left|].
    rewrite IH, <-(assoc_L (++)); [done|]. intros ?. apply Ha. by right.
Qed.

Lemma split_join (sep : Z) (codes : list str) :
  codes ≠ [] → Forall (λ c, sep ∉ c) codes →
  split sep (join [sep] codes) = codes.
Proof.
  unfold split. intros Hne H. induction H as [|c codes Hc H IH]; [done|].
  destruct codes as [|c' codes].
  - cbn. rewrite split_from_free; done.
  - cbn [join]. cbn [app]. rewrite split_from_sep by done.
    cbn [app]. f_equal. by apply IH.
Qed.

Lemma split_from_pieces (sep : Z) (cur s : str) :
  sep ∉ cur → Forall (λ c, sep ∉ c) (split_from sep cur s).
Proof.
  revert cur. induction s as [|c s IH]; intros cur Hcur; cbn.
  - by constructor.
  - destruct (Z.eqb_spec c sep) as [->|Hne].
    + constructor; [done|]. apply IH. by intros ?%elem_of_nil.
    + apply IH. rewrite elem_of_app, list_elem_of_singleton.
      intros [?| ->]; [by apply Hcur|done].
Qed.

Lemma parse_code_parts (parsed_codes : list str) (parts : list str) :
  foldl parse_code_part parsed_codes parts
  = parsed_codes ++ filter (λ c, c ≠ []) (strip <$> parts).
Proof.
  revert parsed_codes. induction parts as [|c parts IH]; intros acc.
  - cbn. by rewrite app_nil_r.
  - cbn [foldl fmap list_fmap]. rewrite IH. unfold parse_code_part.
    rewrite filter_cons.
    repeat case_decide; try done. by rewrite <-(assoc_L (++)).
Qed.

(** The codes parsed are the comma-separated parts of the arguments,
    stripped, without the empty ones. *)
Lemma parse_codes_spec (input_args : list str) :
  parse_codes input_args
  = filter (λ c, c ≠ []) (strip <$> concat (split comma <$> input_args)).
Proof.
  unfold parse_codes.
  enough (∀ acc, foldl (λ parsed_codes arg_string,
                   foldl parse_code_part parsed_codes (split comma arg_string))
                   acc input_args
                 = acc ++ filter (λ c, c ≠ [])
                            (strip <$> concat (split comma <$> input_args)))
    as H by apply (H []).
  induction input_args as [|a args IH]; intros acc; cbn.
  - by rewrite app_nil_r.
  - rewrite IH, parse_code_parts, fmap_app, filter_app.
    by rewrite <-(assoc_L (++)).
Qed.

Lemma elem_of_concat {A} (x : A) (ls : list (list A)) :
  x ∈ concat ls ↔ ∃ l, x ∈ l ∧ l ∈ ls.
Proof.
  induction ls as [|l ls IH]; cbn.
  - split; [by intros ?%elem_of_nil|by intros (? & _ & ?%elem_of_nil)].
  - rewrite elem_of_app, IH. split.
    + intros [Hx|(l' & Hx & Hl)]; [exists l|exists l']; (split; [done|]);
        [left|by right].
    + intros (l' & Hx & [->|Hl]%elem_of_cons); [by left|right; eauto].
Qed.

Lemma elem_of_parse_codes (input_args : list str) (c : str) :
  c ∈ parse_codes input_args
  ↔ ∃ arg piece, arg ∈ input_args ∧ piece ∈ split comma arg
                 ∧ strip piece ≠ [] ∧ c = strip piece.
Proof.
  rewrite parse_codes_spec, list_elem_of_filter, list_elem_of_fmap.
  split.
  - intros (Hne & piece & -> & (l & Hp & (arg & -> & Ha)%list_elem_of_fmap)%elem_of_concat).
    by exists arg, piece.
  - intros (arg & piece & Ha & Hp & Hne & ->). split; [done|].
    exists piece. split; [done|]. apply elem_of_concat.
    exists (split comma arg). split; [done|]. apply list_elem_of_fmap. eauto.
Qed.

(** The codes of [AREA_MAP] hold no comma, no ampersand and no white space
    at their ends, and none is empty. *)
Lemma AREA_MAP_codes (c : str) :
  c ∈ AREA_MAP.*1 →
  (comma ∉ c) ∧ (ampersand ∉ c) ∧ strip c = c ∧ c ≠ [].
Proof.
  intros H.
  assert (Forall (λ c : str, bool_decide (comma ∉ c) && bool_decide (ampersand ∉ c)
                             && bool_decide (strip c = c)
                             && bool_decide (c ≠ []) = true) AREA_MAP.*1) as Hall.
  { repeat constructor. }
  rewrite Forall_forall in Hall. specialize (Hall c H).
  rewrite !andb_true_iff, !bool_decide_eq_true in Hall. tauto.
Qed.

Lemma validate_and_display_areas_Returns (input_args printed codes : list str) :
  validate_and_display_areas input_args = (printed, Returns codes) →
  printed = [] ∧ codes = parse_codes input_args
  ∧ Forall (λ c, c ∈ AREA_MAP.*1) codes.
Proof.
  unfold validate_and_display_areas. cbn zeta.
  destruct (decide (parse_codes input_args ≠ [])) as [Hne|He].
  - destruct (decide (filter (λ code, code ∉ AREA_MAP.*1)
                        (parse_codes input_args) ≠ [])) as [Hf|Hf]; [done|].
    intros [= <- <-]. apply dec_stable in Hf. split_and!; [done..|].
    apply Forall_forall. intros c Hc.
    destruct (decide (c ∈ AREA_MAP.*1)) as [|Hno]; [done|].
    assert (c ∈ filter (λ code, code ∉ AREA_MAP.*1) (parse_codes input_args))
      as Hcf by by apply list_elem_of_filter.
    rewrite Hf in Hcf. by apply elem_of_nil in Hcf.
  - intros [= <- <-]. apply dec_stable in He. rewrite He. by split_and!.
Qed.

(** X18: [validate_and_display_areas] returns only codes of [AREA_MAP],
    prints nothing then, and drops no part of an argument that is not
    blank; it exits, with status 1 and after fourteen lines, exactly when
    some comma-separated part of an argument, stripped, is neither empty
    nor a code of [AREA_MAP]. *)
Theorem validate_and_display_areas_outcome (input_args : list str) :
  match validate_and_display_areas input_args with
  | (printed, Returns codes) =>
      printed = [] ∧ Forall (λ c, c ∈ AREA_MAP.*1) codes
      ∧ (∀ arg piece, arg ∈ input_args → piece ∈ split comma arg →
           strip piece ≠ [] → strip piece ∈ codes)
  | (printed, SystemExit exit_code) =>
      exit_code = 1%Z ∧ length printed = 14
      ∧ ∃ arg piece, arg ∈ input_args ∧ piece ∈ split comma arg
                     ∧ strip piece ≠ [] ∧ strip piece ∉ AREA_MAP.*1
  end.
Proof.
  destruct (validate_and_display_areas input_args) as [printed [codes|code]] eqn:Hv.
  - apply validate_and_display_areas_Returns in Hv as (-> & -> & Hvalid).
    split_and!; [done..|].
    intros arg piece ???. apply elem_of_parse_codes. by exists arg, piece.
  - unfold validate_and_display_areas in Hv. cbn zeta in Hv.
    destruct (decide (parse_codes input_args ≠ [])) as [Hne|He]; [|done].
    destruct (decide (filter (λ code, code ∉ AREA_MAP.*1)
                        (parse_codes input_args) ≠ [])) as [Hf|Hf]; [|done].
    cbn in Hv. injection Hv as <- <-. split_and!; [done..|].
    destruct (filter _ _) as [|c l] eqn:Hfl; [done|].
    assert (c ∈ filter (λ code, code ∉ AREA_MAP.*1) (parse_codes input_args))
      as [Hc Hp]%list_elem_of_filter by (rewrite Hfl; left).
    apply elem_of_parse_codes in Hp as (arg & piece & ? & ? & ? & ->).
    by exists arg, piece.
Qed.

Lemma parse_codes_valid (codes : list str) :
  Forall (λ c, c ∈ AREA_MAP.*1) codes →
  filter (λ c : str, c ≠ []) (strip <$> codes) = codes.
Proof.
  induction 1 as [|c codes Hc _ IH]; [done|].
  destruct (AREA_MAP_codes c Hc) as (_ & _ & Hs & Hne).
  cbn [fmap list_fmap]. rewrite filter_cons, Hs, decide_True by done.
  by rewrite IH.
Qed.

Lemma validate_and_display_areas_parsed (input_args codes : list str) :
  Forall (λ c, c ∈ AREA_MAP.*1) codes →
  parse_codes input_args = codes →
  validate_and_display_areas input_args = ([], Returns codes).
Proof.
  intros Hv Hp. unfold validate_and_display_areas. cbn zeta. rewrite Hp.
  destruct (decide (codes ≠ [])); [|done].
  rewrite decide_False; [done|]. intros Hne. apply Hne.
  clear -Hv. induction Hv as [|c codes Hc _ IH]; [done|].
  by rewrite filter_cons, decide_False by naive_solver.
Qed.

(** X19: valid area codes come back as they were given, whether they are
    passed one per argument or all in one argument, separated by commas. *)
Theorem validate_and_display_areas_round_trip (codes : list str) :
  Forall (λ c, c ∈ AREA_MAP.*1) codes →
  validate_and_display_areas codes = ([], Returns codes)
  ∧ validate_and_display_areas [join [comma] codes] = ([], Returns codes).
Proof.
  intros Hv.
  assert (Forall (λ c : str, comma ∉ c) codes) as Hfree.
  { eapply Forall_impl; [exact Hv|]. intros c Hc. by apply AREA_MAP_codes. }
  split; apply validate_and_display_areas_parsed; try done;
    rewrite parse_codes_spec.
  - rewrite <-(parse_codes_valid codes Hv) at 2. do 2 f_equal.
    clear Hv. induction Hfree as [|c codes Hc _ IH]; [done|].
    cbn [fmap list_fmap concat]. unfold split at 1.
    rewrite split_from_free by done. cbn [app]. by rewrite IH.
  - cbn [fmap list_fmap concat]. rewrite app_nil_r.
    destruct codes as [|c codes]; [done|].
    rewrite split_join by done. by apply parse_codes_valid.
Qed.

Lemma validate_and_display_areas_round_trip_witness :
  Forall (λ c, c ∈ AREA_MAP.*1) [lit "RYD"; lit "55TRY"]
  ∧ validate_and_display_areas [lit "RYD"; lit "55TRY"]
    = ([], Returns [lit "RYD"; lit "55TRY"])
  ∧ validate_and_display_areas [lit "RYD,55TRY"]
    = ([], Returns [lit "RYD"; lit "55TRY"]).
Proof.
  assert (Forall (λ c, c ∈ AREA_MAP.*1) [lit "RYD"; lit "55TRY"]) as H.
  { repeat constructor; apply bool_decide_unpack; vm_compute; exact I. }
  split; [exact H|].
  exact (validate_and_display_areas_round_trip [lit "RYD"; lit "55TRY"] H).
Defined.

Lemma build_url_params_inj (codes codes' : list str) :
  Forall (λ c : str, ampersand ∉ c) codes →
  Forall (λ c : str, ampersand ∉ c) codes' →
  concat ((λ c, lit "&omraden%5B%5D=" ++ c) <$> codes)
  = concat ((λ c, lit "&omraden%5B%5D=" ++ c) <$> codes') →
  codes = codes'.
Proof.
  intros H. revert codes'.
  induction H as [|c codes Hc _ IH]; intros codes' H'; destruct H' as [|c' codes' Hc' H'];
    [done|done|done|].
  cbn [fmap list_fmap concat]. rewrite <-!(assoc_L (++)).
  intros Heq%(inj (app (lit "&omraden%5B%5D="))).
  assert (∀ l : list str, ∃ r,
            concat ((λ c, lit "&omraden%5B%5D=" ++ c) <$> l) = r
            ∧ (r = [] ∨ ∃ r', r = ampersand :: r')) as Hshape.
  { intros [|x l]; eexists; (split; [done|]); [by left|right]. cbn. eauto. }
  destruct (Hshape codes) as (r & Hr & Hrs), (Hshape codes') as (r' & Hr' & Hrs').
  rewrite Hr, Hr' in Heq.
  assert (c = c' ∧ r = r') as [-> Hrr].
  { destruct Hrs as [->|[t ->]], Hrs' as [->|[t' ->]].
    - rewrite !app_nil_r in Heq. done.
    - exfalso. apply Hc. rewrite app_nil_r in Heq. rewrite Heq.
      apply elem_of_app. right. left.
    - exfalso. apply Hc'. rewrite app_nil_r in Heq. rewrite <-Heq.
      apply elem_of_app. right. left.
    - apply split_at_sep in Heq as [-> ->]; done. }
  f_equal. apply IH; [done|]. by rewrite Hr, Hr'.
Qed.

(** X20: two selections of valid area codes that give the same search URL
    are the same selection. *)
Theorem build_url_inj (codes codes' : list str) :
  Forall (λ c, c ∈ AREA_MAP.*1) codes →
  Forall (λ c, c ∈ AREA_MAP.*1) codes' →
  build_url codes = build_url codes' → codes = codes'.
Proof.
  intros Hv Hv'. unfold build_url. cbn zeta.
  intros Heq%(inj (app BASE_URL))%(inj (app (lit "?actionId="))).
  apply build_url_params_inj; [| |done].
  - eapply Forall_impl; [exact Hv|]. intros c Hc. by apply AREA_MAP_codes.
  - eapply Forall_impl; [exact Hv'|]. intros c Hc. by apply AREA_MAP_codes.
Qed.

Lemma build_url_inj_witness :
  Forall (λ c, c ∈ AREA_MAP.*1) [lit "RYD"]
  ∧ Forall (λ c, c ∈ AREA_MAP.*1) [lit "RYD"]
  ∧ build_url [lit "RYD"] = build_url [lit "RYD"]
  ∧ [lit "RYD"] = [lit "RYD"].
Proof.
  assert (Forall (λ c, c ∈ AREA_MAP.*1) [lit "RYD"]) as H.
  { repeat constructor; apply bool_decide_unpack; vm_compute; exact I. }
  split_and!; [exact H|exact H|reflexivity|].
  exact (build_url_inj [lit "RYD"] [lit "RYD"] H H eq_refl).
Defined.

Lemma AREA_MAP_getitem_Ok (area : str) :
  area ∈ AREA_MAP.*1 → ∃ name, AREA_MAP_getitem area = Ok name.
Proof.
  intros (kv & -> & Hkv)%list_elem_of_fmap. unfold AREA_MAP_getitem.
  destruct (list_find (λ kv0 : str * str, kv0.1 = kv.1) AREA_MAP)
    as [[i [k name]]|] eqn:Hf; [by exists name|].
  exfalso. eapply list_find_None in Hf. rewrite Forall_forall in Hf.
  by apply (Hf kv).
Qed.

(** X21: [main] can look up every code that [validate_and_display_areas]
    returns: printing the areas to search raises no [KeyError], and prints
    a heading and one line per returned code, or one per code of
    [AREA_MAP] when none was given. *)
Theorem main_areas_no_KeyError (input_args printed codes : list str) :
  validate_and_display_areas input_args = (printed, Returns codes) →
  ∃ lines, main_areas codes = Ok lines
           ∧ length lines = S (if decide (codes = []) then 12 else length codes).
Proof.
  intros Hv.
  apply validate_and_display_areas_Returns in Hv as (_ & _ & Hvalid).
  unfold main_areas.
  destruct codes as [|c codes]; [by eexists|].
  rewrite decide_False by done.
  assert (∀ l : list str, Forall (λ c, c ∈ AREA_MAP.*1) l →
            ∃ ls, mapM (λ area, name ← AREA_MAP_getitem area;
                                Ok (area_line name area)) l = Ok ls
                  ∧ length ls = length l) as Hm.
  { induction 1 as [|a l Ha _ (ls & Hls & Hlen)]; [by exists []|].
    destruct (AREA_MAP_getitem_Ok a Ha) as [name Hn].
    exists (area_line name a :: ls). split; [|cbn; by rewrite Hlen].
    cbn [mapM]. rewrite Hn, Hls. done. }
  destruct (Hm _ Hvalid) as (ls & -> & Hlen).
  eexists. split; [done|]. cbn [mbind result_bind length]. by rewrite Hlen.
Qed.

Lemma main_areas_no_KeyError_witness :
  validate_and_display_areas [lit "RYD, VASA"]
  = ([], Returns [lit "RYD"; lit "VASA"])
  ∧ ∃ lines, main_areas [lit "RYD"; lit "VASA"] = Ok lines
             ∧ length lines
               = S (if decide ([lit "RYD"; lit "VASA"] = []) then 12
                    else length [lit "RYD"; lit "VASA"]).
Proof.
  assert (validate_and_display_areas [lit "RYD, VASA"]
          = ([], Returns [lit "RYD"; lit "VASA"])) as H by reflexivity.
  split; [exact H|].
  exact (main_areas_no_KeyError [lit "RYD, VASA"] [] [lit "RYD"; lit "VASA"] H).
Defined.

(** ** Reading the listing *)

Lemma not_newline_space (c : Z) : is_space c = false → not_newline c = true.
Proof. unfold is_space, not_newline. lia. Qed.

Lemma take_while_Forall (P : Z → bool) (s : str) :
  Forall (λ c, P c = true) (take_while P s).
Proof.
  induction s as [|c s IH]; cbn; [done|].
  destruct (P c) eqn:Hc; by constructor.
Qed.

Lemma take_while_prefix (P : Z → bool) (s : str) : take_while P s `prefix_of` s.
Proof.
  induction s as [|c s IH]; cbn; [done|].
  destruct (P c); [by apply prefix_cons|apply prefix_nil].
Qed.

Lemma match_group_Some (s g : str) :
  match_group s = Some g → g = take_while not_newline s ∧ g ≠ [].
Proof.
  unfold match_group. destruct (take_while not_newline s) eqn:Ht; [done|].
  by intros [= <-].
Qed.

Lemma match_group_None (s : str) :
  match_group s = None → ∀ c t, s = c :: t → not_newline c = false.
Proof.
  unfold match_group. intros H c t ->. cbn in H.
  by destruct (not_newline c).
Qed.

(** The two ways [\s*([^\n\r]+)] ends at [s]: at the first character that
    is not white space, with the rest of its line; or, when [s] is white
    space to its end, with white space only or not at all. *)
Lemma match_value_spec (s : str) :
  match lstrip s with
  | c :: t => match_value s = Some (take_while not_newline (c :: t))
  | [] =>
    match match_value s with
    | Some g => Forall (λ c, is_space c = true) g
    | None => Forall (λ c, not_newline c = false) s
    end
  end.
Proof.
  induction s as [|c s IH]; [by constructor|]. cbn [lstrip match_value].
  destruct (is_space c) eqn:Hc.
  - destruct (lstrip s) as [|x t] eqn:Hl; [|by rewrite IH].
    destruct (match_value s) as [g|]; [done|].
    unfold match_group. cbn [take_while].
    destruct (not_newline c) eqn:Hn; [|by constructor].
    destruct s as [|y s]; cbn [take_while]; [by repeat constructor|].
    apply Forall_cons in IH as [-> _]. by repeat constructor.
  - unfold match_group. cbn [take_while].
    by rewrite (not_newline_space c Hc).
Qed.

Lemma match_value_None (s : str) :
  Forall (λ c, not_newline c = false) s → match_value s = None.
Proof.
  induction 1 as [|c s Hc _ IH]; [done|]. cbn [match_value].
  rewrite IH. unfold match_group. cbn [take_while]. rewrite Hc.
  by destruct (is_space c).
Qed.

Lemma re_search_None (label s : str) :
  Forall (λ c, not_newline c = false) (drop (length label) s) →
  re_search label s = None.
Proof.
  induction s as [|x s IH]; intros Hall.
  - cbn [re_search]. rewrite drop_nil.
    by destruct (starts_with [] label).
  - cbn [re_search]. rewrite (match_value_None _ Hall).
    destruct (starts_with (x :: s) label); apply IH;
      replace (drop (length label) s)
        with (drop 1 (drop (length label) (x :: s)))
        by (by rewrite drop_drop, Nat.add_1_r);
      by apply Forall_drop.
Qed.

Lemma strip_all_space (s : str) :
  Forall (λ c, is_space c = true) s → strip s = [].
Proof. apply strip_nil_iff. Qed.

(** X22: the value [extract_field] returns is read at the first occurrence
    of the label alone: the white space after it is skipped, the rest of
    that line is taken and stripped. The retries of the search at later
    occurrences and the white space the pattern gives back never change
    it; without the label the value is empty. *)
Theorem extract_field_first_occurrence (block_text label : str) :
  extract_field block_text label
  = match after_first label block_text with
    | Some rest => strip (take_while not_newline (lstrip rest))
    | None => []
    end.
Proof.
  unfold extract_field.
  induction block_text as [|x s IH].
  - cbn [re_search after_first]. rewrite drop_nil.
    by destruct (starts_with [] label).
  - cbn [re_search after_first].
    destruct (starts_with (x :: s) label); [|exact IH].
    pose proof (match_value_spec (drop (length label) (x :: s))) as Hm.
    destruct (lstrip (drop (length label) (x :: s))) as [|c t] eqn:Hl.
    + destruct (match_value (drop (length label) (x :: s))) as [g|].
      * by rewrite (strip_all_space g Hm).
      * rewrite re_search_None; [done|].
        replace (drop (length label) s)
          with (drop 1 (drop (length label) (x :: s)))
          by (by rewrite drop_drop, Nat.add_1_r).
        by apply Forall_drop.
    + by rewrite Hm.
Qed.

Lemma match_value_Some (s g : str) :
  match_value s = Some g → g ≠ [] ∧ Forall (λ c, not_newline c = true) g.
Proof.
  assert (∀ s', match_group s' = Some g →
            g ≠ [] ∧ Forall (λ c, not_newline c = true) g) as Hg.
  { intros s' [-> ?]%match_group_Some. split; [done|apply take_while_Forall]. }
  induction s as [|c s IH]; cbn [match_value]; [apply Hg|].
  destruct (is_space c); [|apply Hg].
  destruct (match_value s) as [g'|]; [|apply Hg].
  intros [= ->]. by apply IH.
Qed.

Lemma re_search_Some (label s g : str) :
  re_search label s = Some g →
  contains s label = true ∧ Forall (λ c, not_newline c = true) g.
Proof.
  induction s as [|x s IH]; cbn [re_search contains].
  - rewrite drop_nil. by destruct (starts_with [] label).
  - destruct (starts_with (x :: s) label) eqn:Hs.
    + destruct (match_value _) eqn:Hm.
      * intros [= ->]. split; [done|]. by eapply match_value_Some.
      * intros [_ ?]%IH. by split.
    + intros [-> ?]%IH. by split.
Qed.

Lemma strip_Forall (P : Z → Prop) (s : str) : Forall P s → Forall P (strip s).
Proof.
  intros H. unfold strip. apply Forall_reverse.
  destruct (lstrip_suffix (reverse (lstrip s))) as [k Hk].
  assert (Forall P (reverse (lstrip s))) as Hr.
  { apply Forall_reverse. destruct (lstrip_suffix s) as [k' Hk'].
    rewrite Hk' in H. by apply Forall_app in H as [_ ?]. }
  rewrite Hk in Hr. by apply Forall_app in Hr as [_ ?].
Qed.

Lemma extract_field_parts (block_text label : str) :
  strip (extract_field block_text label) = extract_field block_text label
  ∧ Forall (λ c, not_newline c = true) (extract_field block_text label).
Proof.
  unfold extract_field.
  destruct (re_search label block_text) as [g|] eqn:Hs; [|done].
  apply re_search_Some in Hs as [_ Hg].
  split; [apply strip_idemp|by apply strip_Forall].
Qed.

(** X23: a value [extract_field] returns holds neither a line feed nor a
    carriage return, is stripped, and is empty unless the label occurs in
    the block. *)
Theorem extract_field_clean (block_text label : str) :
  Forall (λ c, not_newline c = true) (extract_field block_text label)
  ∧ strip (extract_field block_text label) = extract_field block_text label
  ∧ (extract_field block_text label ≠ [] → contains block_text label = true).
Proof.
  destruct (extract_field_parts block_text label) as [Hs Hn].
  split_and!; [done..|].
  unfold extract_field.
  destruct (re_search label block_text) as [g|] eqn:Hg; [|done].
  by apply re_search_Some in Hg as [Hc _].
Qed.

Lemma extract_fields_clean (block : str) :
  Forall (λ v, strip v = v ∧ Forall (λ c, not_newline c = true) v)
    (values (extract_fields block)).
Proof.
  unfold values, extract_fields. cbn.
  repeat constructor; apply extract_field_parts.
Qed.

Section scrape_facts.
Variable model_validate : Parking → result Parking.

(** X24: [extract_parking_spaces_from_div] only appends to [parking_all],
    and returns the number of records it appended, one per row at most.
    Each record appended is what [model_validate] made of the fields read
    from a row whose text holds all six labels; of these fields one at
    least is not empty, and each is stripped and on one line. An exception
    leaves the function only when [model_validate] raises another one than
    [ValidationError]. *)
Theorem extract_parking_spaces_from_div_appends (rows : list (option str))
    (parking_all : list Parking) :
  match extract_parking_spaces_from_div model_validate rows parking_all with
  | Ok (parking_all', parkings_found) =>
      ∃ new, parking_all' = parking_all ++ new
             ∧ parkings_found = length new ∧ length new ≤ length rows
             ∧ Forall (λ parking_obj, ∃ inner_text,
                  Some inner_text ∈ rows
                  ∧ let txt := replace backslash_u00a0 (lit " ") inner_text in
                    let parking := extract_fields (normalized_block txt) in
                    Forall (λ label, contains txt label = true) ParkingLabel
                    ∧ model_validate parking = Ok parking_obj
                    ∧ Exists (λ v, v ≠ []) (values parking)
                    ∧ Forall (λ v, strip v = v
                                   ∧ Forall (λ c, not_newline c = true) v)
                        (values parking)) new
  | Raise e => e ≠ ValidationError ∧ ∃ parking, model_validate parking = Raise e
  end.
Proof.
  unfold extract_parking_spaces_from_div.
  set (Q := λ (done : list (option str)) (parking_obj : Parking),
     ∃ inner_text, Some inner_text ∈ done
       ∧ let txt := replace backslash_u00a0 (lit " ") inner_text in
         let parking := extract_fields (normalized_block txt) in
         Forall (λ label, contains txt label = true) ParkingLabel
         ∧ model_validate parking = Ok parking_obj
         ∧ Exists (λ v, v ≠ []) (values parking)
         ∧ Forall (λ v, strip v = v ∧ Forall (λ c, not_newline c = true) v)
             (values parking)).
  set (I := λ (done : list (option str)) (st : list Parking * nat),
     ∃ new, st = (parking_all ++ new, length new)
            ∧ length new ≤ length done ∧ Forall (Q done) new).
  set (E := λ e, e ≠ ValidationError
                 ∧ ∃ parking, model_validate parking = Raise e).
  assert (I [] (parking_all, 0)) as H0.
  { exists []. by rewrite app_nil_r. }
  assert (∀ done x rest st, rows = done ++ x :: rest → I done st →
            match row_body model_validate st x with
            | Ok st' => I (done ++ [x]) st'
            | Raise e => E e
            end) as Hstep.
  { intros done row rest st _ (new & -> & Hlen & Hnew).
    assert (Forall (Q (done ++ [row])) new) as Hnew'.
    { eapply Forall_impl; [exact Hnew|]. intros obj (t & Ht & ?).
      exists t. split; [|done]. apply elem_of_app. by left. }
    assert (I (done ++ [row]) (parking_all ++ new, length new)) as Hskip.
    { exists new. split_and!; [done|rewrite length_app; lia|done]. }
    unfold row_body. destruct row as [inner_text|]; [|exact Hskip].
    cbn zeta.
    destruct (decide (replace backslash_u00a0 (lit " ") inner_text = []));
      [exact Hskip|].
    destruct (decide (filter _ ParkingLabel ≠ [])) as [|Hmiss]; [exact Hskip|].
    destruct (decide (Exists _ _)) as [Hany|]; [|exact Hskip].
    destruct (model_validate _) as [parking_obj|e] eqn:Hv.
    - exists (new ++ [parking_obj]). rewrite !length_app, (assoc_L (++)). cbn.
      split_and!; [by rewrite Nat.add_1_r|lia|].
      apply Forall_app. split; [done|].
      constructor; [|done]. exists inner_text.
      split; [apply elem_of_app; right; left|]. cbn zeta.
      split_and!; [|done|done|apply extract_fields_clean].
      apply dec_stable in Hmiss. apply Forall_forall. intros label Hl.
      destruct (contains _ label) eqn:Hc; [done|].
      exfalso. by eapply (filter_nil_not_elem_of _ _ label Hmiss).
    - destruct e; first [exact Hskip | split; [done|eauto]]. }
  pose proof (for_each_inv (row_body model_validate) I E rows
                (parking_all, 0) H0 Hstep) as H.
  destruct (for_each _ _ _) as [[parking_all' parkings_found]|e]; [|exact H].
  destruct H as (new & [= -> ->] & Hlen & Hnew). by exists new.
Qed.

End scrape_facts.

(** ** The text block of a row *)

Lemma starts_with_iff (s t : str) : starts_with s t = true ↔ ∃ b, s = t ++ b.
Proof.
  revert s. induction t as [|x t IH]; intros s.
  - split; [intros _; by exists s|by destruct s].
  - destruct s as [|y s]; cbn [starts_with].
    + split; [done|by intros [b ?]].
    + rewrite andb_true_iff, bool_decide_eq_true, IH. split.
      * intros [-> [b ->]]. by exists b.
      * intros [b [= -> ->]]. split; [done|by exists b].
Qed.

Lemma contains_iff (s t : str) :
  contains s t = true ↔ ∃ a b, s = a ++ t ++ b.
Proof.
  split; [|intros (a & b & ->); apply contains_app].
  induction s as [|x s IH]; cbn [contains]; rewrite orb_true_iff.
  - intros [[b ->]%starts_with_iff|?]; [by exists [], b|done].
  - intros [[b ->]%starts_with_iff|(a & b & ->)%IH]; [by exists [], b|].
    by exists (x :: a), b.
Qed.

(** An occurrence of [t] in [u ++ c :: v], where [c] is not in [t], lies
    in [u] or in [v]. *)
Lemma occurrence_split (u v a b t : str) (c : Z) :
  c ∉ t → u ++ c :: v = a ++ t ++ b →
  (∃ a' b', u = a' ++ t ++ b') ∨ (∃ a' b', v = a' ++ t ++ b').
Proof.
  intros Hc Heq.
  apply app_eq_inv in Heq as [(k & -> & Hk)|(k & -> & Hk)].
  - left. symmetry in Hk.
    apply app_eq_inv in Hk as [(k' & -> & Hk')|(k' & -> & Hk')].
    + exists a, k'. done.
    + destruct k' as [|y k'].
      * exists a, []. by rewrite !app_nil_r.
      * injection Hk' as -> _. exfalso. apply Hc.
        apply elem_of_app. right. left.
  - destruct k as [|y k].
    + destruct t as [|y t]; [left; exists u, []; by rewrite !app_nil_r|].
      injection Hk as -> _. exfalso. apply Hc. left.
    + right. injection Hk as _ ->. by exists k, b.
Qed.

Lemma linebreak_not_in (t : str) (c : Z) :
  Forall (λ x, is_linebreak x = false) t → is_linebreak c = true → c ∉ t.
Proof.
  intros Ht Hc Hin. rewrite Forall_forall in Ht. specialize (Ht c Hin).
  congruence.
Qed.

Lemma splitlines_plain_from_keeps (t s cur : str) :
  t ≠ [] → Forall (λ x, is_linebreak x = false) t →
  (∃ a b, cur ++ s = a ++ t ++ b) →
  ∃ line, line ∈ splitlines_plain_from cur s ∧ ∃ a b, line = a ++ t ++ b.
Proof.
  intros Hne Ht.
  assert (∀ a b : str, [] ≠ a ++ t ++ b) as Hnil.
  { intros a b H. symmetry in H. apply app_eq_nil in H as [_ H].
    by apply app_eq_nil in H as [? _]. }
  remember (length s) as n eqn:Hn. revert s Hn cur.
  induction n as [n IH] using lt_wf_ind. intros s Hn cur (a & b & Heq).
  destruct s as [|c rest].
  - rewrite app_nil_r in Heq. subst cur. cbn.
    destruct (a ++ t ++ b) eqn:Hcur; [by destruct (Hnil a b)|].
    eexists. split; [left|]. rewrite <-Hcur. by exists a, b.
  - cbn [length] in Hn.
    assert (is_linebreak c = true →
              ∀ rest', length rest' < n →
                (∀ a' b', rest = a' ++ t ++ b' →
                   ∃ a'' b'', rest' = a'' ++ t ++ b'') →
              ∃ line, line ∈ cur :: splitlines_plain_from [] rest'
                      ∧ ∃ a b, line = a ++ t ++ b) as Hbreak.
    { intros Hc rest' Hlen Hrest.
      destruct (occurrence_split cur rest a b t c) as [Hin|(a' & b' & Hin)];
        [by apply linebreak_not_in|done| |].
      - exists cur. split; [left|done].
      - destruct (IH (length rest') Hlen rest' eq_refl [])
          as (line & Hl & Hocc); [by apply (Hrest a' b')|].
        exists line. split; [by right|done]. }
    cbn [splitlines_plain_from].
    destruct (Z.eqb_spec c 0x0D) as [->|Hcr].
    + destruct rest as [|c' rest'].
      * apply Hbreak; [done|lia|by intros a' b' ?%Hnil].
      * destruct (Z.eqb_spec c' 0x0A) as [->|Hlf].
        -- apply Hbreak; [done|cbn [length] in Hn; lia|].
           intros a' b' H'.
           destruct (occurrence_split [] rest' a' b' t 0x0A)
             as [(a'' & b'' & Hin)|Hin]; [by apply linebreak_not_in|done| |done].
           by destruct (Hnil a'' b'').
        -- apply Hbreak; [done|lia|eauto].
    + destruct (is_linebreak c) eqn:Hc.
      * apply Hbreak; [done|lia|eauto].
      * apply (IH (length rest)); [lia|done|].
        exists a, b. by rewrite <-(assoc_L (++)).
Qed.

Lemma splitlines_plain_from_infix (s cur line : str) :
  line ∈ splitlines_plain_from cur s → ∃ a b, cur ++ s = a ++ line ++ b.
Proof.
  remember (length s) as n eqn:Hn. revert s Hn cur.
  induction n as [n IH] using lt_wf_ind. intros s Hn cur.
  destruct s as [|c rest].
  - cbn. destruct cur as [|x cur]; [by intros ?%elem_of_nil|].
    intros ->%list_elem_of_singleton. exists [], []. by rewrite !app_nil_r.
  - cbn [length] in Hn.
    assert (∀ sep rest', length rest' < n → rest = sep ++ rest' →
              line ∈ cur :: splitlines_plain_from [] rest' →
              ∃ a b, cur ++ c :: rest = a ++ line ++ b) as Hbreak.
    { intros sep rest' Hlen -> [->|Hin]%elem_of_cons.
      - by exists [], (c :: sep ++ rest').
      - destruct (IH (length rest') Hlen rest' eq_refl [] Hin) as (a & b & Hab).
        cbn [app] in Hab. rewrite Hab.
        exists (cur ++ c :: sep ++ a), b.
        rewrite <-(assoc_L (++) cur). cbn [app].
        by rewrite <-!(assoc_L (++)). }
    cbn [splitlines_plain_from].
    destruct (Z.eqb_spec c 0x0D) as [->|Hcr].
    + destruct rest as [|c' rest'].
      * apply (Hbreak []); [lia|done].
      * destruct (Z.eqb_spec c' 0x0A) as [->|Hlf].
        -- apply (Hbreak [0x0A%Z]); [cbn [length] in Hn; lia|done].
        -- apply (Hbreak []); [lia|done].
    + destruct (is_linebreak c) eqn:Hc.
      * apply (Hbreak []); [lia|done].
      * intros Hin. destruct (IH (length rest) ltac:(lia) rest eq_refl _ Hin)
          as (a & b & Hab).
        exists a, b. by rewrite <-Hab, <-(assoc_L (++)).
Qed.

Lemma lstrip_keeps (a x : str) (c : Z) (x' : str) :
  x = c :: x' → is_space c = false → ∃ a', lstrip (a ++ x) = a' ++ x.
Proof.
  intros -> Hc. induction a as [|y a IH]; cbn [app].
  - exists []. by apply lstrip_id.
  - cbn [lstrip]. destruct (is_space y); [exact IH|by exists (y :: a)].
Qed.

Lemma strip_keeps (a t b : str) (c d : Z) (t' : str) :
  t = c :: t' → is_space c = false → last t = Some d → is_space d = false →
  ∃ a' b', strip (a ++ t ++ b) = a' ++ t ++ b'.
Proof.
  intros Ht Hc Hd Hds. unfold strip.
  destruct (lstrip_keeps a (t ++ b) c (t' ++ b)) as [a' ->]; [by rewrite Ht|done|].
  rewrite !reverse_app, <-(assoc_L (++)).
  assert (∃ r, reverse t = d :: r) as [r Hr].
  { apply last_Some in Hd as [t1 ->]. rewrite reverse_app. by eexists. }
  destruct (lstrip_keeps (reverse b) (reverse t ++ reverse a') d (r ++ reverse a'))
    as [b' ->]; [by rewrite Hr|done|].
  exists a', (reverse b').
  by rewrite !reverse_app, !reverse_involutive, <-(assoc_L (++)).
Qed.

Lemma strip_infix (s : str) : ∃ p q, s = p ++ strip s ++ q.
Proof.
  unfold strip.
  destruct (lstrip_suffix s) as [p Hp].
  destruct (lstrip_suffix (reverse (lstrip s))) as [q Hq].
  exists p, (reverse q). rewrite Hp at 1. f_equal.
  by rewrite <-reverse_app, <-Hq, reverse_involutive.
Qed.

Lemma join_infix (sep x : str) (l : list str) :
  x ∈ l → ∃ a b, join sep l = a ++ x ++ b.
Proof.
  induction l as [|y l IH]; [by intros ?%elem_of_nil|].
  intros [->|Hin]%elem_of_cons.
  - destruct l as [|z l]; [exists [], []; by rewrite app_nil_r|].
    by exists [], (sep ++ join sep (z :: l)).
  - destruct (IH Hin) as (a & b & Hab).
    destruct l as [|z l]; [by apply elem_of_nil in Hin|].
    cbn [join]. cbn [join] in Hab. rewrite Hab.
    exists (y ++ sep ++ a), b. by rewrite <-!(assoc_L (++)).
Qed.

Lemma join_occurrence (c : Z) (t : str) (l : list str) :
  t ≠ [] → c ∉ t → (∃ a b, join [c] l = a ++ t ++ b) →
  ∃ x, x ∈ l ∧ ∃ a b, x = a ++ t ++ b.
Proof.
  intros Hne Hc. induction l as [|y l IH]; intros (a & b & Hab).
  - exfalso. cbn in Hab. symmetry in Hab. apply app_eq_nil in Hab as [_ H].
    by apply app_eq_nil in H as [? _].
  - destruct l as [|z l]; [exists y; split; [left|by exists a, b]|].
    cbn [join] in Hab. cbn [app] in Hab.
    destruct (occurrence_split y (join [c] (z :: l)) a b t c Hc Hab)
      as [Hin|Hin].
    + exists y. split; [left|done].
    + destruct (IH Hin) as (x & Hx & Hocc). exists x. split; [by right|done].
Qed.

(** A text without line boundary that starts and ends with characters that
    are not white space occurs in the block exactly when it occurs in the
    text the block is made of. *)
Lemma normalized_block_contains (txt t : str) (c d : Z) (t' : str) :
  t = c :: t' → is_space c = false → last t = Some d → is_space d = false →
  Forall (λ x, is_linebreak x = false) t →
  contains (normalized_block txt) t = contains txt t.
Proof.
  intros Ht Hc Hd Hds Hlb.
  assert (t ≠ []) as Hne by by rewrite Ht.
  apply Bool.eq_true_iff_eq. rewrite !contains_iff. unfold normalized_block.
  split.
  - intros Hocc.
    apply join_occurrence in Hocc as (x & Hx & a & b & Hab);
      [|done|by apply linebreak_not_in].
    apply list_elem_of_fmap in Hx as (line & -> & [_ Hline]%list_elem_of_filter).
    apply splitlines_plain_from_infix in Hline as (a1 & b1 & Htxt).
    destruct (strip_infix line) as (p & q & Hpq).
    cbn [app] in Htxt. rewrite Htxt, Hpq, Hab.
    exists (a1 ++ p ++ a), (b ++ q ++ b1). by rewrite <-!(assoc_L (++)).
  - intros Hocc.
    destruct (splitlines_plain_from_keeps t txt [] Hne Hlb Hocc)
      as (line & Hline & a & b & ->).
    destruct (strip_keeps a t b c d t' Ht Hc Hd Hds) as (a' & b' & Hs).
    destruct (join_infix nl (strip (a ++ t ++ b))
                (strip <$> filter (λ line, strip line ≠ []) (splitlines_plain txt)))
      as (a1 & b1 & ->).
    + apply list_elem_of_fmap. eexists. split; [done|].
      apply list_elem_of_filter. split; [|done].
      rewrite Hs. intros H. apply app_eq_nil in H as [_ H].
      by apply app_eq_nil in H as [? _].
    + rewrite Hs. exists (a1 ++ a'), (b' ++ b1). by rewrite <-!(assoc_L (++)).
Qed.

(** X25: the test for the six labels gives the same answer on the text of a
    row and on its normalized block: stripping the lines and leaving out
    the blank ones neither removes nor creates an occurrence of a label. *)
Theorem normalized_block_labels (txt : str) :
  Forall (λ label, contains (normalized_block txt) label = contains txt label)
    ParkingLabel.
Proof.
  assert (Forall (λ t : str,
            ∃ c t' d, t = c :: t' ∧ is_space c = false ∧ last t = Some d
                      ∧ is_space d = false
                      ∧ Forall (λ x, is_linebreak x = false) t)
            ParkingLabel) as Hshape.
  { repeat apply Forall_cons_2; [..|apply Forall_nil_2];
      (do 3 eexists; split_and!; [reflexivity..|repeat constructor]). }
  eapply Forall_impl; [exact Hshape|].
  intros t (c & t' & d & Ht & Hc & Hd & Hds & Hlb).
  by apply (normalized_block_contains txt t c d t').
Qed.
